(** * The pipeline core of [src/index.tsx]: retry wrapper, failure
      classification, video poller and the five-step state machine.

    The development is a shallow embedding.  JavaScript values that the
    code only inspects through [JSON.stringify], [instanceof Error],
    [.message] and [String(...)] are an inductive type; the React state is
    a record updated by the setters; asynchronous handlers are functions
    in a small state-and-exception monad over that record, the answers of
    the outside world and an event log; unbounded loops take fuel.  A
    handler run as such a function is the run during which nothing else
    happens; the state at the end of a run during whose waits other
    handlers ran is obtained by replaying its log ([replay],
    [overlapped]). *)

From Stdlib Require Import ZArith List String Ascii Bool Lia QArith.
From Stdlib Require Import DecimalString.
Import ListNotations.
Local Open Scope string_scope.
Local Open Scope Z_scope.
Local Set Warnings "-register-all".

(** ** Strings

    JavaScript strings are modelled by [string]: sequences of code units
    in the 8-bit range. *)

Module Str.

(** [s.includes(needle)]: case-sensitive substring test. *)
Fixpoint includes (s needle : string) : bool :=
  if String.prefix needle s then true
  else match s with
       | EmptyString => false
       | String _ s' => includes s' needle
       end.

(** The same property as a proposition: [needle] occurs somewhere in [s]. *)
Definition Occurs (needle s : string) : Prop :=
  exists before after, s = before ++ needle ++ after.

(** Lower case of one code unit: A-Z, and the capital letters of the
    Latin-1 range (all of 192-222 but the multiplication sign 215). *)
Definition lowerChar (c : ascii) : ascii :=
  let n := nat_of_ascii c in
  if (((65 <=? n) && (n <=? 90))
      || ((192 <=? n) && (n <=? 222) && negb (n =? 215)))%nat
  then ascii_of_nat (n + 32)
  else c.

(** [s.toLowerCase()] on the modelled code units. *)
Fixpoint toLowerCase (s : string) : string :=
  match s with
  | EmptyString => EmptyString
  | String c s' => String (lowerChar c) (toLowerCase s')
  end.

(** [parts.join(sep)] for an array of strings. *)
Fixpoint join (sep : string) (parts : list string) : string :=
  match parts with
  | [] => ""
  | [p] => p
  | p :: rest => p ++ sep ++ join sep rest
  end.

(** A string is falsy exactly when it is empty. *)
Definition truthy (s : string) : bool :=
  match s with EmptyString => false | _ => true end.

End Str.

(** ** JavaScript values thrown as failures *)

(** The fragment of values a rejected promise carries here.  An [Error]
    instance keeps its [message] in a non-enumerable own property; [props]
    are its enumerable own properties in insertion order (what
    [JSON.stringify] sees).  Numbers are integers that JavaScript prints in
    plain decimal (magnitude below 10^21).  Objects with [toJSON], custom
    [toString], getters or cycles are outside the fragment. *)
Inductive JsValue : Type :=
| JsUndefined
| JsNull
| JsBool (b : bool)
| JsNumber (n : Z)
| JsString (s : string)
| JsArray (items : list JsValue)
| JsObject (props : list (string * JsValue))
| JsError (message : string) (props : list (string * JsValue)).

Module JSON.

Definition hexDigit (n : nat) : ascii :=
  ascii_of_nat (if (n <? 10)%nat then 48 + n else 87 + n).

Definition dquote : string := String (ascii_of_nat 34) "".

(** One code unit inside a JSON string literal (QuoteJSONString). *)
Definition escapeChar (c : ascii) : string :=
  let n := nat_of_ascii c in
  if (n =? 34)%nat then "\" ++ dquote
  else if (n =? 92)%nat then "\\"
  else if (n =? 8)%nat then "\b"
  else if (n =? 9)%nat then "\t"
  else if (n =? 10)%nat then "\n"
  else if (n =? 12)%nat then "\f"
  else if (n =? 13)%nat then "\r"
  else if (n <? 32)%nat
       then "\u00" ++ String (hexDigit (n / 16)) (String (hexDigit (n mod 16)) "")
  else String c "".

Fixpoint escape (s : string) : string :=
  match s with
  | EmptyString => ""
  | String c s' => escapeChar c ++ escape s'
  end.

Definition quote (s : string) : string := dquote ++ escape s ++ dquote.

Definition number (n : Z) : string := NilZero.string_of_int (Z.to_int n).

(** [JSON.stringify(v)]: [None] is the result [undefined]. *)
Fixpoint stringify (v : JsValue) : option string :=
  let fix members (ps : list (string * JsValue)) : list string :=
    match ps with
    | [] => []
    | (k, x) :: ps' =>
        match stringify x with
        | Some sx => (quote k ++ ":" ++ sx) :: members ps'
        | None => members ps'
        end
    end in
  let fix elements (xs : list JsValue) : list string :=
    match xs with
    | [] => []
    | x :: xs' =>
        match stringify x with
        | Some sx => sx :: elements xs'
        | None => "null" :: elements xs'
        end
    end in
  match v with
  | JsUndefined => None
  | JsNull => Some "null"
  | JsBool true => Some "true"
  | JsBool false => Some "false"
  | JsNumber n => Some (number n)
  | JsString s => Some (quote s)
  | JsArray xs => Some ("[" ++ Str.join "," (elements xs) ++ "]")
  | JsObject ps => Some ("{" ++ Str.join "," (members ps) ++ "}")
  | JsError _ ps => Some ("{" ++ Str.join "," (members ps) ++ "}")
  end.

End JSON.

(** [String(v)] for a value that is not an [Error] instance (the only use
    in the source).  For completeness an [Error] prints with the default
    name. *)
Fixpoint String_ (v : JsValue) : string :=
  let fix items (xs : list JsValue) : list string :=
    match xs with
    | [] => []
    | x :: xs' =>
        match x with
        | JsUndefined | JsNull => "" :: items xs'
        | _ => String_ x :: items xs'
        end
    end in
  match v with
  | JsUndefined => "undefined"
  | JsNull => "null"
  | JsBool true => "true"
  | JsBool false => "false"
  | JsNumber n => JSON.number n
  | JsString s => s
  | JsArray xs => Str.join "," (items xs)
  | JsObject _ => "[object Object]"
  | JsError m _ => if Str.truthy m then "Error: " ++ m else "Error"
  end.

(** [e instanceof Error] *)
Definition instanceofError (v : JsValue) : bool :=
  match v with JsError _ _ => true | _ => false end.

(** [new Error(message)]: no enumerable own property. *)
Definition newError (message : string) : JsValue := JsError message [].

(** ** Outcomes of asynchronous work *)

(** How an awaited promise ends: fulfilled, rejected with a failure value,
    or not settled (the fuel of a loop ran out, or the outside world has
    no further answer). *)
Inductive Outcome (A : Type) : Type :=
| Returned (a : A)
| Thrown (e : JsValue)
| Pending.
Arguments Returned {A} a.
Arguments Thrown {A} e.
Arguments Pending {A}.

(** ** The retry wrapper ([withRetries], lines 16-35)

    The counter, the cap and the delays are integers in the source and are
    modelled in [Z]; the product of an integer delay and a power of two is
    exact in double precision as long as it does not overflow. *)

Definition RESOURCE_EXHAUSTED : string := "RESOURCE_EXHAUSTED".

(** [JSON.stringify(e).includes('RESOURCE_EXHAUSTED')].  [None]: the
    serialization is [undefined] and the method call itself throws. *)
Definition isRateLimitError (e : JsValue) : option bool :=
  match JSON.stringify e with
  | Some s => Some (Str.includes s RESOURCE_EXHAUSTED)
  | None => None
  end.

(** The [TypeError] of calling [.includes] on [undefined] (V8 wording). *)
Definition includesOfUndefined : JsValue :=
  newError "Cannot read properties of undefined (reading 'includes')".

(** What the wrapper itself does, in order.  [Attempt] marks one execution
    of [apiCall()]; the others are [console.warn], [setTimeout] and
    [console.error]. *)
Inductive RetryEvent : Type :=
| Attempt
| Warn (delay attempt maxRetries : Z)
| Sleep (delay : Z)
| LogError (e : JsValue).

Section WithRetries.
Context {W T : Type}.

(** [apiCall : () => Promise<T>].  Executing it may change the world
    [W] it talks to, so successive executions may end differently. *)
Variable apiCall : W -> Outcome T * W.
Variables maxRetries initialDelay : Z.

(** The [while (true)] loop; [attempt] is the counter of line 17. *)
Fixpoint withRetries_loop (fuel : nat) (attempt : Z) (w : W)
  : Outcome T * W * list RetryEvent :=
  match fuel with
  | O => (Pending, w, [])
  | S fuel' =>
      match apiCall w with
      | (Returned v, w1) => (Returned v, w1, [Attempt])
      | (Pending, w1) => (Pending, w1, [Attempt])
      | (Thrown e, w1) =>
          let attempt := attempt + 1 in
          match isRateLimitError e with
          | None => (Thrown includesOfUndefined, w1, [Attempt])
          | Some isRateLimit =>
              if isRateLimit && (attempt <? maxRetries) then
                let delay := initialDelay * 2 ^ (attempt - 1) in
                let '(r, w2, tr) := withRetries_loop fuel' attempt w1 in
                (r, w2, Attempt :: Warn delay attempt maxRetries :: Sleep delay :: tr)
              else (Thrown e, w1, [Attempt; LogError e])
          end
      end
  end.

(** The wrapper as called: the counter starts at 0.  The loop makes at
    most [max 1 maxRetries] iterations (lemma [withRetries_loop_fuel]),
    so this fuel never runs out. *)
Definition withRetries (w : W) : Outcome T * W * list RetryEvent :=
  withRetries_loop (Z.to_nat (Z.max 1 maxRetries)) 0 w.

(** The world after [k] executions of [apiCall], and the outcome of
    execution number [k], counted from 1. *)
Fixpoint worldAfter (k : nat) (w : W) : W :=
  match k with
  | O => w
  | S k' => worldAfter k' (snd (apiCall w))
  end.

Definition outcomeOfAttempt (k : nat) (w : W) : Outcome T :=
  fst (apiCall (worldAfter (Nat.pred k) w)).

End WithRetries.

(** Default parameters: [maxRetries = 3], [initialDelay = 2000]. *)
Definition withRetriesDefault {W T} (apiCall : W -> Outcome T * W) :=
  withRetries apiCall 3 2000.

(** Observations on a trace. *)
Definition attempts (tr : list RetryEvent) : nat :=
  List.length (filter (fun ev => match ev with Attempt => true | _ => false end) tr).

Fixpoint delays (tr : list RetryEvent) : list Z :=
  match tr with
  | [] => []
  | Sleep d :: tr' => d :: delays tr'
  | _ :: tr' => delays tr'
  end.

(** The failure carries the rate-limit marker: the test of line 23 holds. *)
Definition RateLimited (e : JsValue) : Prop := isRateLimitError e = Some true.

(** The attempt numbers [from + 1, ..., from + count]. *)
Fixpoint attemptNumbers (from : Z) (count : nat) : list Z :=
  match count with
  | O => []
  | S count' => (from + 1) :: attemptNumbers (from + 1) count'
  end.

(** What the loop does around a failed attempt number [k] that it retries
    (lines 20-28). *)
Definition retryBlock (maxRetries initialDelay k : Z) : list RetryEvent :=
  [ Attempt;
    Warn (initialDelay * 2 ^ (k - 1)) k maxRetries;
    Sleep (initialDelay * 2 ^ (k - 1)) ].

(** ** Failure classification (catch blocks, lines 104-116 and 273-289) *)

(** The categories the specification names; in the source each is one
    branch of the [if] chain that picks the text shown to the user. *)
Inductive Category : Type :=
| QuotaExceeded
| ContentPolicyViolation
| MissingResult
| Unexpected.

Definition VIDEO_URI_MISSING : string := "VIDEO_URI_MISSING".

(** Script stage, lines 106-110: [e.message] of an [Error] (else the empty
    string) and [JSON.stringify(e)], joined by a space; [join] prints an
    [undefined] element as the empty string. *)
Definition combinedErrorMessage (e : JsValue) : string :=
  Str.join " "
    [ match e with JsError m _ => m | _ => "" end;
      match JSON.stringify e with Some s => s | None => "" end ].

(** Script stage, lines 112-116: two branches. *)
Definition scriptCategoryOf (combined : string) : Category :=
  if Str.includes combined "quota" || Str.includes combined RESOURCE_EXHAUSTED
  then QuotaExceeded
  else Unexpected.

Definition scriptErrorCopy (c : Category) : string :=
  match c with
  | QuotaExceeded =>
      "You've exceeded your API quota. Please check your plan and billing details, or or try again later."
  | _ => "Failed to generate script. Please try again."
  end.

Definition classifyScriptFailure (e : JsValue) : Category :=
  scriptCategoryOf (combinedErrorMessage e).

(** Video stage, lines 278-279:
    [(e instanceof Error ? e : new Error(String(e))).message]. *)
Definition errorInstMessage (e : JsValue) : string :=
  match e with
  | JsError m _ => m
  | _ => String_ e
  end.

(** Video stage, lines 281-289: four branches, tried in this order. *)
Definition videoCategoryOf (errorMessage : string) : Category :=
  if Str.includes errorMessage "quota" || Str.includes errorMessage RESOURCE_EXHAUSTED
  then QuotaExceeded
  else if Str.includes errorMessage VIDEO_URI_MISSING
  then MissingResult
  else if Str.includes (Str.toLowerCase errorMessage) "sensitive"
          || Str.includes (Str.toLowerCase errorMessage) "policy"
          || Str.includes (Str.toLowerCase errorMessage) "responsible ai"
  then ContentPolicyViolation
  else Unexpected.

Definition videoErrorCopy (c : Category) (errorMessage : string) : string :=
  match c with
  | QuotaExceeded =>
      "You've exceeded your API quota for video generation. Please check your plan and billing details, or try again later."
  | MissingResult =>
      "Video generation finished, but no video was created. This often happens due to content policy violations. Please try adjusting your script or image and resubmitting."
  | ContentPolicyViolation =>
      "The prompt was rejected due to content policies. Please revise your script to align with safety guidelines and try again. (Details: "
        ++ errorMessage ++ ")"
  | Unexpected =>
      "Failed to generate video due to an unexpected error. Please try again. (Details: "
        ++ errorMessage ++ ")"
  end.

Definition classifyVideoFailure (e : JsValue) : Category :=
  videoCategoryOf (errorInstMessage e).

(** Following the specification's words (section 4.2), for comparison with
    the two classifiers of the source: one classifier for both stages, on
    the concatenation of message and serialized form, every marker tested
    without regard to case. *)
Definition spec_classify (e : JsValue) : Category :=
  let text := Str.toLowerCase (combinedErrorMessage e) in
  if Str.includes text "quota" || Str.includes text (Str.toLowerCase RESOURCE_EXHAUSTED)
  then QuotaExceeded
  else if Str.includes text (Str.toLowerCase VIDEO_URI_MISSING)
  then MissingResult
  else if Str.includes text "sensitive" || Str.includes text "policy"
          || Str.includes text "responsible ai"
  then ContentPolicyViolation
  else Unexpected.

(** ** The pipeline state (the [useState] cells, lines 71-83) *)

Record Image : Type := { base64 : string; mimeType : string }.

Module Loading.
(** The busy flags [isLoading]. *)
Record t : Type := { script : bool; video : bool; audio : bool }.
Inductive Key : Type := Script | Video | Audio.

(** [{ ...prev, key: b }] *)
Definition with_ (k : Key) (b : bool) (prev : t) : t :=
  match k with
  | Script => {| script := b; video := video prev; audio := audio prev |}
  | Video => {| script := script prev; video := b; audio := audio prev |}
  | Audio => {| script := script prev; video := video prev; audio := b |}
  end.
End Loading.

Record State : Type := {
  topic : string;
  script : string;
  image : option Image;
  videoUrl : string;
  audioUrl : string;
  selectedVoice : string;
  currentStep : Z;
  isLoading : Loading.t;
  videoLoadingMessage : string;
  error : string;
  audioError : string;
  videoGenerationFailed : bool
}.

(** The arguments of the [useState] calls. *)
Definition initialState : State := {|
  topic := "";
  script := "";
  image := None;
  videoUrl := "";
  audioUrl := "";
  selectedVoice := "female";
  currentStep := 1;
  isLoading := {| Loading.script := false; Loading.video := false; Loading.audio := false |};
  videoLoadingMessage := "";
  error := "";
  audioError := "";
  videoGenerationFailed := false
|}.

(** One call of a setter.  [SetIsLoadingKey k b] is
    [setIsLoading(prev => ({ ...prev, k: b }))] and [StepBack] is
    [setCurrentStep(prev => prev - 1)]; the others pass a value. *)
Inductive Update : Type :=
| SetTopic (v : string)
| SetScript (v : string)
| SetImage (v : option Image)
| SetVideoUrl (v : string)
| SetAudioUrl (v : string)
| SetSelectedVoice (v : string)
| SetCurrentStep (v : Z)
| StepBack
| SetIsLoading (v : Loading.t)
| SetIsLoadingKey (k : Loading.Key) (b : bool)
| SetVideoLoadingMessage (v : string)
| SetError (v : string)
| SetAudioError (v : string)
| SetVideoGenerationFailed (v : bool).

Definition applyUpdate (u : Update) (s : State) : State :=
  let '{| topic := t; script := sc; image := im; videoUrl := vu; audioUrl := au;
          selectedVoice := sv; currentStep := cs; isLoading := il;
          videoLoadingMessage := vm; error := er; audioError := ae;
          videoGenerationFailed := vf |} := s in
  match u with
  | SetTopic v => Build_State v sc im vu au sv cs il vm er ae vf
  | SetScript v => Build_State t v im vu au sv cs il vm er ae vf
  | SetImage v => Build_State t sc v vu au sv cs il vm er ae vf
  | SetVideoUrl v => Build_State t sc im v au sv cs il vm er ae vf
  | SetAudioUrl v => Build_State t sc im vu v sv cs il vm er ae vf
  | SetSelectedVoice v => Build_State t sc im vu au v cs il vm er ae vf
  | SetCurrentStep v => Build_State t sc im vu au sv v il vm er ae vf
  | StepBack => Build_State t sc im vu au sv (cs - 1) il vm er ae vf
  | SetIsLoading v => Build_State t sc im vu au sv cs v vm er ae vf
  | SetIsLoadingKey k b => Build_State t sc im vu au sv cs (Loading.with_ k b il) vm er ae vf
  | SetVideoLoadingMessage v => Build_State t sc im vu au sv cs il v er ae vf
  | SetError v => Build_State t sc im vu au sv cs il vm v ae vf
  | SetAudioError v => Build_State t sc im vu au sv cs il vm er v vf
  | SetVideoGenerationFailed v => Build_State t sc im vu au sv cs il vm er ae v
  end.

(** ** The video-generation service as the code reads it

    The SDK is an external package; the records below have the fields the
    source reads (lines 239-252), an absent optional field being [None]. *)

Module Op.
(** [operation.error], read through [.message]. *)
Record Error : Type := { message : option string }.
Record Video : Type := { uri : option string }.
Record GeneratedVideo : Type := { video : option Video }.
Record Response : Type := { generatedVideos : option (list GeneratedVideo) }.

(** The operation handle; an absent [done] is falsy. *)
Record t : Type := {
  done : bool;
  error : option Error;
  response : option Response
}.

(** [operation.response?.generatedVideos?.[0]?.video?.uri] (line 252) *)
Definition firstVideoUri (operation : t) : option string :=
  match response operation with
  | None => None
  | Some r =>
      match generatedVideos r with
      | None | Some [] => None
      | Some (gv :: _) =>
          match video gv with
          | None => None
          | Some v => uri v
          end
      end
  end.
End Op.

(** What [fetch] gives: a rejection, or a response of which the code reads
    [ok], [statusText] and, from [json()], [errorBody?.error?.message]
    ([json = None]: the body does not parse). *)
Record HttpResponse : Type := {
  ok : bool;
  statusText : string;
  json : option (option string)
}.

Inductive HttpReply : Type :=
| FetchRejects (e : JsValue)
| FetchResponds (r : HttpResponse).

(** The answers of the outside world, consumed in order: of the script
    and video SDK calls and of [fetch]; [Math.random] and
    [URL.createObjectURL] as functions of how often they were called. *)
Record Env : Type := {
  contentReplies : list (Outcome string);
  videoReplies : list (Outcome Op.t);
  httpReplies : list HttpReply;
  random : nat -> Q;
  draws : nat;
  objectUrl : nat -> string;
  blobs : nat
}.

Inductive Request : Type :=
| GenerateContent (contents : string)
| GenerateVideos (prompt imageBytes mime : string)
| GetVideosOperation (operation : Op.t).

(** Everything a handler does that can be observed, in program order. *)
Inductive Event : Type :=
| EvSet (u : Update)
| EvRequest (r : Request)
| EvFetch (url : string)
| EvTimeout (ms : Z)
| EvRetryWarn (delay attempt maxRetries : Z)
| EvConsoleError (label : string) (e : JsValue)
| EvOperationError (err : Op.Error)
| EvUriMissing (operation : Op.t)
| EvParseWarn
| EvSetInterval (ms : Z)
| EvClearInterval
| EvSpeechCancel.

Record Store : Type := { ui : State; env : Env; log : list Event }.

(** ** Handlers: state, exceptions and pending promises *)

Definition Act (A : Type) : Type := Store -> Outcome A * Store.

Definition ret {A} (a : A) : Act A := fun s => (Returned a, s).
Definition throw {A} (e : JsValue) : Act A := fun s => (Thrown e, s).
Definition pending {A} : Act A := fun s => (Pending, s).

Definition bind {A B} (c : Act A) (k : A -> Act B) : Act B :=
  fun s =>
    match c s with
    | (Returned a, s1) => k a s1
    | (Thrown e, s1) => (Thrown e, s1)
    | (Pending, s1) => (Pending, s1)
    end.

Notation "x <- c1 ;; c2" := (bind c1 (fun x => c2))
  (at level 61, c1 at next level, right associativity).
Notation "c1 ;; c2" := (bind c1 (fun _ => c2))
  (at level 61, right associativity).

(** [try { body } catch (e) { handler } finally { fin }].  A pending body
    never reaches either block. *)
Definition tryCatchFinally {A} (body : Act A) (handler : JsValue -> Act A)
    (fin : Act unit) : Act A :=
  fun s =>
    match body s with
    | (Pending, s1) => (Pending, s1)
    | (Returned a, s1) => (fin ;; ret a) s1
    | (Thrown e, s1) =>
        match handler e s1 with
        | (Pending, s2) => (Pending, s2)
        | (Returned a, s2) => (fin ;; ret a) s2
        | (Thrown e', s2) => (fin ;; throw e') s2
        end
    end.

Definition emit (ev : Event) : Act unit :=
  fun s => (Returned tt, {| ui := ui s; env := env s; log := log s ++ [ev] |}).

(** A setter call: the update is applied and recorded. *)
Definition set (u : Update) : Act unit :=
  fun s => (Returned tt,
            {| ui := applyUpdate u (ui s); env := env s; log := log s ++ [EvSet u] |}).

(** [await new Promise(resolve => setTimeout(resolve, ms))].  The wait is
    recorded in the log; what other code does to the state while it lasts
    is the subject of [replay] below. *)
Definition sleep (ms : Z) : Act unit := emit (EvTimeout ms).

Definition withEnv (s : Store) (e : Env) : Store :=
  {| ui := ui s; env := e; log := log s |}.

(** The SDK calls answer with the next scripted reply; with none left the
    promise stays pending. *)
Definition sdkContent : Store -> Outcome string * Store :=
  fun s =>
    match contentReplies (env s) with
    | [] => (Pending, s)
    | r :: rest =>
        let e := env s in
        (r, withEnv s {| contentReplies := rest; videoReplies := videoReplies e;
                         httpReplies := httpReplies e; random := random e;
                         draws := draws e; objectUrl := objectUrl e; blobs := blobs e |})
    end.

Definition sdkVideo : Store -> Outcome Op.t * Store :=
  fun s =>
    match videoReplies (env s) with
    | [] => (Pending, s)
    | r :: rest =>
        let e := env s in
        (r, withEnv s {| contentReplies := contentReplies e; videoReplies := rest;
                         httpReplies := httpReplies e; random := random e;
                         draws := draws e; objectUrl := objectUrl e; blobs := blobs e |})
    end.

Definition retryEventOf (req : Request) (ev : RetryEvent) : Event :=
  match ev with
  | Attempt => EvRequest req
  | Warn d a m => EvRetryWarn d a m
  | Sleep d => EvTimeout d
  | LogError e =>
      EvConsoleError "API call failed after multiple retries or for a non-retriable error." e
  end.

(** [await withRetries(() => call)] with the default parameters; each
    execution of the call sends the request [req]. *)
Definition retrying {T} (req : Request) (call : Store -> Outcome T * Store) : Act T :=
  fun s =>
    let '(r, s1, tr) := withRetriesDefault call s in
    (r, {| ui := ui s1; env := env s1; log := log s1 ++ map (retryEventOf req) tr |}).

(** [await fetch(url)] *)
Definition fetch (url : string) : Act HttpResponse :=
  fun s =>
    let s0 := {| ui := ui s; env := env s; log := log s ++ [EvFetch url] |} in
    match httpReplies (env s) with
    | [] => (Pending, s0)
    | r :: rest =>
        let e := env s in
        let s1 := withEnv s0 {| contentReplies := contentReplies e;
                                videoReplies := videoReplies e; httpReplies := rest;
                                random := random e; draws := draws e;
                                objectUrl := objectUrl e; blobs := blobs e |} in
        match r with
        | FetchRejects x => (Thrown x, s1)
        | FetchResponds resp => (Returned resp, s1)
        end
    end.

(** [Math.random()] *)
Definition mathRandom : Act Q :=
  fun s =>
    let e := env s in
    (Returned (random e (draws e)),
     withEnv s {| contentReplies := contentReplies e; videoReplies := videoReplies e;
                  httpReplies := httpReplies e; random := random e;
                  draws := S (draws e); objectUrl := objectUrl e; blobs := blobs e |}).

(** [URL.createObjectURL(blob)]: a fresh URL; the bytes stay opaque. *)
Definition createObjectURL : Act string :=
  fun s =>
    let e := env s in
    (Returned (objectUrl e (blobs e)),
     withEnv s {| contentReplies := contentReplies e; videoReplies := videoReplies e;
                  httpReplies := httpReplies e; random := random e;
                  draws := draws e; objectUrl := objectUrl e; blobs := S (blobs e) |}).

(** The store a handler leaves behind. *)
Definition after {A} (a : Act A) (s : Store) : Store := snd (a s).

(** The URLs fetched so far, oldest first. *)
Fixpoint fetches (l : list Event) : list string :=
  match l with
  | [] => []
  | EvFetch url :: l' => url :: fetches l'
  | _ :: l' => fetches l'
  end.

(** An action leaves an observation [f] of the store as it was. *)
Definition Preserves {A X} (f : Store -> X) (a : Act A) : Prop :=
  forall s, f (after a s) = f s.

(** The log only grows: [l'] continues [l]. *)
Definition extends (l l' : list Event) : Prop := exists evs, l' = (l ++ evs)%list.

Definition Grows {A} (a : Act A) : Prop :=
  forall s, extends (log s) (log (after a s)).

(** What the polling phase never touches: the whole React state, the
    pending [fetch] answers and the fetches made. *)
Definition pollView (s : Store) : State * list HttpReply * list string :=
  (ui s, httpReplies (env s), fetches (log s)).

(** What video generation works from. *)
Definition inputsView (s : Store) : string * option Image * Z :=
  (script (ui s), image (ui s), currentStep (ui s)).

(** ** The handlers of [App] *)

Module Trim.
Definition isWhiteSpace (c : ascii) : bool :=
  let n := nat_of_ascii c in
  (((9 <=? n) && (n <=? 13)) || (n =? 32) || (n =? 160))%nat.

Fixpoint trimStart (s : string) : string :=
  match s with
  | EmptyString => EmptyString
  | String c s' => if isWhiteSpace c then trimStart s' else s
  end.

Fixpoint trimEnd (s : string) : string :=
  match s with
  | EmptyString => EmptyString
  | String c s' =>
      match trimEnd s' with
      | EmptyString => if isWhiteSpace c then EmptyString else String c EmptyString
      | r => String c r
      end
  end.

(** [s.trim()] *)
Definition trim (s : string) : string := trimEnd (trimStart s).
End Trim.

(** [window.speechSynthesis] as the handlers use it (lines 124-146 and
    309).  Below, [synthesis : option (list Speech.Voice)] is [None] when
    [window.speechSynthesis] is undefined, and otherwise the list that
    [getVoices()] returns. *)
Module Speech.
(** A [SpeechSynthesisVoice], of which the code reads [name] and [lang]. *)
Record Voice : Type := { name : string; lang : string }.

(** The filter of line 137:
    [voice.lang.startsWith('en') && voice.name.toLowerCase().includes(selectedVoice)]. *)
Definition matches (selectedVoice : string) (voice : Voice) : bool :=
  String.prefix "en" (lang voice)
  && Str.includes (Str.toLowerCase (name voice)) selectedVoice.

(** What the handler leaves the browser to do. [Speak text voice]:
    [speechSynthesis.speak] of an utterance of [text]; [voice = None] is the
    browser's default voice, after the warning of line 143. *)
Inductive Preview : Type :=
| Unsupported
| AwaitVoices
| Speak (text : string) (voice : option Voice).
End Speech.

(** The [TypeError] of calling [.cancel] on [undefined] (V8 wording). *)
Definition cancelOfUndefined : JsValue :=
  newError "Cannot read properties of undefined (reading 'cancel')".

Section Handlers.

(** [process.env.API_KEY], checked to be present at start-up (lines 5-12). *)
Variable API_KEY : string.

(** *** Agent 1: script generation (lines 89-120) *)

Definition scriptPrompt (topic : string) : string :=
  "Generate a short, engaging YouTube video script about " ++ JSON.dquote ++ topic
    ++ JSON.dquote
    ++ ". The script should be around 150 words and include brief scene descriptions or visual cues.".

Definition generateScript : Act unit :=
  fun s0 =>
    let topic := topic (ui s0) in
    (if negb (Str.truthy (Trim.trim topic)) then
       set (SetError "Please enter a topic.")
     else
       set (SetError "") ;;
       set (SetIsLoadingKey Loading.Script true) ;;
       tryCatchFinally
         (text <- retrying (GenerateContent (scriptPrompt topic)) sdkContent ;;
          set (SetScript text) ;;
          set (SetCurrentStep 2))
         (fun e =>
            emit (EvConsoleError "" e) ;;
            set (SetError (scriptErrorCopy (classifyScriptFailure e))))
         (set (SetIsLoadingKey Loading.Script false))) s0.

(** *** Simulated audio generation (lines 150-178) *)

Definition audioBusyMessage : string :=
  "The audio generation server is currently busy. Please reload or try again in a moment.".

Definition handleGenerateAudio : Act unit :=
  fun s0 =>
    (if negb (Str.truthy (script (ui s0))) then ret tt
     else
       set (SetIsLoadingKey Loading.Audio true) ;;
       set (SetAudioError "") ;;
       sleep 3000 ;;
       r <- mathRandom ;;
       if negb (Qle_bool r (1 # 2)) then
         set (SetAudioError audioBusyMessage) ;;
         set (SetIsLoadingKey Loading.Audio false)
       else
         url <- createObjectURL ;;
         set (SetAudioUrl url) ;;
         set (SetIsLoadingKey Loading.Audio false) ;;
         set (SetCurrentStep 3)) s0.

(** *** Skipping audio (lines 181-184) *)
Definition skipAudioGeneration : Act unit :=
  set (SetAudioUrl "") ;;
  set (SetCurrentStep 3).

(** *** Image upload and clear (lines 187-207); the decoding of the file
    into its base64 text and media type is the browser's. *)
Definition handleImageUpload (file : option Image) : Act unit :=
  match file with
  | Some img => set (SetImage (Some img)) ;; set (SetCurrentStep 4)
  | None => ret tt
  end.

Definition handleClearImage : Act unit :=
  set (SetImage None) ;;
  set (SetCurrentStep 3).

(** *** Agent 3: video generation (lines 210-295) *)

Definition loadingMessages : list string :=
  [ "Warming up the cameras..."; "Setting the scene...";
    "Action! Filming the main shots..."; "Adding special effects...";
    "Editing the footage..."; "Rendering the final cut..."; "Almost there..." ].

(** The polling loop, lines 239-242.  The interval started on line 226
    rotates [videoLoadingMessage] every 8000 ms between the awaits; its
    callback is driven by the clock and is not modelled, [EvSetInterval] and
    [EvClearInterval] mark where it starts and stops. *)
Fixpoint pollUntilDone (fuel : nat) (operation : Op.t) : Act Op.t :=
  if Op.done operation then ret operation
  else
    match fuel with
    | O => pending
    | S fuel' =>
        sleep 30000 ;;
        operation' <- retrying (GetVideosOperation operation) sdkVideo ;;
        pollUntilDone fuel' operation'
    end.

(** Submission and polling, lines 232-242. *)
Definition awaitOperation (fuel : nat) (script : string) (image : Image) : Act Op.t :=
  operation <- retrying (GenerateVideos script (base64 image) (mimeType image)) sdkVideo ;;
  pollUntilDone fuel operation.

(** What is done with the finished operation, lines 244-272. *)
Definition collectVideo (operation : Op.t) : Act unit :=
  emit EvClearInterval ;;
  match Op.error operation with
  | Some err =>
      emit (EvOperationError err) ;;
      throw (newError
               match Op.message err with
               | Some m => if Str.truthy m then m
                           else "The video generation service returned an error."
               | None => "The video generation service returned an error."
               end)
  | None =>
      match Op.firstVideoUri operation with
      | Some (String c u as uri) =>
          videoResponse <- fetch (uri ++ "&key=" ++ API_KEY) ;;
          if negb (ok videoResponse) then
            errorDetail <-
              match json videoResponse with
              | None => emit EvParseWarn ;; ret (statusText videoResponse)
              | Some (Some m) =>
                  ret (if Str.truthy m then m else statusText videoResponse)
              | Some None => ret (statusText videoResponse)
              end ;;
            throw (newError ("Failed to fetch video: " ++ errorDetail))
          else
            url <- createObjectURL ;;
            set (SetVideoUrl url)
      | _ =>
          emit (EvUriMissing operation) ;;
          throw (newError VIDEO_URI_MISSING)
      end
  end.

(** The [catch] block, lines 273-290. *)
Definition videoCatch (e : JsValue) : Act unit :=
  emit (EvConsoleError "" e) ;;
  set (SetVideoGenerationFailed true) ;;
  let errorMessage := errorInstMessage e in
  set (SetError (videoErrorCopy (videoCategoryOf errorMessage) errorMessage)).

(** The [try] block, lines 232-272. *)
Definition videoTry (fuel : nat) (script : string) (image : Image) : Act unit :=
  operation <- awaitOperation fuel script image ;;
  collectVideo operation.

Definition generateVideo (fuel : nat) : Act unit :=
  fun s0 =>
    let script := script (ui s0) in
    match (if Str.truthy script then image (ui s0) else None) with
    | None => set (SetError "Script and image are required to generate a video.") s0
    | Some image =>
        (set (SetError "") ;;
         set (SetVideoGenerationFailed false) ;;
         set (SetIsLoadingKey Loading.Video true) ;;
         set (SetCurrentStep 5) ;;
         set (SetVideoLoadingMessage (nth 0 loadingMessages "")) ;;
         emit (EvSetInterval 8000) ;;
         tryCatchFinally
           (videoTry fuel script image)
           videoCatch
           (set (SetIsLoadingKey Loading.Video false) ;;
            emit EvClearInterval)) s0
    end.

(** *** Restart (lines 297-310).  The last statement,
    [window.speechSynthesis.cancel()], is not guarded: where
    [window.speechSynthesis] is undefined it throws, after the setter calls. *)
Definition resetApp (synthesis : option (list Speech.Voice)) : Act unit :=
  set (SetTopic "") ;;
  set (SetScript "") ;;
  set (SetImage None) ;;
  set (SetVideoUrl "") ;;
  set (SetAudioUrl "") ;;
  set (SetSelectedVoice "female") ;;
  set (SetAudioError "") ;;
  set (SetVideoGenerationFailed false) ;;
  set (SetCurrentStep 1) ;;
  set (SetError "") ;;
  set (SetIsLoading {| Loading.script := false; Loading.video := false;
                       Loading.audio := false |}) ;;
  match synthesis with
  | Some _ => emit EvSpeechCancel
  | None => throw cancelOfUndefined
  end.

(** *** Back (lines 312-314) *)
Definition handleGoBack : Act unit := set StepBack.

(** *** Resubmit (lines 316-318) *)
Definition handleResubmitVideo (fuel : nat) : Act unit := generateVideo fuel.

End Handlers.

(** ** Concrete runs used as examples *)

Module Examples.

(** A service that answers every call with a fresh rate-limit failure:
    the world counts the calls. *)
Definition alwaysLimited (w : nat) : Outcome unit * nat :=
  (Thrown (JsObject [("status", JsString "RESOURCE_EXHAUSTED");
                     ("n", JsNumber (Z.of_nat w))]), S w).

(** The error the SDK raises on HTTP 429: an [Error] subclass whose
    message quotes the response body and whose enumerable properties are
    [name] and the numeric [status]. *)
Definition apiError429 : JsValue :=
  JsError "got status: 429 Too Many Requests. RESOURCE_EXHAUSTED"
    [("name", JsString "ApiError"); ("status", JsNumber 429)].

Definition alwaysApiError (w : nat) : Outcome unit * nat :=
  (Thrown apiError429, S w).

(** A service whose promise is rejected with no value at all
    ([Promise.reject()], [throw undefined]). *)
Definition rejectsWithUndefined (w : nat) : Outcome unit * nat :=
  (Thrown JsUndefined, S w).

Definition pendingOp : Op.t :=
  {| Op.done := false; Op.error := None; Op.response := None |}.

(** Finished, no error, an empty list of generated videos. *)
Definition emptyOp : Op.t :=
  {| Op.done := true; Op.error := None;
     Op.response := Some {| Op.generatedVideos := Some [] |} |}.

Definition world : Env := {|
  contentReplies := [Returned "A short script."];
  videoReplies := [Thrown (JsObject [("status", JsString "RESOURCE_EXHAUSTED")]);
                   Returned pendingOp; Returned pendingOp; Returned emptyOp;
                   Returned emptyOp];
  httpReplies := [];
  random := fun n => match n with O => (1 # 4)%Q | _ => (3 # 4)%Q end;
  draws := 0;
  objectUrl := fun n => "blob:" ++ NilZero.string_of_uint (Nat.to_uint n);
  blobs := 0
|}.

Definition picture : Image := {| base64 := "iVBORw0KGgo="; mimeType := "image/png" |}.

Definition start : Store :=
  {| ui := applyUpdate (SetTopic "The history of coffee") initialState;
     env := world; log := [] |}.

(** Stage 3 with a generated voice-over: script generated, audio
    generated (the first draw is 0.25). *)
Definition atStage3 : Store := after handleGenerateAudio (after generateScript start).

(** Stage 5 after a video attempt that ended without a video. *)
Definition afterFailedVideo : Store :=
  after (generateVideo "k" 5) (after (handleImageUpload (Some picture)) atStage3).

End Examples.

(** ** The rest of [App] *)

(** *** Voice preview (lines 123-147) *)

(** With an empty list of voices the handler registers itself for
    [onvoiceschanged] and returns. *)
Definition handleTextToSpeech (synthesis : option (list Speech.Voice))
  : Act Speech.Preview :=
  fun s0 =>
    let script := script (ui s0) in
    let selectedVoice := selectedVoice (ui s0) in
    match (if Str.truthy script then synthesis else None) with
    | None =>
        (set (SetError
                "Speech synthesis is not supported in this browser or no script is available.") ;;
         ret Speech.Unsupported) s0
    | Some voices =>
        (emit EvSpeechCancel ;;
         match voices with
         | [] => ret Speech.AwaitVoices
         | _ =>
             let genderVoices := filter (Speech.matches selectedVoice) voices in
             ret (Speech.Speak script (hd_error genderVoices))
         end) s0
    end.

(** *** The uploaded file as a data URL (line 192) *)

Module DataUrl.
(** [s.split(sep)] for a separator of one code unit. *)
Fixpoint split (sep : ascii) (s : string) : list string :=
  match s with
  | EmptyString => [EmptyString]
  | String c s' =>
      if Ascii.eqb c sep then EmptyString :: split sep s'
      else match split sep s' with
           | part :: parts => String c part :: parts
           | [] => [String c EmptyString]
           end
  end.

(** [(reader.result as string).split(',')[1]]; [None] is [undefined]. *)
Definition payload (result : string) : option string :=
  nth_error (split "," result) 1.

Fixpoint free (sep : ascii) (s : string) : bool :=
  match s with
  | EmptyString => true
  | String c s' => negb (Ascii.eqb c sep) && free sep s'
  end.
End DataUrl.

(** *** What is rendered (lines 320-444) *)

Module View.
(** A [StepCard]: [isActive] and [isComplete]. *)
Record Card : Type := { active : bool; complete : bool }.

(** Every expression of the JSX that depends on the state.  The file
    chooser does not: it is part of [Page] below. *)
Record t : Type := {
  restart : bool;
  banner : option string;
  cards : list Card;
  topicValue : string;
  scriptBusy : bool;
  generateScriptDisabled : bool;
  scriptValue : string;
  femaleChecked : bool;
  maleChecked : bool;
  audioBusy : bool;
  audioErrorShown : option string;
  preview : option Image;
  generateVideoDisabled : bool;
  videoBusy : bool;
  loader : option string;
  resubmit : option string;
  player : option (string * option string)
}.

(** [cond && element] *)
Definition shown {A} (cond : bool) (a : A) : option A :=
  if cond then Some a else None.

Definition card (currentStep k : Z) : Card :=
  {| active := currentStep =? k; complete := k <? currentStep |}.

Definition render (st : State) : t := {|
  restart := 1 <? currentStep st;
  banner := shown (Str.truthy (error st) && negb (videoGenerationFailed st)) (error st);
  cards := [ card (currentStep st) 1; card (currentStep st) 2; card (currentStep st) 3;
             card (currentStep st) 4;
             {| active := currentStep st =? 5; complete := false |} ];
  topicValue := topic st;
  scriptBusy := Loading.script (isLoading st);
  generateScriptDisabled := Loading.script (isLoading st) || negb (Str.truthy (topic st));
  scriptValue := script st;
  femaleChecked := String.eqb (selectedVoice st) "female";
  maleChecked := String.eqb (selectedVoice st) "male";
  audioBusy := Loading.audio (isLoading st);
  audioErrorShown := shown (Str.truthy (audioError st)) (audioError st);
  preview := image st;
  generateVideoDisabled :=
    match image st with None => true | Some _ => false end
    || Loading.video (isLoading st);
  videoBusy := Loading.video (isLoading st);
  loader := shown (Loading.video (isLoading st)) (videoLoadingMessage st);
  resubmit :=
    shown (videoGenerationFailed st && negb (Loading.video (isLoading st)))
      (if Str.truthy (error st) then error st
       else "An unexpected error occurred. Please try resubmitting.");
  player :=
    shown (Str.truthy (videoUrl st) && negb (videoGenerationFailed st))
      (videoUrl st, shown (Str.truthy (audioUrl st)) (audioUrl st))
|}.
End View.

(** *** What a user can do *)

(** The event handlers bound in the JSX: the three [onChange] of lines 334,
    348 and 354-356, and the buttons. *)
Inductive Action : Type :=
| TypeTopic (v : string)
| EditScript (v : string)
| ChooseVoice (female : bool)
| ClickGenerateScript
| ClickPreviewVoice (synthesis : option (list Speech.Voice))
| ClickGenerateAudio
| ClickSkipAudio
| ChooseFile (file : option Image)
| ClickClearImage
| ClickGenerateVideo (fuel : nat)
| ClickResubmit (fuel : nat)
| ClickBack
| ClickRestart (synthesis : option (list Speech.Voice)).

Definition perform (API_KEY : string) (a : Action) : Act unit :=
  match a with
  | TypeTopic v => set (SetTopic v)
  | EditScript v => set (SetScript v)
  | ChooseVoice female => set (SetSelectedVoice (if female then "female" else "male"))
  | ClickGenerateScript => generateScript
  | ClickPreviewVoice synthesis => _ <- handleTextToSpeech synthesis ;; ret tt
  | ClickGenerateAudio => handleGenerateAudio
  | ClickSkipAudio => skipAudioGeneration
  | ChooseFile file => handleImageUpload file
  | ClickClearImage => handleClearImage
  | ClickGenerateVideo fuel => generateVideo API_KEY fuel
  | ClickResubmit fuel => handleResubmitVideo API_KEY fuel
  | ClickBack => handleGoBack
  | ClickRestart synthesis => resetApp synthesis
  end.

(** The stores reached from [s] by a sequence of actions in which Back is
    used only above stage 1 (step card 1 has no Back button). *)
Inductive Reaches (API_KEY : string) (s : Store) : Store -> Prop :=
| Reaches_here : Reaches API_KEY s s
| Reaches_step (s1 : Store) (a : Action) :
    Reaches API_KEY s s1 ->
    (a = ClickBack -> 1 < currentStep (ui s1)) ->
    Reaches API_KEY s (after (perform API_KEY a) s1).

(** *** Observations used below *)

(** The sum of the delays of a trace. *)
Definition totalDelay (tr : list RetryEvent) : Z := fold_right Z.add 0 (delays tr).

(** A string of white space only (the empty string included). *)
Fixpoint blank (s : string) : bool :=
  match s with
  | EmptyString => true
  | String c s' => Trim.isWhiteSpace c && blank s'
  end.

(** The cells that video generation leaves alone. *)
Definition besideVideo (st : State)
  : string * string * option Image * string * string * string * (bool * bool) :=
  (topic st, script st, image st, audioUrl st, selectedVoice st, audioError st,
   (Loading.script (isLoading st), Loading.audio (isLoading st))).

(** The cells that script generation leaves alone. *)
Definition besideScript (st : State)
  : string * option Image * string * string * string * string * string * bool
    * (bool * bool) :=
  (topic st, image st, videoUrl st, audioUrl st, selectedVoice st,
   videoLoadingMessage st, audioError st, videoGenerationFailed st,
   (Loading.video (isLoading st), Loading.audio (isLoading st))).

Module MoreExamples.

(** Two rate-limit failures, then an answer. *)
Definition thirdTimeLucky (w : nat) : Outcome Z * nat :=
  if (w <? 2)%nat
  then (Thrown (JsObject [("status", JsString "RESOURCE_EXHAUSTED")]), S w)
  else (Returned 42, S w).

Definition videoAt (u : string) : Op.t :=
  {| Op.done := true; Op.error := None;
     Op.response :=
       Some {| Op.generatedVideos :=
                 Some [ {| Op.video := Some {| Op.uri := Some u |} |} ] |} |}.

Definition failedOp : Op.t :=
  {| Op.done := true;
     Op.error := Some {| Op.message := Some "The prompt violates the usage policy." |};
     Op.response := None |}.

Definition worldWith (videos : list (Outcome Op.t)) (http : list HttpReply) : Env := {|
  contentReplies := [];
  videoReplies := videos;
  httpReplies := http;
  random := fun _ => (1 # 4)%Q;
  draws := 0;
  objectUrl := fun n => "blob:" ++ NilZero.string_of_uint (Nat.to_uint n);
  blobs := 0
|}.

(** Stage 4: script and image present, nothing generated yet. *)
Definition readyFor (e : Env) : Store :=
  {| ui := applyUpdate (SetCurrentStep 4)
             (applyUpdate (SetImage (Some Examples.picture))
                (applyUpdate (SetScript "A short script.") initialState));
     env := e; log := [] |}.

Definition english (n : string) : Speech.Voice := {| Speech.name := n; Speech.lang := "en-GB" |}.

End MoreExamples.

(** The environment with other pending answers of the video service. *)
Definition withVideoReplies (e : Env) (rs : list (Outcome Op.t)) : Env :=
  {| contentReplies := contentReplies e; videoReplies := rs;
     httpReplies := httpReplies e; random := random e; draws := draws e;
     objectUrl := objectUrl e; blobs := blobs e |}.

Definition withContentReplies (e : Env) (rs : list (Outcome string)) : Env :=
  {| contentReplies := rs; videoReplies := videoReplies e;
     httpReplies := httpReplies e; random := random e; draws := draws e;
     objectUrl := objectUrl e; blobs := blobs e |}.

(** What the log shows of one poll: the wait, then the status request with
    the handle held so far. *)
Definition pollEvents (held : Op.t) : list Event :=
  [EvTimeout 30000; EvRequest (GetVideosOperation held)].

(** The stage pointer is one of the five stages. *)
Definition staged (st : State) : Prop := 1 <= currentStep st <= 5.

(** From stage 4 on there is an image. *)
Definition pictured (st : State) : Prop := 4 <= currentStep st -> image st <> None.

(** Lines 215-229 of [generateVideo]: what is set before the [try]. *)
Definition videoPrelude : Act unit :=
  set (SetError "") ;;
  set (SetVideoGenerationFailed false) ;;
  set (SetIsLoadingKey Loading.Video true) ;;
  set (SetCurrentStep 5) ;;
  set (SetVideoLoadingMessage (nth 0 loadingMessages "")) ;;
  emit (EvSetInterval 8000).

(** The [finally] block of [generateVideo], lines 291-294. *)
Definition videoFinally : Act unit :=
  set (SetIsLoadingKey Loading.Video false) ;;
  emit EvClearInterval.

(** Lines 94-95 of [generateScript], its [try] block (lines 98-103) and
    its [catch] block (lines 104-116). *)
Definition scriptPrelude : Act unit :=
  set (SetError "") ;;
  set (SetIsLoadingKey Loading.Script true).

Definition scriptTry (topic : string) : Act unit :=
  text <- retrying (GenerateContent (scriptPrompt topic)) sdkContent ;;
  set (SetScript text) ;;
  set (SetCurrentStep 2).

Definition scriptCatch (e : JsValue) : Act unit :=
  emit (EvConsoleError "" e) ;;
  set (SetError (scriptErrorCopy (classifyScriptFailure e))).

(** *** The file chooser (lines 382-388)

    The [input] of type file is not controlled by the state: the file it
    holds is state of the document, set by the user's choice (which then
    calls [handleImageUpload]) and emptied by the code in one place only,
    [handleClearImage] through [fileInputRef] (lines 204-206; the step cards
    are always mounted, so the ref is set).  [resetApp] does not touch it. *)
Definition fileInputAfter (a : Action) (held : option Image) : option Image :=
  match a with
  | ChooseFile file => file
  | ClickClearImage => None
  | _ => held
  end.

(** The page: what is rendered from the state, and the file the chooser
    holds. *)
Record Page : Type := { view : View.t; fileInput : option Image }.

Definition page (st : State) (held : option Image) : Page :=
  {| view := View.render st; fileInput := held |}.

(** ** Handlers that overlap

    A handler runs without interruption up to its next [await]; while it
    waits (for a timer, an SDK call or [fetch]) the browser runs whatever
    else is due: other event handlers, the continuations of earlier runs,
    the callback of the message interval.  A handler, run as an [Act], gives
    the run in which nothing else happens; its log records the waits, so
    the state at the end of a run during which other code did run can be
    read off the log.  What a run does is the same in both cases: a handler
    reads the state of the render that created it (the [s0] of the
    definitions above), never the state at the time it resumes, and its
    functional updates ([SetIsLoadingKey], [StepBack]) are applied by
    [applyUpdate] to the state they find.  The answers a run receives while
    others run as well are some answers of the outside world, over which the
    statements below quantify. *)

(** The events at which a run waits. *)
Definition awaited (ev : Event) : bool :=
  match ev with
  | EvRequest _ | EvFetch _ | EvTimeout _ => true
  | _ => false
  end.

(** The setter calls among the events of a run. *)
Fixpoint writes (evs : list Event) : list Update :=
  match evs with
  | [] => []
  | EvSet u :: evs' => u :: writes evs'
  | _ :: evs' => writes evs'
  end.

(** [replay others k evs st]: the React state once the events [evs] of a
    run have happened, starting in [st], where [others j] is what other code
    did to the state during wait number [j] of the run and [k] numbers the
    next wait. *)
Fixpoint replay (others : nat -> State -> State) (k : nat) (evs : list Event)
    (st : State) : State :=
  match evs with
  | [] => st
  | EvSet u :: evs' => replay others k evs' (applyUpdate u st)
  | ev :: evs' =>
      if awaited ev then replay others (S k) evs' (others k st)
      else replay others k evs' st
  end.

(** What a run of [a] from [s] adds to the log. *)
Definition eventsOf {A} (a : Act A) (s : Store) : list Event :=
  skipn (List.length (log s)) (log (after a s)).

(** The React state at the end of a run of [a] from [s] during whose waits
    [others] happened. *)
Definition overlapped {A} (others : nat -> State -> State) (a : Act A) (s : Store)
  : State :=
  replay others 0 (eventsOf a s) (ui s).

(** Nothing else happens during the waits. *)
Definition undisturbed : nat -> State -> State := fun _ st => st.

(** An action that calls no setter. *)
Definition Silent {A} (a : Act A) : Prop :=
  forall s, exists evs, log (after a s) = (log s ++ evs)%list /\ writes evs = [].

(** What [generateVideo] logs before its [try] block (lines 215-229), and
    after the last wait of a run that ends with a video (lines 266, 292-293)
    or in the [catch] block (lines 274-293). *)
Definition videoPreludeEvents : list Event :=
  [ EvSet (SetError "");
    EvSet (SetVideoGenerationFailed false);
    EvSet (SetIsLoadingKey Loading.Video true);
    EvSet (SetCurrentStep 5);
    EvSet (SetVideoLoadingMessage "Warming up the cameras...");
    EvSetInterval 8000 ].

Definition videoSuccessEnd (url : string) : list Event :=
  [ EvSet (SetVideoUrl url);
    EvSet (SetIsLoadingKey Loading.Video false);
    EvClearInterval ].

Definition videoFailureEnd (e : JsValue) : list Event :=
  [ EvConsoleError "" e;
    EvSet (SetVideoGenerationFailed true);
    EvSet (SetError (videoErrorCopy (classifyVideoFailure e) (errorInstMessage e)));
    EvSet (SetIsLoadingKey Loading.Video false);
    EvClearInterval ].

(** The same for [generateScript]: lines 94-95, 102-103 and 118, 105-118. *)
Definition scriptPreludeEvents : list Event :=
  [ EvSet (SetError ""); EvSet (SetIsLoadingKey Loading.Script true) ].

Definition scriptSuccessEnd (text : string) : list Event :=
  [ EvSet (SetScript text);
    EvSet (SetCurrentStep 2);
    EvSet (SetIsLoadingKey Loading.Script false) ].

Definition scriptFailureEnd (e : JsValue) : list Event :=
  [ EvConsoleError "" e;
    EvSet (SetError (scriptErrorCopy (classifyScriptFailure e)));
    EvSet (SetIsLoadingKey Loading.Script false) ].

(** A setter call that leaves script, image and topic alone and puts the
    stage pointer nowhere but at 5. *)
Definition keepsInputs (u : Update) : Prop :=
  match u with
  | SetScript _ | SetImage _ | StepBack | SetTopic _ => False
  | SetCurrentStep v => v = 5
  | _ => True
  end.

Module Overlaps.

(** A failure value that carries the rate-limit marker. *)
Definition limited : JsValue := JsObject [("status", JsString "RESOURCE_EXHAUSTED")].

(** The script service rejects twice for the rate limit, then answers. *)
Definition afterTwoLimits : Store :=
  {| ui := applyUpdate (SetTopic "The history of coffee") initialState;
     env := withContentReplies Examples.world
              [Thrown limited; Thrown limited; Returned "A short script."];
     log := [] |}.

(** What the user does during the waits of a run: [acts] lists, by wait,
    the action performed during it, if any (the services have no answer
    for these actions: what matters here is what they do at once). *)
Definition meanwhile (acts : list (option Action)) : nat -> State -> State :=
  fun k st =>
    match nth_error acts k with
    | Some (Some a) =>
        ui (after (perform "k" a)
              {| ui := st; env := MoreExamples.worldWith [] []; log := [] |})
    | _ => st
    end.

(** An earlier video run, left behind by Restart, ends without a video
    during wait number [n] of the run at hand: the setter calls of its
    [catch] and [finally] blocks happen then. *)
Definition orphanFails (n : nat) : nat -> State -> State :=
  fun k st =>
    if (k =? n)%nat
    then fold_left (fun x u => applyUpdate u x)
           (writes (videoFailureEnd (newError VIDEO_URI_MISSING))) st
    else st.

(** Stage 4, one poll, then a finished operation without a video. *)
Definition polledOnce : Store :=
  MoreExamples.readyFor
    (MoreExamples.worldWith [Returned Examples.pendingOp; Returned Examples.emptyOp] []).

(** Stage 4, one poll, then a video that is fetched. *)
Definition polledOnceWithVideo : Store :=
  MoreExamples.readyFor
    (MoreExamples.worldWith
       [Returned Examples.pendingOp;
        Returned (MoreExamples.videoAt "https://videos.example/v1?alt=media")]
       [FetchResponds {| ok := true; statusText := "OK"; json := None |}]).

End Overlaps.

(** Running the straight-line part of a handler on a given store. *)
Ltac run_act :=
  unfold after, bind, set, sleep, emit, mathRandom, createObjectURL, ret, throw,
    pending, withEnv;
  simpl.

(** Case analysis on every substring test of the goal; [decides] and
    [refutes] turn a test that is true or false into the occurrence it
    stands for. *)
Ltac by_markers decides refutes :=
  repeat match goal with
         | |- context [Str.includes ?a ?b] =>
             let H := fresh "M" in
             destruct (Str.includes a b) eqn:H;
             [apply decides in H | apply refutes in H]
         end;
  simpl; intuition (discriminate || congruence).

(** * Properties *)

(** ** Substring tests *)

Module StrFacts.
Import Str.

Lemma prefix_app (n s : string) :
  String.prefix n s = true <-> exists after, s = n ++ after.
Proof.
  revert s; induction n as [|a n IH]; intros s.
  - split; [intros _; exists s; reflexivity | intros _; destruct s; reflexivity].
  - destruct s as [|b s]; simpl.
    + split; [discriminate | intros [after H]; discriminate].
    + destruct (ascii_dec a b) as [->|Hab].
      * rewrite IH. split; intros [after H]; exists after.
        -- now rewrite H.
        -- now injection H.
      * split; [discriminate | intros [after H]; injection H; congruence].
Qed.

Lemma includes_unfold (s needle : string) :
  includes s needle =
  if String.prefix needle s then true
  else match s with
       | EmptyString => false
       | String _ s' => includes s' needle
       end.
Proof. destruct s; reflexivity. Qed.

(** [includes] decides [Occurs]. *)
Lemma includes_Occurs (s needle : string) :
  includes s needle = true <-> Occurs needle s.
Proof.
  split.
  - induction s as [|c s IH]; rewrite includes_unfold;
      destruct (String.prefix needle _) eqn:P.
    + intros _. apply prefix_app in P as [after ->]. now exists "", after.
    + discriminate.
    + intros _. apply prefix_app in P as [after ->]. now exists "", after.
    + intros H. destruct (IH H) as (b & a & ->). now exists (String c b), a.
  - intros (b & a & ->). induction b as [|c b IH]; rewrite includes_unfold.
    + replace (String.prefix needle ("" ++ needle ++ a)) with true; [reflexivity|].
      symmetry. apply prefix_app. now exists a.
    + destruct (String.prefix needle _); [reflexivity | exact IH].
Qed.

Lemma includes_false (s needle : string) :
  includes s needle = false <-> ~ Occurs needle s.
Proof.
  rewrite <- includes_Occurs. destruct (includes s needle); intuition congruence.
Qed.

Lemma app_assoc_s (a b c : string) : (a ++ b) ++ c = a ++ b ++ c.
Proof. induction a; simpl; congruence. Qed.

(** An occurrence in a string is an occurrence in every extension of it. *)
Lemma Occurs_app_l (needle s t : string) : Occurs needle s -> Occurs needle (s ++ t).
Proof.
  intros (b & a & ->). exists b, (a ++ t). now rewrite !app_assoc_s.
Qed.

End StrFacts.

(** ** The retry wrapper *)

Section RetryFacts.
Context {W T : Type}.
Variable apiCall : W -> Outcome T * W.
Variables maxRetries initialDelay : Z.

Local Notation "'loop'" := (withRetries_loop apiCall maxRetries initialDelay).

(** Fuel above the number of attempts still allowed changes nothing. *)
Lemma withRetries_loop_fuel (fuel1 fuel2 : nat) (attempt : Z) (w : W) :
  (Z.to_nat (Z.max 1 (maxRetries - attempt)) <= fuel1)%nat ->
  (Z.to_nat (Z.max 1 (maxRetries - attempt)) <= fuel2)%nat ->
  loop fuel1 attempt w = loop fuel2 attempt w.
Proof.
  revert fuel2 attempt w.
  induction fuel1 as [|f1 IH]; intros [|f2] attempt w H1 H2; try lia.
  simpl. destruct (apiCall w) as [[v|e|] w1]; try reflexivity.
  destruct (isRateLimitError e) as [[|]|]; simpl; try reflexivity.
  destruct (attempt + 1 <? maxRetries) eqn:L; [|reflexivity].
  apply Z.ltb_lt in L.
  rewrite (IH f2); [reflexivity | lia | lia].
Qed.

(** A failure for which the marker test is false ends the loop, whatever
    the counter. *)
Lemma loop_not_limited (fuel : nat) (attempt : Z) (w : W) (e : JsValue) :
  fst (apiCall w) = Thrown e ->
  isRateLimitError e = Some false ->
  loop (S fuel) attempt w = (Thrown e, snd (apiCall w), [Attempt; LogError e]).
Proof.
  intros Hc Hr. simpl. destruct (apiCall w) as [r w1]. simpl in Hc. subst r.
  now rewrite Hr.
Qed.

(** With any fuel at all, the first thing the loop does is one attempt. *)
Lemma loop_first_attempt (fuel : nat) (attempt : Z) (w : W) :
  exists rest, snd (loop (S fuel) attempt w) = Attempt :: rest.
Proof.
  simpl. destruct (apiCall w) as [[v|e|] w1]; try (eexists; reflexivity).
  destruct (isRateLimitError e) as [[|]|]; simpl; try (eexists; reflexivity).
  destruct (attempt + 1 <? maxRetries); [|eexists; reflexivity].
  destruct (withRetries_loop _ _ _ fuel _ w1) as [[r w2] tr]. eexists; reflexivity.
Qed.

Lemma outcomeOfAttempt_shift (j : nat) (w : W) :
  (1 <= j)%nat ->
  outcomeOfAttempt apiCall (S j) w = outcomeOfAttempt apiCall j (snd (apiCall w)).
Proof. destruct j as [|j]; [lia | reflexivity]. Qed.

(** Rate-limit failures on the next [k] attempts, [k] attempts left before
    the cap: the loop makes exactly these [k] attempts, sleeps after each
    but the last, and throws what the last one raised. *)
Lemma loop_all_limited (k a fuel : nat) (w : W) :
  (1 <= k)%nat -> (k <= fuel)%nat ->
  maxRetries = Z.of_nat (a + k) ->
  (forall j, (1 <= j <= k)%nat ->
             exists e, outcomeOfAttempt apiCall j w = Thrown e /\ RateLimited e) ->
  exists e,
    outcomeOfAttempt apiCall k w = Thrown e /\
    loop fuel (Z.of_nat a) w =
      (Thrown e, worldAfter apiCall k w,
       (flat_map (retryBlock maxRetries initialDelay) (attemptNumbers (Z.of_nat a) (k - 1))
          ++ [Attempt; LogError e])%list).
Proof.
  revert a fuel w. induction k as [|k IH]; intros a fuel w Hk Hf Hmax Hall; [lia|].
  destruct fuel as [|fuel]; [lia|].
  destruct (Hall 1%nat ltac:(lia)) as (e1 & He1 & Hl1).
  unfold outcomeOfAttempt in He1. simpl in He1.
  destruct k as [|k].
  - exists e1. split; [exact He1|]. simpl.
    destruct (apiCall w) as [r w1]. simpl in He1. subst r.
    rewrite Hl1. simpl.
    replace (Z.of_nat a + 1 <? maxRetries) with false; [reflexivity|].
    symmetry. apply Z.ltb_ge. lia.
  - destruct (IH (S a) fuel (snd (apiCall w))) as (e & He & Hrun); try lia.
    + intros j Hj. rewrite <- outcomeOfAttempt_shift by lia. apply Hall. lia.
    + exists e. split.
      * rewrite outcomeOfAttempt_shift by lia. exact He.
      * change (worldAfter apiCall (S (S k)) w)
          with (worldAfter apiCall (S k) (snd (apiCall w))).
        replace (S (S k) - 1)%nat with (S (S k - 1)) by lia.
        cbn [withRetries_loop attemptNumbers flat_map].
        destruct (apiCall w) as [r w1]. simpl in He1. subst r.
        rewrite Hl1. cbn [andb].
        replace (Z.of_nat a + 1 <? maxRetries) with true
          by (symmetry; apply Z.ltb_lt; lia).
        simpl snd in Hrun. simpl snd.
        replace (Z.of_nat a + 1) with (Z.of_nat (S a)) by lia.
        rewrite Hrun. reflexivity.
Qed.

(** The shape of every trace of the loop: the attempts it retried, each
    with its warning and its delay, then an end without a delay. *)
Lemma loop_trace_shape (fuel : nat) (attempt : Z) (w : W) :
  exists m final,
    snd (loop fuel attempt w) =
      (flat_map (retryBlock maxRetries initialDelay) (attemptNumbers attempt m) ++ final)%list
    /\ delays final = [] /\ (attempts final <= 1)%nat.
Proof.
  revert attempt w. induction fuel as [|fuel IH]; intros attempt w.
  - exists 0%nat, []. repeat split; unfold attempts; simpl; try reflexivity; lia.
  - simpl. destruct (apiCall w) as [[v|e|] w1].
    + exists 0%nat, [Attempt]. repeat split; unfold attempts; simpl; try reflexivity; lia.
    + destruct (isRateLimitError e) as [[|]|]; simpl.
      * destruct (attempt + 1 <? maxRetries).
        -- destruct (IH (attempt + 1) w1) as (m & final & Htr & Hd & Ha).
           destruct (withRetries_loop _ _ _ fuel _ w1) as [[r w2] tr]. simpl in Htr.
           exists (S m), final. subst tr. repeat split; assumption.
        -- exists 0%nat, [Attempt; LogError e]. repeat split; unfold attempts; simpl; try reflexivity; lia.
      * exists 0%nat, [Attempt; LogError e]. repeat split; unfold attempts; simpl; try reflexivity; lia.
      * exists 0%nat, [Attempt]. repeat split; unfold attempts; simpl; try reflexivity; lia.
    + exists 0%nat, [Attempt]. repeat split; unfold attempts; simpl; try reflexivity; lia.
Qed.

(** What no execution of the work changes, the loop does not change. *)
Lemma loop_world_invariant {Y : Type} (g : W -> Y) :
  (forall w, g (snd (apiCall w)) = g w) ->
  forall fuel attempt w, g (snd (fst (loop fuel attempt w))) = g w.
Proof.
  intros Hg. induction fuel as [|fuel IH]; intros attempt w; [reflexivity|].
  simpl. specialize (Hg w). destruct (apiCall w) as [[v|e|] w1]; simpl in *; try assumption.
  destruct (isRateLimitError e) as [[|]|]; simpl; try assumption.
  destruct (attempt + 1 <? maxRetries); simpl; [|assumption].
  specialize (IH (attempt + 1) w1).
  destruct (withRetries_loop _ _ _ fuel _ w1) as [[r w2] tr]. simpl in *. congruence.
Qed.

End RetryFacts.

Lemma delays_app (a b : list RetryEvent) :
  delays (a ++ b)%list = (delays a ++ delays b)%list.
Proof.
  induction a as [|ev a IH]; [reflexivity|]. destruct ev; simpl; now rewrite IH.
Qed.

Lemma attempts_app (a b : list RetryEvent) :
  attempts (a ++ b)%list = (attempts a + attempts b)%nat.
Proof. unfold attempts. now rewrite filter_app, length_app. Qed.

Lemma delays_blocks (maxRetries initialDelay : Z) (ks : list Z) :
  delays (flat_map (retryBlock maxRetries initialDelay) ks)
  = map (fun k => initialDelay * 2 ^ (k - 1)) ks.
Proof. induction ks as [|k ks IH]; simpl; congruence. Qed.

Lemma attempts_blocks (maxRetries initialDelay : Z) (ks : list Z) :
  attempts (flat_map (retryBlock maxRetries initialDelay) ks) = List.length ks.
Proof.
  induction ks as [|k ks IH]; [reflexivity|].
  change (flat_map _ (k :: ks)) with
    (retryBlock maxRetries initialDelay k
       ++ flat_map (retryBlock maxRetries initialDelay) ks)%list.
  rewrite attempts_app, IH. reflexivity.
Qed.

Lemma attemptNumbers_length (from : Z) (count : nat) :
  List.length (attemptNumbers from count) = count.
Proof. revert from; induction count; intros; simpl; congruence. Qed.

Lemma attemptNumbers_nth (count : nat) (from : Z) (i : nat) (k : Z) :
  nth_error (attemptNumbers from count) i = Some k -> k = from + 1 + Z.of_nat i.
Proof.
  revert from i. induction count as [|c IH]; intros from [|i]; simpl; try discriminate.
  - intros [= <-]. lia.
  - intros H. apply IH in H. lia.
Qed.

Lemma isRateLimitError_Occurs (e : JsValue) :
  RateLimited e <->
  exists s, JSON.stringify e = Some s /\ Str.Occurs RESOURCE_EXHAUSTED s.
Proof.
  unfold RateLimited, isRateLimitError. destruct (JSON.stringify e) as [s|].
  - split.
    + intros [= H]. exists s. split; [reflexivity|]. now apply StrFacts.includes_Occurs.
    + intros (s' & [= <-] & H). apply StrFacts.includes_Occurs in H. now rewrite H.
  - split; [discriminate | intros (s & H & _); discriminate].
Qed.

(** C4. For every attempt cap [N >= 1]: if each of the attempts 1..N of the
    wrapped work fails with a failure carrying the rate-limit marker, the
    wrapper executes the work exactly [N] times (the world is the one after
    [N] executions, the trace counts [N] attempts) and throws the failure
    raised by attempt number [N].  This holds for the loop with any fuel of
    at least [N] and for the wrapper as called. *)
Theorem retry_exhausts_cap {W T : Type} (apiCall : W -> Outcome T * W)
    (N initialDelay : Z) (fuel : nat) (w : W) :
  1 <= N ->
  (Z.to_nat N <= fuel)%nat ->
  (forall j, (1 <= j <= Z.to_nat N)%nat ->
             exists e, outcomeOfAttempt apiCall j w = Thrown e /\ RateLimited e) ->
  exists e tr,
    outcomeOfAttempt apiCall (Z.to_nat N) w = Thrown e
    /\ withRetries_loop apiCall N initialDelay fuel 0 w
       = (Thrown e, worldAfter apiCall (Z.to_nat N) w, tr)
    /\ withRetries apiCall N initialDelay w
       = (Thrown e, worldAfter apiCall (Z.to_nat N) w, tr)
    /\ attempts tr = Z.to_nat N.
Proof.
  intros HN Hfuel Hall.
  destruct (loop_all_limited apiCall N initialDelay (Z.to_nat N) 0 fuel w)
    as (e & He & Hrun); try lia; try assumption.
  exists e. eexists. split; [exact He|]. split; [exact Hrun|]. split.
  - unfold withRetries. rewrite <- Hrun. apply withRetries_loop_fuel; lia.
  - rewrite attempts_app, attempts_blocks, attemptNumbers_length.
    unfold attempts. simpl. lia.
Qed.

(** With cap 3, a service that always answers with a rate-limit failure is
    called three times. *)
Lemma retry_exhausts_cap_witness :
  exists e tr,
    outcomeOfAttempt Examples.alwaysLimited 3 0%nat = Thrown e
    /\ withRetries_loop Examples.alwaysLimited 3 2000 3 0 0%nat = (Thrown e, 3%nat, tr)
    /\ withRetries Examples.alwaysLimited 3 2000 0%nat = (Thrown e, 3%nat, tr)
    /\ attempts tr = 3%nat.
Proof.
  apply (retry_exhausts_cap Examples.alwaysLimited 3 2000 3 0%nat).
  - lia.
  - simpl. lia.
  - intros j Hj. simpl in Hj.
    destruct j as [|[|[|[|j]]]]; try lia; eexists; split; reflexivity.
Defined.

(** What the wrapper does with a rejection whose serialization is
    [undefined]: the marker test of line 23 itself throws, and the wrapper
    throws that [TypeError] in place of the failure it caught, without the
    [console.error] of line 30. *)
Lemma undefined_failure_is_replaced {W T : Type}
    (apiCall : W -> Outcome T * W) (maxRetries initialDelay : Z) (w : W) :
  fst (apiCall w) = Thrown JsUndefined ->
  withRetries apiCall maxRetries initialDelay w
    = (Thrown includesOfUndefined, snd (apiCall w), [Attempt]).
Proof.
  intros Hc. unfold withRetries.
  destruct (Z.to_nat (Z.max 1 maxRetries)) as [|fuel] eqn:F; [lia|].
  simpl. destruct (apiCall w) as [r w1]. simpl in Hc. now subst r.
Qed.




(** C6. In every run of the wrapper the trace consists of the retried
    attempts 1, 2, ..., m, each followed by its warning and by a delay of
    exactly [initialDelay * 2^(k-1)] after attempt [k], and of an end
    without delay; so the delay between failed attempt [k] and attempt
    [k+1] is [initialDelay * 2^(k-1)], a function of [k] alone and without
    an upper bound.  When every attempt up to the cap is rate-limited, all
    of the delays for [k = 1 .. maxRetries - 1] occur; with the default
    parameters they are 2000 and 4000. *)
Theorem backoff_delay_doubles {W T : Type} (apiCall : W -> Outcome T * W)
    (maxRetries initialDelay : Z) (fuel : nat) (w : W) :
  let tr := snd (withRetries_loop apiCall maxRetries initialDelay fuel 0 w) in
  (exists m final,
      tr = (flat_map (retryBlock maxRetries initialDelay) (attemptNumbers 0 m) ++ final)%list
      /\ delays final = [])
  /\ (forall (k : nat) (delay : Z),
        (1 <= k)%nat ->
        nth_error (delays tr) (k - 1) = Some delay ->
        delay = initialDelay * 2 ^ (Z.of_nat k - 1))
  /\ (1 <= maxRetries ->
      (Z.to_nat maxRetries <= fuel)%nat ->
      (forall j, (1 <= j <= Z.to_nat maxRetries)%nat ->
                 exists e, outcomeOfAttempt apiCall j w = Thrown e /\ RateLimited e) ->
      delays tr = map (fun k => initialDelay * 2 ^ (k - 1))
                      (attemptNumbers 0 (Z.to_nat maxRetries - 1)))
  /\ ((forall j, (1 <= j <= 3)%nat ->
                 exists e, outcomeOfAttempt apiCall j w = Thrown e /\ RateLimited e) ->
      delays (snd (withRetriesDefault apiCall w)) = [2000; 4000]).
Proof.
  intros tr. subst tr.
  destruct (loop_trace_shape apiCall maxRetries initialDelay fuel 0 w)
    as (m & final & Htr & Hd & _).
  split; [|split; [|split]].
  - exists m, final. now split.
  - intros k delay Hk Hnth. rewrite Htr, delays_app, delays_blocks, Hd, app_nil_r in Hnth.
    rewrite nth_error_map in Hnth.
    destruct (nth_error (attemptNumbers 0 m) (k - 1)) as [x|] eqn:Hx; [|discriminate].
    apply attemptNumbers_nth in Hx. injection Hnth as <-. f_equal. f_equal. lia.
  - intros HN Hfuel Hall.
    destruct (loop_all_limited apiCall maxRetries initialDelay (Z.to_nat maxRetries) 0 fuel w)
      as (e & _ & Hrun); try lia; try assumption.
    simpl Z.of_nat in Hrun. rewrite Hrun. simpl snd.
    rewrite delays_app, delays_blocks. simpl. now rewrite app_nil_r.
  - intros Hall. unfold withRetriesDefault, withRetries.
    destruct (loop_all_limited apiCall 3 2000 3 0 (Z.to_nat (Z.max 1 3)) w)
      as (e & _ & Hrun); try (simpl; lia); try assumption.
    simpl Z.of_nat in Hrun. rewrite Hrun. reflexivity.
Qed.

(** The default parameters against a service that is always rate-limited. *)
Lemma backoff_delay_doubles_witness :
  let tr := snd (withRetries_loop Examples.alwaysLimited 3 2000 3 0 0%nat) in
  (exists m final,
      tr = (flat_map (retryBlock 3 2000) (attemptNumbers 0 m) ++ final)%list
      /\ delays final = [])
  /\ (forall (k : nat) (delay : Z),
        (1 <= k)%nat ->
        nth_error (delays tr) (k - 1) = Some delay ->
        delay = 2000 * 2 ^ (Z.of_nat k - 1))
  /\ delays tr = [2000; 4000]
  /\ delays (snd (withRetriesDefault Examples.alwaysLimited 0%nat)) = [2000; 4000].
Proof.
  assert (Hall : forall j, (1 <= j <= 3)%nat ->
            exists e, outcomeOfAttempt Examples.alwaysLimited j 0%nat = Thrown e
                      /\ RateLimited e).
  { intros j Hj. destruct j as [|[|[|[|j]]]]; try lia; eexists; split; reflexivity. }
  destruct (backoff_delay_doubles Examples.alwaysLimited 3 2000 3 0%nat)
    as (H1 & H2 & H3 & H4).
  split; [exact H1|]. split; [exact H2|]. split.
  - apply H3; [lia | simpl; lia | exact Hall].
  - apply H4. exact Hall.
Defined.



(** ** Restart, Back and the audio step *)

(** C2. Restart restores every cell of the state to its initial value
    except [videoLoadingMessage], which no setter call of [resetApp]
    touches: after a video attempt the text of the first loading message is
    still there, and the state after Restart differs from the initial
    state.  This is so with and without speech synthesis in the browser
    (without it the last statement of [resetApp] throws, after the setter
    calls). *)
Theorem resetApp_keeps_loading_message (synthesis : option (list Speech.Voice)) :
  (forall s : Store,
      ui (after (resetApp synthesis) s)
      = applyUpdate (SetVideoLoadingMessage (videoLoadingMessage (ui s))) initialState)
  /\ videoLoadingMessage (ui Examples.afterFailedVideo) = "Warming up the cameras..."
  /\ videoLoadingMessage (ui (after (resetApp synthesis) Examples.afterFailedVideo))
     = "Warming up the cameras..."
  /\ ui (after (resetApp synthesis) Examples.afterFailedVideo) <> initialState.
Proof.
  assert (Hall : forall s : Store,
             ui (after (resetApp synthesis) s)
             = applyUpdate (SetVideoLoadingMessage (videoLoadingMessage (ui s))) initialState).
  { intros [[] e l]. destruct synthesis; reflexivity. }
  split; [exact Hall|]. split; [reflexivity|]. rewrite Hall. split.
  - reflexivity.
  - intros H. apply (f_equal videoLoadingMessage) in H. vm_compute in H. discriminate H.
Qed.

(** C3, as stated, fails: at stage 3 with a generated voice-over, Back
    and then Continue without Audio returns to stage 3 with the audio
    artifact gone. *)
Lemma rewind_then_skip_drops_audio :
  currentStep (ui Examples.atStage3) = 3
  /\ audioUrl (ui Examples.atStage3) = "blob:0"
  /\ currentStep (ui (after skipAudioGeneration (after handleGoBack Examples.atStage3))) = 3
  /\ audioUrl (ui (after skipAudioGeneration (after handleGoBack Examples.atStage3))) = ""
  /\ audioUrl (ui (after skipAudioGeneration (after handleGoBack Examples.atStage3)))
     <> audioUrl (ui Examples.atStage3).
Proof. repeat split; try reflexivity. vm_compute. discriminate. Qed.

(** C3, amended. Back decrements the stage pointer by exactly one and
    changes no other field, nor the outside world.  Going back and
    returning to stage 3 leaves script, image and video as they were, on
    both ways forward (Continue without Audio, Generate Audio); the audio
    artifact is not kept: Continue without Audio empties it.  Going back
    and continuing without audio twice gives the same state as once. *)
Theorem rewind_keeps_all_but_audio (s : Store) :
  let back := after handleGoBack s in
  let skipped := after skipAudioGeneration back in
  let generated := after handleGenerateAudio back in
  ui back = {| topic := topic (ui s); script := script (ui s); image := image (ui s);
               videoUrl := videoUrl (ui s); audioUrl := audioUrl (ui s);
               selectedVoice := selectedVoice (ui s);
               currentStep := currentStep (ui s) - 1;
               isLoading := isLoading (ui s);
               videoLoadingMessage := videoLoadingMessage (ui s);
               error := error (ui s); audioError := audioError (ui s);
               videoGenerationFailed := videoGenerationFailed (ui s) |}
  /\ env back = env s
  /\ currentStep (ui skipped) = 3
  /\ script (ui skipped) = script (ui s)
  /\ image (ui skipped) = image (ui s)
  /\ videoUrl (ui skipped) = videoUrl (ui s)
  /\ audioUrl (ui skipped) = ""
  /\ script (ui generated) = script (ui s)
  /\ image (ui generated) = image (ui s)
  /\ videoUrl (ui generated) = videoUrl (ui s)
  /\ ui (after skipAudioGeneration (after handleGoBack skipped)) = ui skipped.
Proof.
  destruct s as [[t sc im vu au sv cs il vm er ae vf] e l].
  repeat split.
  all: unfold after, handleGenerateAudio; simpl.
  all: destruct (Str.truthy sc); simpl; try reflexivity.
  all: run_act.
  all: match goal with
       | |- context [Qle_bool ?a ?b] => destruct (Qle_bool a b); reflexivity
       end.
Qed.

(** C10. When the simulated audio generation fails (a script is present
    and the draw is above one half), the handler returns having changed
    two things only: [audioError] holds the server-busy text and the audio
    busy flag is false.  Stage pointer, script, the three artifacts, the
    other error and busy fields and the rest are as before.  For every
    state, the stage pointer changes only when a script is present and the
    draw is at most one half, and then it is 3. *)
Theorem audio_failure_is_atomic (s : Store) :
  Str.truthy (script (ui s)) = true ->
  Qle_bool (random (env s) (draws (env s))) (1 # 2) = false ->
  fst (handleGenerateAudio s) = Returned tt
  /\ ui (after handleGenerateAudio s)
     = {| topic := topic (ui s); script := script (ui s); image := image (ui s);
          videoUrl := videoUrl (ui s); audioUrl := audioUrl (ui s);
          selectedVoice := selectedVoice (ui s);
          currentStep := currentStep (ui s);
          isLoading := {| Loading.script := Loading.script (isLoading (ui s));
                          Loading.video := Loading.video (isLoading (ui s));
                          Loading.audio := false |};
          videoLoadingMessage := videoLoadingMessage (ui s);
          error := error (ui s);
          audioError := audioBusyMessage;
          videoGenerationFailed := videoGenerationFailed (ui s) |}
  /\ (forall s0 : Store,
        currentStep (ui (after handleGenerateAudio s0)) <> currentStep (ui s0) ->
        Str.truthy (script (ui s0)) = true
        /\ Qle_bool (random (env s0) (draws (env s0))) (1 # 2) = true
        /\ currentStep (ui (after handleGenerateAudio s0)) = 3)
  /\ (forall s0 : Store,
        Str.truthy (script (ui s0)) = true ->
        Qle_bool (random (env s0) (draws (env s0))) (1 # 2) = true ->
        currentStep (ui (after handleGenerateAudio s0)) = 3
        /\ audioUrl (ui (after handleGenerateAudio s0))
           = objectUrl (env s0) (blobs (env s0))).
Proof.
  intros Hs Hr. split; [|split; [|split]].
  - destruct s as [st e l]. unfold handleGenerateAudio. simpl in *. rewrite Hs.
    run_act. rewrite Hr. reflexivity.
  - destruct s as [[t sc im vu au sv cs [ls lv la] vm er ae vf] e l].
    unfold after, handleGenerateAudio. simpl in *. rewrite Hs. run_act. rewrite Hr.
    reflexivity.
  - intros [[t sc im vu au sv cs il vm er ae vf] e l].
    unfold after, handleGenerateAudio. simpl.
    destruct (Str.truthy sc); run_act; try (intros H; now elim H).
    destruct (Qle_bool (random e (draws e)) (1 # 2)); simpl;
      try (intros H; now elim H); auto.
  - intros [[t sc im vu au sv cs il vm er ae vf] e l].
    unfold after, handleGenerateAudio. simpl. intros -> Hq. run_act. rewrite Hq.
    split; reflexivity.
Qed.

(** At stage 3 of the example run the next draw is 0.75: the audio step
    fails, and stage pointer and voice-over stay. *)
Lemma audio_failure_is_atomic_witness :
  fst (handleGenerateAudio Examples.atStage3) = Returned tt
  /\ audioError (ui (after handleGenerateAudio Examples.atStage3)) = audioBusyMessage
  /\ currentStep (ui (after handleGenerateAudio Examples.atStage3)) = 3
  /\ audioUrl (ui (after handleGenerateAudio Examples.atStage3)) = "blob:0".
Proof.
  destruct (audio_failure_is_atomic Examples.atStage3 eq_refl eq_refl) as (H1 & H2 & _).
  split; [exact H1|]. rewrite H2. repeat split.
Defined.

(** ** Frames of the handlers *)

Lemma extends_refl (l : list Event) : extends l l.
Proof. exists []. now rewrite app_nil_r. Qed.

Lemma extends_trans (a b c : list Event) : extends a b -> extends b c -> extends a c.
Proof. intros [x ->] [y ->]. exists (x ++ y)%list. now rewrite app_assoc. Qed.

Lemma extends_snoc (l : list Event) (ev : Event) : extends l (l ++ [ev]).
Proof. now exists [ev]. Qed.

Lemma fetches_app (a b : list Event) :
  fetches (a ++ b)%list = (fetches a ++ fetches b)%list.
Proof.
  induction a as [|ev a IH]; [reflexivity|]. destruct ev; simpl; now rewrite IH.
Qed.

Lemma fetches_retry (req : Request) (tr : list RetryEvent) :
  fetches (map (retryEventOf req) tr) = [].
Proof. induction tr as [|ev tr IH]; [reflexivity|]. destruct ev; exact IH. Qed.

Lemma bind_Returned {A B} (c : Act A) (k : A -> Act B) (s s' : Store) (b : B) :
  bind c k s = (Returned b, s') ->
  exists a s1, c s = (Returned a, s1) /\ k a s1 = (Returned b, s').
Proof.
  unfold bind. destruct (c s) as [[a|e|] s1]; try discriminate. intros H. now exists a, s1.
Qed.

Section Frames.
Context {X : Type} (f : Store -> X).

Lemma Preserves_ret {A} (a : A) : Preserves f (ret a).
Proof. intros s. reflexivity. Qed.

Lemma Preserves_throw {A} (e : JsValue) : Preserves f (@throw A e).
Proof. intros s. reflexivity. Qed.

Lemma Preserves_pending {A} : Preserves f (@pending A).
Proof. intros s. reflexivity. Qed.

Lemma Preserves_bind {A B} (c : Act A) (k : A -> Act B) :
  Preserves f c -> (forall a, Preserves f (k a)) -> Preserves f (bind c k).
Proof.
  intros Hc Hk s. unfold after, bind. specialize (Hc s). unfold after in Hc.
  destruct (c s) as [[a|e|] s1]; simpl in *; try assumption.
  rewrite <- Hc. apply Hk.
Qed.

Lemma Preserves_tryCatchFinally {A} (body : Act A) (handler : JsValue -> Act A)
    (fin : Act unit) :
  Preserves f body -> (forall e, Preserves f (handler e)) -> Preserves f fin ->
  Preserves f (tryCatchFinally body handler fin).
Proof.
  intros Hb Hh Hf s. unfold after, tryCatchFinally. specialize (Hb s). unfold after in Hb.
  destruct (body s) as [[a|e|] s1]; simpl in *; try assumption.
  - rewrite <- Hb. apply (Preserves_bind fin (fun _ => ret a)); [assumption|].
    intros _. apply Preserves_ret.
  - rewrite <- Hb. specialize (Hh e s1). unfold after in Hh.
    destruct (handler e s1) as [[a|e'|] s2]; simpl in *; try assumption; rewrite <- Hh.
    + apply (Preserves_bind fin (fun _ => ret a)); [assumption|].
      intros _. apply Preserves_ret.
    + apply (Preserves_bind fin (fun _ => throw e')); [assumption|].
      intros _. apply Preserves_throw.
Qed.

Lemma Preserves_retrying {T} (req : Request) (call : Store -> Outcome T * Store) :
  (forall s, f (snd (call s)) = f s) ->
  (forall s tr, f {| ui := ui s; env := env s;
                     log := log s ++ map (retryEventOf req) tr |} = f s) ->
  Preserves f (retrying req call).
Proof.
  intros Hcall Hlog s. unfold after, retrying, withRetriesDefault, withRetries.
  pose proof (loop_world_invariant call 3 2000 f Hcall (Z.to_nat (Z.max 1 3)) 0 s) as H.
  destruct (withRetries_loop call 3 2000 _ 0 s) as [[r s1] tr]. simpl in *.
  now rewrite Hlog.
Qed.

End Frames.

Lemma Grows_ret {A} (a : A) : Grows (ret a).
Proof. intros s. apply extends_refl. Qed.

Lemma Grows_throw {A} (e : JsValue) : Grows (@throw A e).
Proof. intros s. apply extends_refl. Qed.

Lemma Grows_pending {A} : Grows (@pending A).
Proof. intros s. apply extends_refl. Qed.

Lemma Grows_emit (ev : Event) : Grows (emit ev).
Proof. intros s. apply extends_snoc. Qed.

Lemma Grows_set (u : Update) : Grows (set u).
Proof. intros s. apply extends_snoc. Qed.

(** The log after the first part of a sequence is continued by the rest. *)
Lemma bind_prefix {A B} (c : Act A) (k : A -> Act B) (s : Store) :
  (forall a, Grows (k a)) ->
  extends (log (after c s)) (log (after (bind c k) s)).
Proof.
  intros Hk. unfold after, bind.
  destruct (c s) as [[a|e|] s1]; simpl; try apply extends_refl. apply Hk.
Qed.

Lemma Grows_bind {A B} (c : Act A) (k : A -> Act B) :
  Grows c -> (forall a, Grows (k a)) -> Grows (bind c k).
Proof.
  intros Hc Hk s. eapply extends_trans; [apply Hc | now apply bind_prefix].
Qed.

Lemma tryCatchFinally_prefix {A} (body : Act A) (handler : JsValue -> Act A)
    (fin : Act unit) (s : Store) :
  (forall e, Grows (handler e)) -> Grows fin ->
  extends (log (after body s)) (log (after (tryCatchFinally body handler fin) s)).
Proof.
  intros Hh Hf. unfold after, tryCatchFinally.
  destruct (body s) as [[a|e|] s1]; simpl; try apply extends_refl.
  - apply (Grows_bind fin (fun _ => ret a)); [assumption | intros; apply Grows_ret].
  - specialize (Hh e s1). unfold after in Hh.
    destruct (handler e s1) as [[a|e'|] s2]; simpl in *; try assumption.
    + eapply extends_trans; [exact Hh|].
      apply (Grows_bind fin (fun _ => ret a)); [assumption | intros; apply Grows_ret].
    + eapply extends_trans; [exact Hh|].
      apply (Grows_bind fin (fun _ => throw e')); [assumption | intros; apply Grows_throw].
Qed.

Lemma sdkVideo_log (s : Store) : log (snd (sdkVideo s)) = log s.
Proof. unfold sdkVideo. destruct (videoReplies (env s)); reflexivity. Qed.

Lemma Grows_retrying (req : Request) : Grows (retrying req sdkVideo).
Proof.
  intros s. unfold after, retrying, withRetriesDefault, withRetries.
  pose proof (loop_world_invariant sdkVideo 3 2000 log sdkVideo_log
                (Z.to_nat (Z.max 1 3)) 0 s) as H.
  destruct (withRetries_loop sdkVideo 3 2000 _ 0 s) as [[r s1] tr]. simpl in *.
  rewrite H. now eexists.
Qed.

(** The first thing a retried SDK call adds to the log is its request. *)
Lemma retrying_first_request (req : Request) (s : Store) :
  exists rest, log (after (retrying req sdkVideo) s) = (log s ++ EvRequest req :: rest)%list.
Proof.
  unfold after, retrying, withRetriesDefault, withRetries.
  pose proof (loop_world_invariant sdkVideo 3 2000 log sdkVideo_log
                (Z.to_nat (Z.max 1 3)) 0 s) as H.
  destruct (loop_first_attempt sdkVideo 3 2000 2 0 s) as [rest Hrest].
  change (Z.to_nat (Z.max 1 3)) with 3%nat in *.
  destruct (withRetries_loop sdkVideo 3 2000 3 0 s) as [[r s1] tr]. simpl in *.
  subst tr. rewrite H. now eexists.
Qed.

(** ** The polling phase and the video handler *)

Lemma pollView_sdkVideo (s : Store) : pollView (snd (sdkVideo s)) = pollView s.
Proof. unfold sdkVideo. destruct (videoReplies (env s)); reflexivity. Qed.

Lemma pollView_retry_log (req : Request) (s : Store) (tr : list RetryEvent) :
  pollView {| ui := ui s; env := env s; log := log s ++ map (retryEventOf req) tr |}
  = pollView s.
Proof.
  unfold pollView. simpl. now rewrite fetches_app, fetches_retry, app_nil_r.
Qed.

Lemma pollView_retrying (req : Request) : Preserves pollView (retrying req sdkVideo).
Proof.
  apply Preserves_retrying; [apply pollView_sdkVideo | apply pollView_retry_log].
Qed.

Lemma pollView_sleep (ms : Z) : Preserves pollView (sleep ms).
Proof.
  intros s. unfold pollView, after, sleep, emit. simpl.
  now rewrite fetches_app, app_nil_r.
Qed.

Lemma pollView_pollUntilDone (fuel : nat) (operation : Op.t) :
  Preserves pollView (pollUntilDone fuel operation).
Proof.
  revert operation. induction fuel as [|fuel IH]; intros operation; simpl;
    destruct (Op.done operation);
    try apply Preserves_ret; try apply Preserves_pending.
  apply Preserves_bind; [apply pollView_sleep | intros _].
  apply Preserves_bind; [apply pollView_retrying | exact IH].
Qed.

(** Submission and polling change neither the React state nor anything
    about [fetch]. *)
Lemma pollView_awaitOperation (fuel : nat) (script : string) (image : Image) :
  Preserves pollView (awaitOperation fuel script image).
Proof.
  apply Preserves_bind; [apply pollView_retrying | apply pollView_pollUntilDone].
Qed.

(** The loop is left only with a finished operation. *)
Lemma pollUntilDone_done (fuel : nat) (operation result : Op.t) (s s' : Store) :
  pollUntilDone fuel operation s = (Returned result, s') -> Op.done result = true.
Proof.
  revert operation s. induction fuel as [|fuel IH]; intros operation s; simpl;
    destruct (Op.done operation) eqn:D.
  - intros [= <- _]. exact D.
  - discriminate.
  - intros [= <- _]. exact D.
  - intros H. apply bind_Returned in H as (_ & s1 & _ & H).
    apply bind_Returned in H as (op1 & s2 & _ & H). now apply IH in H.
Qed.

Lemma retrying_resolves (req : Request) (operation : Op.t) (rest : list (Outcome Op.t))
    (s : Store) :
  videoReplies (env s) = Returned operation :: rest ->
  exists s1, retrying req sdkVideo s = (Returned operation, s1)
             /\ videoReplies (env s1) = rest.
Proof.
  intros H. unfold retrying, withRetriesDefault, withRetries. simpl.
  unfold sdkVideo. rewrite H. simpl. eexists. split; reflexivity.
Qed.

Lemma pollUntilDone_returns (pendings : list Op.t) (final operation : Op.t)
    (more : list (Outcome Op.t)) (fuel : nat) (s : Store) :
  Op.done operation = false ->
  Forall (fun o => Op.done o = false) pendings ->
  Op.done final = true ->
  videoReplies (env s) = (map Returned (pendings ++ [final]) ++ more)%list ->
  (List.length pendings < fuel)%nat ->
  exists s1, pollUntilDone fuel operation s = (Returned final, s1)
             /\ videoReplies (env s1) = more.
Proof.
  revert operation fuel s.
  induction pendings as [|p pendings IH]; intros operation fuel s Hop Hall Hfin Hreplies Hfuel;
    (destruct fuel as [|fuel]; [simpl in Hfuel; lia|]); simpl; rewrite Hop.
  - destruct (retrying_resolves (GetVideosOperation operation) final more
                (after (sleep 30000) s) Hreplies) as (s1 & Hrun & Hrest).
    exists s1. split; [|exact Hrest].
    unfold bind at 1. change (sleep 30000 s) with (Returned tt, after (sleep 30000) s).
    unfold bind at 1. rewrite Hrun. destruct fuel; simpl; now rewrite Hfin.
  - inversion Hall as [|? ? Hp Hrest']; subst.
    destruct (retrying_resolves (GetVideosOperation operation) p
                (map Returned (pendings ++ [final]) ++ more)%list
                (after (sleep 30000) s) Hreplies) as (s1 & Hrun & Hrest).
    destruct (IH p fuel s1 Hp Hrest' Hfin Hrest) as (s2 & Hrun2 & Hrest2);
      [simpl in Hfuel; lia|].
    exists s2. split; [|exact Hrest2].
    unfold bind at 1. change (sleep 30000 s) with (Returned tt, after (sleep 30000) s).
    unfold bind at 1. rewrite Hrun. exact Hrun2.
Qed.

(** Enough fuel brings the polling phase to its end: when the service
    answers with operations that are not done and then with one that is,
    [awaitOperation] returns that one. *)
Lemma awaitOperation_returns (ops : list Op.t) (final : Op.t)
    (more : list (Outcome Op.t)) (fuel : nat) (script : string) (image : Image)
    (s : Store) :
  Forall (fun o => Op.done o = false) ops ->
  Op.done final = true ->
  videoReplies (env s) = (map Returned (ops ++ [final]) ++ more)%list ->
  (List.length ops <= fuel)%nat ->
  exists s1, awaitOperation fuel script image s = (Returned final, s1)
             /\ videoReplies (env s1) = more.
Proof.
  intros Hall Hfin Hreplies Hfuel. unfold awaitOperation.
  destruct ops as [|first ops].
  - destruct (retrying_resolves (GenerateVideos script (base64 image) (mimeType image))
                final more s Hreplies) as (s1 & Hrun & Hrest).
    exists s1. split; [|exact Hrest]. unfold bind. rewrite Hrun.
    destruct fuel; simpl; now rewrite Hfin.
  - inversion Hall as [|? ? Hfirst Hrest']; subst.
    destruct (retrying_resolves (GenerateVideos script (base64 image) (mimeType image))
                first (map Returned (ops ++ [final]) ++ more)%list s Hreplies)
      as (s1 & Hrun & Hrest).
    destruct (pollUntilDone_returns ops final first more fuel s1 Hfirst Hrest' Hfin Hrest)
      as (s2 & Hrun2 & Hrest2); [simpl in Hfuel; lia|].
    exists s2. split; [|exact Hrest2]. unfold bind. rewrite Hrun. exact Hrun2.
Qed.

Lemma inputsView_of_pollView {A} (a : Act A) : Preserves pollView a -> Preserves inputsView a.
Proof.
  intros H s. specialize (H s). unfold pollView in H. unfold inputsView.
  injection H as Hui _ _. now rewrite Hui.
Qed.

Lemma inputsView_emit (ev : Event) : Preserves inputsView (emit ev).
Proof. intros s. reflexivity. Qed.

(** The setter calls made while a video is generated leave script, image
    and stage pointer alone. *)
Lemma inputsView_set (u : Update) :
  match u with
  | SetVideoUrl _ | SetError _ | SetVideoGenerationFailed _ | SetIsLoadingKey _ _ => True
  | _ => False
  end ->
  Preserves inputsView (set u).
Proof. intros Hu [[] e l]. destruct u; try contradiction; reflexivity. Qed.

Lemma inputsView_fetch (url : string) : Preserves inputsView (fetch url).
Proof.
  intros s. unfold after, fetch. destruct (httpReplies (env s)) as [|[x|r] rest]; reflexivity.
Qed.

Lemma inputsView_createObjectURL : Preserves inputsView createObjectURL.
Proof. intros s. reflexivity. Qed.

Lemma Grows_fetch (url : string) : Grows (fetch url).
Proof.
  intros s. unfold after, fetch.
  destruct (httpReplies (env s)) as [|[x|r] rest]; apply extends_snoc.
Qed.

Lemma Grows_createObjectURL : Grows createObjectURL.
Proof. intros s. apply extends_refl. Qed.

Lemma Grows_pollUntilDone (fuel : nat) (operation : Op.t) :
  Grows (pollUntilDone fuel operation).
Proof.
  revert operation. induction fuel as [|fuel IH]; intros operation; simpl;
    destruct (Op.done operation); try apply Grows_ret; try apply Grows_pending.
  apply Grows_bind; [apply Grows_emit | intros _].
  apply Grows_bind; [apply Grows_retrying | exact IH].
Qed.

Section VideoFrames.
Variable API_KEY : string.

Lemma inputsView_collectVideo (operation : Op.t) :
  Preserves inputsView (collectVideo API_KEY operation).
Proof.
  unfold collectVideo.
  apply Preserves_bind; [apply inputsView_emit | intros _].
  destruct (Op.error operation) as [err|].
  - apply Preserves_bind; [apply inputsView_emit | intros _; apply Preserves_throw].
  - destruct (Op.firstVideoUri operation) as [[|c u]|];
      try (apply Preserves_bind; [apply inputsView_emit | intros _; apply Preserves_throw]).
    apply Preserves_bind; [apply inputsView_fetch | intros resp].
    destruct (negb (ok resp)).
    + apply Preserves_bind; [|intros d; apply Preserves_throw].
      destruct (json resp) as [[m|]|]; try apply Preserves_ret.
      apply Preserves_bind; [apply inputsView_emit | intros _; apply Preserves_ret].
    + apply Preserves_bind; [apply inputsView_createObjectURL | intros url].
      now apply inputsView_set.
Qed.

Lemma Grows_collectVideo (operation : Op.t) : Grows (collectVideo API_KEY operation).
Proof.
  unfold collectVideo.
  apply Grows_bind; [apply Grows_emit | intros _].
  destruct (Op.error operation) as [err|].
  - apply Grows_bind; [apply Grows_emit | intros _; apply Grows_throw].
  - destruct (Op.firstVideoUri operation) as [[|c u]|];
      try (apply Grows_bind; [apply Grows_emit | intros _; apply Grows_throw]).
    apply Grows_bind; [apply Grows_fetch | intros resp].
    destruct (negb (ok resp)).
    + apply Grows_bind; [|intros d; apply Grows_throw].
      destruct (json resp) as [[m|]|]; try apply Grows_ret.
      apply Grows_bind; [apply Grows_emit | intros _; apply Grows_ret].
    + apply Grows_bind; [apply Grows_createObjectURL | intros url; apply Grows_set].
Qed.

Lemma inputsView_videoCatch (e : JsValue) : Preserves inputsView (videoCatch e).
Proof.
  unfold videoCatch.
  apply Preserves_bind; [apply inputsView_emit | intros _].
  apply Preserves_bind; [now apply inputsView_set | intros _; now apply inputsView_set].
Qed.

Lemma Grows_videoCatch (e : JsValue) : Grows (videoCatch e).
Proof.
  unfold videoCatch.
  apply Grows_bind; [apply Grows_emit | intros _].
  apply Grows_bind; [apply Grows_set | intros _; apply Grows_set].
Qed.

Lemma inputsView_videoTry (fuel : nat) (script : string) (image : Image) :
  Preserves inputsView (videoTry API_KEY fuel script image).
Proof.
  apply Preserves_bind.
  - apply inputsView_of_pollView, pollView_awaitOperation.
  - apply inputsView_collectVideo.
Qed.

(** The request that submits the video is the first thing the [try]
    block adds to the log. *)
Lemma videoTry_first_request (fuel : nat) (script : string) (image : Image) (s : Store) :
  exists rest,
    log (after (videoTry API_KEY fuel script image) s)
    = (log s ++ EvRequest (GenerateVideos script (base64 image) (mimeType image)) :: rest)%list.
Proof.
  destruct (retrying_first_request
              (GenerateVideos script (base64 image) (mimeType image)) s) as [r1 H1].
  assert (E1 : extends (log (after (retrying (GenerateVideos script (base64 image)
                                               (mimeType image)) sdkVideo) s))
                       (log (after (awaitOperation fuel script image) s))).
  { apply bind_prefix. intros op. apply Grows_pollUntilDone. }
  assert (E2 : extends (log (after (awaitOperation fuel script image) s))
                       (log (after (videoTry API_KEY fuel script image) s))).
  { apply bind_prefix. apply Grows_collectVideo. }
  destruct (extends_trans _ _ _ E1 E2) as [r2 H2].
  rewrite H2, H1. exists (r1 ++ r2)%list. now rewrite <- app_assoc.
Qed.

End VideoFrames.

(** ** Video generation: outcomes of the [try] block *)

Lemma retrying_resolves_store (req : Request) (operation : Op.t)
    (rest : list (Outcome Op.t)) (s : Store) :
  videoReplies (env s) = Returned operation :: rest ->
  retrying req sdkVideo s
  = (Returned operation,
     {| ui := ui s; env := withVideoReplies (env s) rest;
        log := log s ++ [EvRequest req] |}).
Proof.
  intros H. unfold retrying, withRetriesDefault, withRetries. simpl.
  unfold sdkVideo. rewrite H. reflexivity.
Qed.

Lemma withVideoReplies_twice (e : Env) (a b : list (Outcome Op.t)) :
  withVideoReplies (withVideoReplies e a) b = withVideoReplies e b.
Proof. reflexivity. Qed.

(** The exact store after a poll loop that meets operations not done and
    then one that is. *)
Lemma pollUntilDone_store (pendings : list Op.t) (final operation : Op.t)
    (more : list (Outcome Op.t)) (fuel : nat) (s : Store) :
  Op.done operation = false ->
  Forall (fun o => Op.done o = false) pendings ->
  Op.done final = true ->
  videoReplies (env s) = (map Returned (pendings ++ [final]) ++ more)%list ->
  (List.length pendings < fuel)%nat ->
  pollUntilDone fuel operation s
  = (Returned final,
     {| ui := ui s; env := withVideoReplies (env s) more;
        log := log s ++ flat_map pollEvents (operation :: pendings) |}).
Proof.
  revert operation fuel s.
  induction pendings as [|p pendings IH]; intros operation fuel s Hop Hall Hfin Hreplies Hfuel;
    (destruct fuel as [|fuel]; [simpl in Hfuel; lia|]);
    cbn [pollUntilDone]; rewrite Hop.
  - unfold bind at 1. change (sleep 30000 s) with (Returned tt, after (sleep 30000) s).
    cbv iota beta. unfold bind at 1.
    rewrite (retrying_resolves_store _ final more) by exact Hreplies.
    destruct fuel; simpl; rewrite Hfin; unfold ret, after; simpl;
      now rewrite <- app_assoc.
  - inversion Hall as [|? ? Hp Hrest']; subst.
    unfold bind at 1. change (sleep 30000 s) with (Returned tt, after (sleep 30000) s).
    cbv iota beta. unfold bind at 1.
    rewrite (retrying_resolves_store _ p (map Returned (pendings ++ [final]) ++ more)%list)
      by exact Hreplies.
    rewrite (IH p fuel _ Hp Hrest' Hfin); [|reflexivity | simpl in Hfuel; lia].
    unfold after. simpl. rewrite <- !app_assoc. reflexivity.
Qed.

Lemma awaitOperation_store (ops : list Op.t) (final : Op.t)
    (more : list (Outcome Op.t)) (fuel : nat) (script : string) (image : Image)
    (s : Store) :
  Forall (fun o => Op.done o = false) ops ->
  Op.done final = true ->
  videoReplies (env s) = (map Returned (ops ++ [final]) ++ more)%list ->
  (List.length ops <= fuel)%nat ->
  awaitOperation fuel script image s
  = (Returned final,
     {| ui := ui s; env := withVideoReplies (env s) more;
        log := log s ++ EvRequest (GenerateVideos script (base64 image) (mimeType image))
                     :: flat_map pollEvents ops |}).
Proof.
  intros Hall Hfin Hreplies Hfuel. unfold awaitOperation, bind.
  destruct ops as [|first ops].
  - rewrite (retrying_resolves_store _ final more) by exact Hreplies.
    destruct fuel; simpl; now rewrite Hfin.
  - inversion Hall as [|? ? Hfirst Hrest']; subst.
    rewrite (retrying_resolves_store _ first (map Returned (ops ++ [final]) ++ more)%list)
      by exact Hreplies.
    rewrite (pollUntilDone_store ops final first more fuel _ Hfirst Hrest' Hfin);
      [|reflexivity | simpl in Hfuel; lia].
    simpl. rewrite <- app_assoc. reflexivity.
Qed.

Section VideoOutcomes.
Variable API_KEY : string.

(** Past the guard, [generateVideo] is its prelude followed by the
    [try]/[catch]/[finally]. *)
Lemma generateVideo_unfold (fuel : nat) (s : Store) (img : Image) :
  Str.truthy (script (ui s)) = true ->
  image (ui s) = Some img ->
  generateVideo API_KEY fuel s
  = tryCatchFinally (videoTry API_KEY fuel (script (ui s)) img) videoCatch videoFinally
      (after videoPrelude s).
Proof.
  intros Hs Hi. destruct s as [[t sc im vu au sv cs [ls lv la] vm er ae vf] e l].
  simpl in *. subst im. unfold generateVideo, after, videoPrelude, videoFinally. simpl.
  rewrite Hs.
  cbv beta iota delta [bind set emit applyUpdate Loading.with_ ui env log nth
                       loadingMessages Loading.script Loading.video Loading.audio snd].
  reflexivity.
Qed.

Lemma generateVideo_guard (fuel : nat) (s : Store) :
  Str.truthy (script (ui s)) = false \/ image (ui s) = None ->
  generateVideo API_KEY fuel s
  = set (SetError "Script and image are required to generate a video.") s.
Proof.
  intros H. unfold generateVideo. destruct H as [H | H]; rewrite H; [reflexivity|].
  destruct (Str.truthy _); reflexivity.
Qed.

(** What [collectVideo] does to the React state, by outcome. *)
Lemma collectVideo_ui (operation : Op.t) (s : Store) :
  match collectVideo API_KEY operation s with
  | (Returned _, s') =>
      ui s' = applyUpdate (SetVideoUrl (objectUrl (env s) (blobs (env s)))) (ui s)
  | (_, s') => ui s' = ui s
  end.
Proof.
  unfold collectVideo. destruct (Op.error operation) as [err|]; [reflexivity|].
  destruct (Op.firstVideoUri operation) as [[|c u]|]; try reflexivity.
  unfold bind at 1. cbn [emit fst snd]. cbv iota beta.
  unfold bind at 1, fetch. cbn [ui env log].
  destruct (httpReplies (env s)) as [|[x|r] rest]; try reflexivity.
  cbn [withEnv ui env log]. destruct (ok r); cbn [negb].
  - reflexivity.
  - destruct (json r) as [[m|]|]; reflexivity.
Qed.

Lemma awaitOperation_urls (fuel : nat) (script : string) (image : Image) :
  Preserves (fun s => (ui s, objectUrl (env s), blobs (env s)))
    (awaitOperation fuel script image).
Proof.
  assert (Hretry : forall req,
             Preserves (fun s => (ui s, objectUrl (env s), blobs (env s)))
               (retrying req sdkVideo)).
  { intros req. apply Preserves_retrying; [|reflexivity].
    intros s. unfold sdkVideo. destruct (videoReplies (env s)); reflexivity. }
  apply Preserves_bind; [apply Hretry|].
  induction fuel as [|n IH]; intros operation; simpl; destruct (Op.done operation);
    try apply Preserves_ret; try apply Preserves_pending.
  apply Preserves_bind; [intros s; reflexivity | intros _].
  apply Preserves_bind; [apply Hretry | exact IH].
Qed.

(** What the [try] block does to the React state, by outcome. *)
Lemma videoTry_ui (fuel : nat) (script : string) (image : Image) (s : Store) :
  match videoTry API_KEY fuel script image s with
  | (Returned _, s') =>
      ui s' = applyUpdate (SetVideoUrl (objectUrl (env s) (blobs (env s)))) (ui s)
  | (_, s') => ui s' = ui s
  end.
Proof.
  pose proof (awaitOperation_urls fuel script image s) as Hurl. unfold after in Hurl.
  unfold videoTry, bind.
  destruct (awaitOperation fuel script image s) as [[operation|e|] s1]; simpl in Hurl;
    injection Hurl as Hui Hurl Hblobs; try exact Hui.
  pose proof (collectVideo_ui operation s1) as Hc.
  destruct (collectVideo API_KEY operation s1) as [[u|e|] s2];
    rewrite Hc; congruence.
Qed.

(** The three ways a run of [generateVideo] past the guard can end. *)
Lemma generateVideo_cases (fuel : nat) (s : Store) (img : Image) :
  Str.truthy (script (ui s)) = true ->
  image (ui s) = Some img ->
  let started := ui (after videoPrelude s) in
  match videoTry API_KEY fuel (script (ui s)) img (after videoPrelude s) with
  | (Returned _, _) =>
      fst (generateVideo API_KEY fuel s) = Returned tt
      /\ ui (after (generateVideo API_KEY fuel) s)
         = applyUpdate (SetIsLoadingKey Loading.Video false)
             (applyUpdate (SetVideoUrl (objectUrl (env s) (blobs (env s)))) started)
  | (Thrown e, _) =>
      fst (generateVideo API_KEY fuel s) = Returned tt
      /\ ui (after (generateVideo API_KEY fuel) s)
         = applyUpdate (SetIsLoadingKey Loading.Video false)
             (applyUpdate
                (SetError (videoErrorCopy (classifyVideoFailure e) (errorInstMessage e)))
                (applyUpdate (SetVideoGenerationFailed true) started))
  | (Pending, _) =>
      fst (generateVideo API_KEY fuel s) = Pending
      /\ ui (after (generateVideo API_KEY fuel) s) = started
  end.
Proof.
  intros Hs Hi started. unfold after at 2 3 4. rewrite (generateVideo_unfold fuel s img Hs Hi).
  pose proof (videoTry_ui fuel (script (ui s)) img (after videoPrelude s)) as Hui.
  unfold tryCatchFinally.
  destruct (videoTry API_KEY fuel (script (ui s)) img (after videoPrelude s))
    as [[[]|e|] s7].
  - split; [reflexivity|]. simpl. rewrite Hui. reflexivity.
  - split; [reflexivity|]. simpl. rewrite Hui. reflexivity.
  - split; [reflexivity|]. simpl. exact Hui.
Qed.

Lemma videoErrorCopy_truthy (c : Category) (m : string) :
  Str.truthy (videoErrorCopy c m) = true.
Proof. destruct c; reflexivity. Qed.

End VideoOutcomes.

(** ** The events of a run, and runs that overlap *)

Lemma writes_app (a b : list Event) : writes (a ++ b)%list = (writes a ++ writes b)%list.
Proof.
  induction a as [|ev a IH]; [reflexivity|]. destruct ev; simpl; now rewrite IH.
Qed.

Lemma writes_retry (req : Request) (tr : list RetryEvent) :
  writes (map (retryEventOf req) tr) = [].
Proof. induction tr as [|ev tr IH]; [reflexivity|]. destruct ev; exact IH. Qed.

Lemma eventsOf_extends {A} (a : Act A) (s : Store) (evs : list Event) :
  log (after a s) = (log s ++ evs)%list -> eventsOf a s = evs.
Proof.
  intros H. unfold eventsOf. rewrite H. generalize (log s) as l.
  induction l as [|ev l IH]; [reflexivity | exact IH].
Qed.

(** The end of a run is replayed on the state that the run and the others
    have made until then. *)
Lemma replay_app (others : nat -> State -> State) (l1 l2 : list Event) (k : nat)
    (st : State) :
  exists k', replay others k (l1 ++ l2)%list st
             = replay others k' l2 (replay others k l1 st).
Proof.
  revert k st. induction l1 as [|ev l1 IH]; intros k st; [now exists k|].
  destruct ev; simpl; apply IH.
Qed.

(** With nothing else running, the state at the end is the state at the
    start with the setter calls of the run applied in order. *)
Lemma replay_undisturbed (evs : list Event) (k : nat) (st : State) :
  replay undisturbed k evs st = fold_left (fun x u => applyUpdate u x) (writes evs) st.
Proof.
  revert k st. induction evs as [|ev evs IH]; intros k st; [reflexivity|].
  destruct ev; simpl; apply IH.
Qed.

Lemma overlapped_end {A} (others : nat -> State -> State) (a : Act A) (s : Store)
    (pre post : list Event) :
  eventsOf a s = (pre ++ post)%list ->
  exists k t, overlapped others a s = replay others k post t.
Proof.
  intros H. unfold overlapped. rewrite H.
  destruct (replay_app others pre post 0 (ui s)) as [k Hk]. rewrite Hk. now eexists _, _.
Qed.

Lemma Silent_ret {A} (a : A) : Silent (ret a).
Proof. intros s. exists []. split; [now rewrite app_nil_r | reflexivity]. Qed.

Lemma Silent_throw {A} (e : JsValue) : Silent (@throw A e).
Proof. intros s. exists []. split; [now rewrite app_nil_r | reflexivity]. Qed.

Lemma Silent_pending {A} : Silent (@pending A).
Proof. intros s. exists []. split; [now rewrite app_nil_r | reflexivity]. Qed.

Lemma Silent_emit (ev : Event) : writes [ev] = [] -> Silent (emit ev).
Proof. intros H s. now exists [ev]. Qed.

Lemma Silent_bind {A B} (c : Act A) (k : A -> Act B) :
  Silent c -> (forall a, Silent (k a)) -> Silent (bind c k).
Proof.
  intros Hc Hk s. destruct (Hc s) as (e1 & H1 & W1). unfold after, bind in *.
  destruct (c s) as [[a|e|] s1]; simpl in *; try (now exists e1).
  destruct (Hk a s1) as (e2 & H2 & W2). exists (e1 ++ e2)%list.
  unfold after in H2. rewrite H2, H1, app_assoc, writes_app, W1, W2. now split.
Qed.

Lemma Silent_retrying {T} (req : Request) (call : Store -> Outcome T * Store) :
  (forall s, log (snd (call s)) = log s) -> Silent (retrying req call).
Proof.
  intros Hcall s. unfold after, retrying, withRetriesDefault, withRetries.
  pose proof (loop_world_invariant call 3 2000 log Hcall (Z.to_nat (Z.max 1 3)) 0 s) as H.
  destruct (withRetries_loop call 3 2000 _ 0 s) as [[r s1] tr]. simpl in *.
  rewrite H. eexists. split; [reflexivity | apply writes_retry].
Qed.

Lemma Silent_pollUntilDone (fuel : nat) (operation : Op.t) :
  Silent (pollUntilDone fuel operation).
Proof.
  revert operation. induction fuel as [|fuel IH]; intros operation; simpl;
    destruct (Op.done operation); try apply Silent_ret; try apply Silent_pending.
  apply Silent_bind; [now apply Silent_emit | intros _].
  apply Silent_bind; [apply Silent_retrying, sdkVideo_log | exact IH].
Qed.

(** Submission and polling call no setter. *)
Lemma Silent_awaitOperation (fuel : nat) (script : string) (image : Image) :
  Silent (awaitOperation fuel script image).
Proof.
  apply Silent_bind; [apply Silent_retrying, sdkVideo_log | apply Silent_pollUntilDone].
Qed.

Section VideoEvents.
Variable API_KEY : string.

(** [collectVideo] calls one setter, [setVideoUrl] with the new object URL,
    as the last thing before it returns; it calls none when it throws. *)
Lemma collectVideo_events (operation : Op.t) (s : Store) :
  match collectVideo API_KEY operation s with
  | (Returned _, s') =>
      exists pre,
        log s' = (log s ++ pre
                    ++ [EvSet (SetVideoUrl (objectUrl (env s) (blobs (env s))))])%list
        /\ writes pre = []
  | (_, s') => exists evs, log s' = (log s ++ evs)%list /\ writes evs = []
  end.
Proof.
  unfold collectVideo. destruct (Op.error operation) as [err|].
  - run_act. exists [EvClearInterval; EvOperationError err].
    now rewrite <- app_assoc.
  - destruct (Op.firstVideoUri operation) as [[|c u]|].
    + run_act. exists [EvClearInterval; EvUriMissing operation]. now rewrite <- app_assoc.
    + unfold bind at 1. cbn [emit fst snd]. cbv iota beta.
      unfold bind at 1, fetch. cbn [ui env log].
      destruct (httpReplies (env s)) as [|[x|r] rest].
      * eexists. rewrite <- app_assoc. split; reflexivity.
      * eexists. cbn [withEnv log]. rewrite <- app_assoc. split; reflexivity.
      * cbn [withEnv ui env log]. destruct (ok r); cbn [negb].
        -- run_act. eexists [EvClearInterval; EvFetch _].
           rewrite <- !app_assoc. split; reflexivity.
        -- destruct (json r) as [[m|]|]; run_act; eexists;
             rewrite <- !app_assoc; split; reflexivity.
    + run_act. exists [EvClearInterval; EvUriMissing operation]. now rewrite <- app_assoc.
Qed.

Lemma videoTry_events (fuel : nat) (script : string) (image : Image) (s : Store) :
  match videoTry API_KEY fuel script image s with
  | (Returned _, s') =>
      exists pre,
        log s' = (log s ++ pre
                    ++ [EvSet (SetVideoUrl (objectUrl (env s) (blobs (env s))))])%list
        /\ writes pre = []
  | (_, s') => exists evs, log s' = (log s ++ evs)%list /\ writes evs = []
  end.
Proof.
  pose proof (awaitOperation_urls fuel script image s) as Hurl. unfold after in Hurl.
  destruct (Silent_awaitOperation fuel script image s) as (e1 & H1 & W1).
  unfold after in H1. unfold videoTry, bind.
  destruct (awaitOperation fuel script image s) as [[operation|e|] s1]; simpl in *;
    try (now exists e1).
  injection Hurl as _ Hurl Hblobs.
  pose proof (collectVideo_events operation s1) as Hc.
  destruct (collectVideo API_KEY operation s1) as [[u|e|] s2].
  - destruct Hc as (pre & H2 & W2). exists (e1 ++ pre)%list.
    rewrite H2, H1, Hurl, Hblobs, <- !app_assoc, writes_app, W1, W2. now split.
  - destruct Hc as (e2 & H2 & W2). exists (e1 ++ e2)%list.
    rewrite H2, H1, <- app_assoc, writes_app, W1, W2. now split.
  - destruct Hc as (e2 & H2 & W2). exists (e1 ++ e2)%list.
    rewrite H2, H1, <- app_assoc, writes_app, W1, W2. now split.
Qed.

Lemma videoPrelude_log (s : Store) :
  log (after videoPrelude s) = (log s ++ videoPreludeEvents)%list.
Proof. unfold after, videoPrelude. run_act. now rewrite <- !app_assoc. Qed.

(** Everything a run of [generateVideo] past the guard logs: the prelude,
    the events of submission, polling and fetch, none of them a setter
    call, and then one of two ends. *)
Lemma generateVideo_events (fuel : nat) (s : Store) (img : Image) :
  Str.truthy (script (ui s)) = true ->
  image (ui s) = Some img ->
  exists pre,
    writes pre = []
    /\ eventsOf (generateVideo API_KEY fuel) s
       = (videoPreludeEvents ++ pre
            ++ match fst (videoTry API_KEY fuel (script (ui s)) img (after videoPrelude s)) with
               | Returned _ => videoSuccessEnd (objectUrl (env s) (blobs (env s)))
               | Thrown e => videoFailureEnd e
               | Pending => []
               end)%list.
Proof.
  intros Hs Hi.
  pose proof (videoTry_events fuel (script (ui s)) img (after videoPrelude s)) as Hev.
  assert (Hlog : forall tail,
             log (after (generateVideo API_KEY fuel) s)
             = (log (snd (videoTry API_KEY fuel (script (ui s)) img (after videoPrelude s)))
                  ++ tail)%list ->
             forall pre,
               log (snd (videoTry API_KEY fuel (script (ui s)) img (after videoPrelude s)))
               = (log (after videoPrelude s) ++ pre)%list ->
               eventsOf (generateVideo API_KEY fuel) s
               = (videoPreludeEvents ++ pre ++ tail)%list).
  { intros tail Ht pre Hp. apply eventsOf_extends.
    rewrite Ht, Hp, videoPrelude_log, <- !app_assoc. reflexivity. }
  unfold after at 1 in Hlog. rewrite (generateVideo_unfold API_KEY fuel s img Hs Hi) in Hlog.
  unfold tryCatchFinally in Hlog.
  destruct (videoTry API_KEY fuel (script (ui s)) img (after videoPrelude s))
    as [[[]|e|] s7]; cbn [fst snd] in *.
  - destruct Hev as (pre & Hp & W). exists pre. split; [exact W|].
    change (objectUrl (env (after videoPrelude s)) (blobs (env (after videoPrelude s))))
      with (objectUrl (env s) (blobs (env s))) in Hp.
    rewrite (Hlog [EvSet (SetIsLoadingKey Loading.Video false); EvClearInterval]
               ltac:(unfold videoFinally; run_act; now rewrite <- !app_assoc)
               (pre ++ [EvSet (SetVideoUrl (objectUrl (env s) (blobs (env s))))])%list Hp).
    now rewrite <- !app_assoc.
  - destruct Hev as (pre & Hp & W). exists pre. split; [exact W|].
    apply (Hlog (videoFailureEnd e)); [|exact Hp].
    unfold videoCatch, videoFinally. run_act. now rewrite <- !app_assoc.
  - destruct Hev as (pre & Hp & W). exists pre. split; [exact W|].
    rewrite (Hlog [] ltac:(now rewrite app_nil_r) pre Hp). reflexivity.
Qed.

(** A run of [generateVideo] that settles ends in one of two ways; the
    state at its end is the state that the run and the others have made
    until its last wait is over, with the setter calls of that end
    applied. *)
Lemma generateVideo_overlapped (fuel : nat) (s : Store) (img : Image)
    (others : nat -> State -> State) :
  Str.truthy (script (ui s)) = true ->
  image (ui s) = Some img ->
  fst (generateVideo API_KEY fuel s) = Returned tt ->
  (exists pre t,
      eventsOf (generateVideo API_KEY fuel) s
      = (pre ++ videoSuccessEnd (objectUrl (env s) (blobs (env s))))%list
      /\ overlapped others (generateVideo API_KEY fuel) s
         = applyUpdate (SetIsLoadingKey Loading.Video false)
             (applyUpdate (SetVideoUrl (objectUrl (env s) (blobs (env s)))) t)
      /\ ui (after (generateVideo API_KEY fuel) s)
         = applyUpdate (SetIsLoadingKey Loading.Video false)
             (applyUpdate (SetVideoUrl (objectUrl (env s) (blobs (env s))))
                (ui (after videoPrelude s))))
  \/ (exists pre e t,
         eventsOf (generateVideo API_KEY fuel) s = (pre ++ videoFailureEnd e)%list
         /\ overlapped others (generateVideo API_KEY fuel) s
            = applyUpdate (SetIsLoadingKey Loading.Video false)
                (applyUpdate
                   (SetError (videoErrorCopy (classifyVideoFailure e) (errorInstMessage e)))
                   (applyUpdate (SetVideoGenerationFailed true) t))
         /\ ui (after (generateVideo API_KEY fuel) s)
            = applyUpdate (SetIsLoadingKey Loading.Video false)
                (applyUpdate
                   (SetError (videoErrorCopy (classifyVideoFailure e) (errorInstMessage e)))
                   (applyUpdate (SetVideoGenerationFailed true)
                      (ui (after videoPrelude s))))).
Proof.
  intros Hs Hi Hret.
  destruct (generateVideo_events fuel s img Hs Hi) as (pre & W & Hev).
  pose proof (generateVideo_cases API_KEY fuel s img Hs Hi) as Hc. simpl in Hc.
  destruct (videoTry API_KEY fuel (script (ui s)) img (after videoPrelude s))
    as [[[]|e|] s7]; cbn [fst] in Hev; rewrite app_assoc in Hev.
  - left. destruct Hc as [_ Hui].
    destruct (overlapped_end others _ s _ _ Hev) as (k & t & Ht).
    exists (videoPreludeEvents ++ pre)%list, t.
    split; [exact Hev|]. split; [rewrite Ht; reflexivity | exact Hui].
  - right. destruct Hc as [_ Hui].
    destruct (overlapped_end others _ s _ _ Hev) as (k & t & Ht).
    exists (videoPreludeEvents ++ pre)%list, e, t.
    split; [exact Hev|]. split; [rewrite Ht; reflexivity | exact Hui].
  - destruct Hc as [Hc _]. congruence.
Qed.

(** With nothing else running, replaying the log gives the state the
    handler leaves. *)
Lemma generateVideo_undisturbed (fuel : nat) (s : Store) (img : Image) :
  Str.truthy (script (ui s)) = true ->
  image (ui s) = Some img ->
  overlapped undisturbed (generateVideo API_KEY fuel) s
  = ui (after (generateVideo API_KEY fuel) s).
Proof.
  intros Hs Hi.
  destruct (generateVideo_events fuel s img Hs Hi) as (pre & W & Hev).
  pose proof (generateVideo_cases API_KEY fuel s img Hs Hi) as Hc. simpl in Hc.
  unfold overlapped. rewrite replay_undisturbed, Hev, !writes_app, W.
  destruct (videoTry API_KEY fuel (script (ui s)) img (after videoPrelude s))
    as [[[]|e|] s7]; destruct Hc as [_ ->]; destruct s as [[] env0 l]; reflexivity.
Qed.

End VideoEvents.

(** C7. Whenever submission and polling end with an operation (which is
    then done) that carries no error and no video URI (none at all, or the
    empty string), the [try] block throws the sentinel
    [Error("VIDEO_URI_MISSING")], which the video stage classifies as
    MissingResult; nothing was fetched (no [fetch] event, the pending
    answers of [fetch] untouched) and [videoUrl] keeps its value. *)
Theorem missing_result_raises_sentinel (API_KEY : string) (fuel : nat)
    (script : string) (image : Image) (s s1 : Store) (operation : Op.t) :
  awaitOperation fuel script image s = (Returned operation, s1) ->
  Op.error operation = None ->
  Op.firstVideoUri operation = None \/ Op.firstVideoUri operation = Some "" ->
  Op.done operation = true
  /\ videoTry API_KEY fuel script image s
     = (Thrown (newError VIDEO_URI_MISSING),
        {| ui := ui s; env := env s1;
           log := log s1 ++ [EvClearInterval; EvUriMissing operation] |})
  /\ classifyVideoFailure (newError VIDEO_URI_MISSING) = MissingResult
  /\ fetches (log s1 ++ [EvClearInterval; EvUriMissing operation]) = fetches (log s)
  /\ httpReplies (env s1) = httpReplies (env s)
  /\ videoUrl (ui s1) = videoUrl (ui s).
Proof.
  intros Hrun Herr Huri.
  pose proof (pollView_awaitOperation fuel script image s) as Hview.
  unfold after in Hview. rewrite Hrun in Hview. unfold pollView in Hview. simpl in Hview.
  injection Hview as Hui Hhttp Hfetch.
  split; [|split; [|split; [|split; [|split]]]].
  - unfold awaitOperation in Hrun. apply bind_Returned in Hrun as (op0 & s0 & _ & Hpoll).
    now apply pollUntilDone_done in Hpoll.
  - unfold videoTry, bind at 1. rewrite Hrun. unfold collectVideo. rewrite Herr.
    destruct Huri as [-> | ->]; run_act; rewrite Hui, <- app_assoc; reflexivity.
  - reflexivity.
  - rewrite fetches_app, Hfetch. simpl. apply app_nil_r.
  - exact Hhttp.
  - now rewrite Hui.
Qed.

(** The example run: one retried submission, two polls, then a finished
    operation with an empty list of videos. *)
Lemma missing_result_raises_sentinel_witness :
  let s := Examples.atStage3 in
  let s1 := after (awaitOperation 5 "A short script." Examples.picture) s in
  Op.done Examples.emptyOp = true
  /\ videoTry "k" 5 "A short script." Examples.picture s
     = (Thrown (newError VIDEO_URI_MISSING),
        {| ui := ui s; env := env s1;
           log := log s1 ++ [EvClearInterval; EvUriMissing Examples.emptyOp] |})
  /\ classifyVideoFailure (newError VIDEO_URI_MISSING) = MissingResult
  /\ fetches (log s1 ++ [EvClearInterval; EvUriMissing Examples.emptyOp]) = fetches (log s)
  /\ httpReplies (env s1) = httpReplies (env s)
  /\ videoUrl (ui s1) = videoUrl (ui s).
Proof.
  exact (missing_result_raises_sentinel "k" 5 "A short script." Examples.picture
           Examples.atStage3
           (after (awaitOperation 5 "A short script." Examples.picture) Examples.atStage3)
           Examples.emptyOp eq_refl eq_refl (or_introl eq_refl)).
Defined.

(** C8, as stated, fails.  After the failed attempt of the example run
    and Clear Image, the failure is latched and [error] is set, and there
    Resubmit clears neither: it replaces [error] by the text about the
    missing inputs, leaves [videoGenerationFailed] set, does not set the
    busy flag and sends nothing. *)
Lemma resubmit_without_image_only_refuses :
  let s := after handleClearImage Examples.afterFailedVideo in
  let s' := after (handleResubmitVideo "k" 5) s in
  videoGenerationFailed (ui s) = true
  /\ error (ui s) <> ""
  /\ Str.truthy (script (ui s)) = true
  /\ image (ui s) = None
  /\ videoGenerationFailed (ui s') = true
  /\ error (ui s') = "Script and image are required to generate a video."
  /\ Loading.video (isLoading (ui s')) = false
  /\ log s'
     = (log s ++ [EvSet (SetError "Script and image are required to generate a video.")])%list
  /\ currentStep (ui s') = 3.
Proof.
  repeat split; try (vm_compute; reflexivity). vm_compute. discriminate.
Qed.

(** C8, amended. In every state, so in every one where a video attempt
    has failed, Resubmit does one of two things.  With a non-empty script
    and an image it first clears [error], then clears
    [videoGenerationFailed], then sets the video busy flag - so when the
    flag is set both are already clear - and goes on to send the video
    request with the script and the image of the state; none of its setter
    calls touches script, image or topic, and its only call on the stage
    pointer puts it at 5; so, in a run during which nothing else happens,
    script and image are the same afterwards and the stage pointer, at 5,
    is not moved back.  With an empty script or
    without an image (after Clear Image, say) it only sets [error] to the
    text about the missing inputs: [videoGenerationFailed] and the busy
    flags stay as they are, nothing is sent, the stage pointer is where it
    was. *)
Theorem resubmit_clears_then_reruns (API_KEY : string) (fuel : nat) (s : Store) :
  let s' := after (handleResubmitVideo API_KEY fuel) s in
  let refusal := "Script and image are required to generate a video." in
  (forall img : Image,
      Str.truthy (script (ui s)) = true ->
      image (ui s) = Some img ->
      (exists rest,
          log s' = (log s
                    ++ [ EvSet (SetError "");
                         EvSet (SetVideoGenerationFailed false);
                         EvSet (SetIsLoadingKey Loading.Video true);
                         EvSet (SetCurrentStep 5);
                         EvSet (SetVideoLoadingMessage "Warming up the cameras...");
                         EvSetInterval 8000;
                         EvRequest (GenerateVideos (script (ui s)) (base64 img)
                                      (mimeType img)) ]
                    ++ rest)%list)
      /\ (let busy := applyUpdate (SetIsLoadingKey Loading.Video true)
                        (applyUpdate (SetVideoGenerationFailed false)
                           (applyUpdate (SetError "") (ui s))) in
          error busy = "" /\ videoGenerationFailed busy = false
          /\ Loading.video (isLoading busy) = true)
      /\ Forall keepsInputs (writes (eventsOf (handleResubmitVideo API_KEY fuel) s))
      /\ script (ui s') = script (ui s)
      /\ image (ui s') = image (ui s)
      /\ currentStep (ui s') = 5
      /\ (currentStep (ui s) <= 5 -> currentStep (ui s) <= currentStep (ui s')))
  /\ (Str.truthy (script (ui s)) = false \/ image (ui s) = None ->
      handleResubmitVideo API_KEY fuel s
      = (Returned tt,
         {| ui := applyUpdate (SetError refusal) (ui s); env := env s;
            log := log s ++ [EvSet (SetError refusal)] |})
      /\ error (ui s') = refusal
      /\ videoGenerationFailed (ui s') = videoGenerationFailed (ui s)
      /\ isLoading (ui s') = isLoading (ui s)
      /\ currentStep (ui s') = currentStep (ui s)).
Proof.
  intros s' refusal. split.
  - intros img Hscript Himage.
    assert (Hs' : s' = after (tryCatchFinally (videoTry API_KEY fuel (script (ui s)) img)
                                videoCatch videoFinally) (after videoPrelude s)).
    { subst s'. unfold handleResubmitVideo, after at 1.
      now rewrite (generateVideo_unfold API_KEY fuel s img Hscript Himage). }
    assert (Hinputs : inputsView s' = inputsView (after videoPrelude s)).
    { rewrite Hs'. apply Preserves_tryCatchFinally.
      - apply inputsView_videoTry.
      - apply inputsView_videoCatch.
      - apply Preserves_bind; [now apply inputsView_set | intros _; apply inputsView_emit]. }
    assert (Hprelude : inputsView (after videoPrelude s) = (script (ui s), image (ui s), 5)).
    { destruct s as [[] e l]. reflexivity. }
    rewrite Hprelude in Hinputs. unfold inputsView in Hinputs.
    injection Hinputs as Hsc Him Hcs.
    split; [|split; [|split; [|split; [|split; [|split]]]]].
    + destruct (videoTry_first_request API_KEY fuel (script (ui s)) img
                  (after videoPrelude s)) as [r1 H1].
      destruct (tryCatchFinally_prefix (videoTry API_KEY fuel (script (ui s)) img)
                  videoCatch videoFinally (after videoPrelude s)) as [r2 H2].
      * apply Grows_videoCatch.
      * apply Grows_bind; [apply Grows_set | intros _; apply Grows_emit].
      * exists (r1 ++ r2)%list. rewrite Hs', H2, H1, videoPrelude_log.
        unfold videoPreludeEvents. repeat rewrite <- app_assoc. reflexivity.
    + destruct s as [[t sc im vu au sv cs [ls lv la] vm er ae vf] e l]. repeat split.
    + destruct (generateVideo_events API_KEY fuel s img Hscript Himage) as (pre & W & Hev).
      unfold handleResubmitVideo. rewrite Hev, !writes_app, W.
      destruct (fst (videoTry API_KEY fuel (script (ui s)) img (after videoPrelude s)));
        cbn; repeat (constructor; [cbn; auto|]); constructor.
    + exact Hsc.
    + exact Him.
    + exact Hcs.
    + intros Hle. rewrite Hcs. exact Hle.
  - intros Hmissing. subst s'. unfold handleResubmitVideo, after.
    rewrite (generateVideo_guard API_KEY fuel s Hmissing).
    destruct s as [[] e l]. repeat split.
Qed.

(** Resubmitting after the failed attempt of the example run sends the
    request again; after Clear Image it only refuses. *)
Lemma resubmit_clears_then_reruns_witness :
  let failed := Examples.afterFailedVideo in
  let s' := after (handleResubmitVideo "k" 5) failed in
  let cleared := after handleClearImage failed in
  (script (ui s') = script (ui failed)
   /\ image (ui s') = image (ui failed)
   /\ currentStep (ui s') = 5)
  /\ error (ui (after (handleResubmitVideo "k" 5) cleared))
     = "Script and image are required to generate a video.".
Proof.
  assert (H3 : Str.truthy (script (ui Examples.afterFailedVideo)) = true)
    by (vm_compute; reflexivity).
  assert (H4 : image (ui Examples.afterFailedVideo) = Some Examples.picture)
    by (vm_compute; reflexivity).
  assert (H5 : Str.truthy (script (ui (after handleClearImage Examples.afterFailedVideo)))
               = false
               \/ image (ui (after handleClearImage Examples.afterFailedVideo)) = None)
    by (right; vm_compute; reflexivity).
  pose proof (proj1 (resubmit_clears_then_reruns "k" 5 Examples.afterFailedVideo)
                Examples.picture H3 H4) as (_ & _ & _ & Hs & Hi & Hc & _).
  pose proof (proj2 (resubmit_clears_then_reruns "k" 5
                       (after handleClearImage Examples.afterFailedVideo)) H5)
    as (_ & He & _).
  exact (conj (conj Hs (conj Hi Hc)) He).
Defined.

(** ** Failure classification *)

(** C1, as stated, fails.  The two stages do not classify alike, and neither
    follows the case-insensitive test on message and serialization:
    an [Error] with message [policy] is Unexpected in the script stage and
    ContentPolicyViolation in the video stage; an object whose only trace
    of the marker is in its serialization is QuotaExceeded in the script
    stage and Unexpected in the video stage; [Quota] with a capital is
    Unexpected in both. *)
Lemma classifiers_differ_by_stage :
  classifyScriptFailure (newError "policy") = Unexpected
  /\ classifyVideoFailure (newError "policy") = ContentPolicyViolation
  /\ spec_classify (newError "policy") = ContentPolicyViolation
  /\ classifyScriptFailure (JsObject [("status", JsString "RESOURCE_EXHAUSTED")])
     = QuotaExceeded
  /\ classifyVideoFailure (JsObject [("status", JsString "RESOURCE_EXHAUSTED")])
     = Unexpected
  /\ spec_classify (JsObject [("status", JsString "RESOURCE_EXHAUSTED")]) = QuotaExceeded
  /\ classifyScriptFailure (newError "Quota exceeded") = Unexpected
  /\ classifyVideoFailure (newError "Quota exceeded") = Unexpected
  /\ spec_classify (newError "Quota exceeded") = QuotaExceeded.
Proof. repeat split. Qed.

(** C1, amended. Each stage has its own textual classifier.  Script stage:
    the text is the [Error] message (if any), a space and the JSON
    serialization; it is QuotaExceeded exactly when [quota] or
    [RESOURCE_EXHAUSTED] occurs in it in this exact case, and Unexpected
    otherwise - there is no other category.  Video stage: the text is the
    [Error] message alone ([String(e)] for other values), the serialization
    is not consulted; QuotaExceeded as above on that text, else
    MissingResult when [VIDEO_URI_MISSING] occurs, else
    ContentPolicyViolation when [sensitive], [policy] or [responsible ai]
    occurs in the lower-cased text, else Unexpected.  For an [Error]
    instance, QuotaExceeded in the video stage implies QuotaExceeded in the
    script stage. *)
Theorem classifier_by_stage (e : JsValue) :
  let combined := combinedErrorMessage e in
  let text := errorInstMessage e in
  let lower := Str.toLowerCase text in
  let quotaIn := fun t => Str.Occurs "quota" t \/ Str.Occurs RESOURCE_EXHAUSTED t in
  let missingIn := fun t => Str.Occurs VIDEO_URI_MISSING t in
  let policyIn := fun t => Str.Occurs "sensitive" t \/ Str.Occurs "policy" t
                           \/ Str.Occurs "responsible ai" t in
  (classifyScriptFailure e = QuotaExceeded <-> quotaIn combined)
  /\ (classifyScriptFailure e = Unexpected <-> ~ quotaIn combined)
  /\ (classifyVideoFailure e = QuotaExceeded <-> quotaIn text)
  /\ (classifyVideoFailure e = MissingResult <-> ~ quotaIn text /\ missingIn text)
  /\ (classifyVideoFailure e = ContentPolicyViolation
      <-> ~ quotaIn text /\ ~ missingIn text /\ policyIn lower)
  /\ (classifyVideoFailure e = Unexpected
      <-> ~ quotaIn text /\ ~ missingIn text /\ ~ policyIn lower)
  /\ (forall message props json,
        e = JsError message props ->
        JSON.stringify e = Some json ->
        text = message /\ combined = message ++ " " ++ json)
  /\ (instanceofError e = false ->
      text = String_ e
      /\ combined = " " ++ match JSON.stringify e with Some json => json | None => "" end)
  /\ (instanceofError e = true ->
      classifyVideoFailure e = QuotaExceeded -> classifyScriptFailure e = QuotaExceeded).
Proof.
  intros combined text lower quotaIn missingIn policyIn.
  subst quotaIn missingIn policyIn lower. cbv beta.
  unfold classifyScriptFailure, classifyVideoFailure, scriptCategoryOf, videoCategoryOf.
  fold combined. fold text.
  split; [by_markers StrFacts.includes_Occurs StrFacts.includes_false|]. split; [by_markers StrFacts.includes_Occurs StrFacts.includes_false|]. split; [by_markers StrFacts.includes_Occurs StrFacts.includes_false|].
  split; [by_markers StrFacts.includes_Occurs StrFacts.includes_false|]. split; [by_markers StrFacts.includes_Occurs StrFacts.includes_false|]. split; [by_markers StrFacts.includes_Occurs StrFacts.includes_false|].
  split; [|split].
  - intros message props json -> Hjson. subst combined text.
    unfold combinedErrorMessage. rewrite Hjson. split; reflexivity.
  - intros Hne. subst combined text.
    destruct e; try discriminate Hne; split; reflexivity.
  - intros He. destruct e as [| | | | | | |message props]; try discriminate He.
    assert (Hc : exists json, combined = message ++ " " ++ json).
    { subst combined. unfold combinedErrorMessage. simpl. eexists. reflexivity. }
    destruct Hc as [json Hc]. subst text. simpl errorInstMessage. rewrite Hc.
    destruct (Str.includes message "quota") eqn:Q1.
    + apply StrFacts.includes_Occurs in Q1.
      apply (StrFacts.Occurs_app_l _ _ (" " ++ json)) in Q1.
      apply StrFacts.includes_Occurs in Q1. now rewrite Q1.
    + destruct (Str.includes message RESOURCE_EXHAUSTED) eqn:Q2.
      * intros _. apply StrFacts.includes_Occurs in Q2.
        apply (StrFacts.Occurs_app_l _ _ (" " ++ json)) in Q2.
        apply StrFacts.includes_Occurs in Q2. rewrite Q2. now rewrite orb_true_r.
      * simpl. destruct (Str.includes message VIDEO_URI_MISSING); [discriminate|].
        destruct (_ || _ || _); discriminate.
Qed.

(** The SDK error for HTTP 429 is QuotaExceeded in both stages. *)
Lemma classifier_by_stage_witness :
  classifyVideoFailure Examples.apiError429 = QuotaExceeded
  /\ classifyScriptFailure Examples.apiError429 = QuotaExceeded.
Proof.
  split; [reflexivity|].
  apply (classifier_by_stage Examples.apiError429); reflexivity.
Defined.

(** * Further properties of the code *)

(** ** The retry wrapper: recovery, bounds, termination *)

Section RetryMore.
Context {W T : Type}.
Variable apiCall : W -> Outcome T * W.
Variables maxRetries initialDelay : Z.

Local Notation "'loop'" := (withRetries_loop apiCall maxRetries initialDelay).

Lemma loop_eventually_returns (k a fuel : nat) (w : W) (v : T) :
  (k < fuel)%nat ->
  Z.of_nat (a + k) < maxRetries ->
  (forall j, (1 <= j <= k)%nat ->
             exists e, outcomeOfAttempt apiCall j w = Thrown e /\ RateLimited e) ->
  outcomeOfAttempt apiCall (S k) w = Returned v ->
  loop fuel (Z.of_nat a) w =
    (Returned v, worldAfter apiCall (S k) w,
     (flat_map (retryBlock maxRetries initialDelay) (attemptNumbers (Z.of_nat a) k)
        ++ [Attempt])%list).
Proof.
  revert a fuel w. induction k as [|k IH]; intros a fuel w Hf Hmax Hall Hret;
    (destruct fuel as [|fuel]; [lia|]).
  - unfold outcomeOfAttempt in Hret. simpl in Hret. simpl.
    destruct (apiCall w) as [r w1]. simpl in Hret. now subst r.
  - destruct (Hall 1%nat ltac:(lia)) as (e1 & He1 & Hl1).
    unfold outcomeOfAttempt in He1. simpl in He1.
    rewrite outcomeOfAttempt_shift in Hret by lia.
    assert (Hall' : forall j, (1 <= j <= k)%nat ->
              exists e, outcomeOfAttempt apiCall j (snd (apiCall w)) = Thrown e
                        /\ RateLimited e).
    { intros j Hj. rewrite <- outcomeOfAttempt_shift by lia. apply Hall. lia. }
    specialize (IH (S a) fuel (snd (apiCall w))).
    change (worldAfter apiCall (S (S k)) w)
      with (worldAfter apiCall (S k) (snd (apiCall w))).
    cbn [withRetries_loop attemptNumbers flat_map].
    destruct (apiCall w) as [r w1]. simpl in He1. subst r. simpl snd in *.
    rewrite Hl1. cbn [andb].
    replace (Z.of_nat a + 1 <? maxRetries) with true
      by (symmetry; apply Z.ltb_lt; lia).
    replace (Z.of_nat a + 1) with (Z.of_nat (S a)) by lia.
    rewrite IH; [reflexivity | lia | lia | exact Hall' | exact Hret].
Qed.

(** The number of attempts still possible bounds the attempts made. *)
Lemma loop_attempts_bound (fuel : nat) (attempt : Z) (w : W) :
  (attempts (snd (loop fuel attempt w)) <= Z.to_nat (Z.max 1 (maxRetries - attempt)))%nat
  /\ (List.length (delays (snd (loop fuel attempt w)))
      <= Z.to_nat (Z.max 0 (maxRetries - attempt - 1)))%nat.
Proof.
  revert attempt w. induction fuel as [|fuel IH]; intros attempt w.
  - unfold attempts. simpl. lia.
  - simpl. destruct (apiCall w) as [[v|e|] w1]; try (unfold attempts; simpl; lia).
    destruct (isRateLimitError e) as [[|]|]; simpl; try (unfold attempts; simpl; lia).
    destruct (attempt + 1 <? maxRetries) eqn:L; [|unfold attempts; simpl; lia].
    apply Z.ltb_lt in L. specialize (IH (attempt + 1) w1).
    destruct (withRetries_loop _ _ _ fuel _ w1) as [[r w2] tr]. simpl in *.
    unfold attempts in *. simpl. lia.
Qed.

(** The loop stops for lack of fuel only below the number of attempts
    still possible. *)
Lemma loop_settles (fuel : nat) (attempt : Z) (w : W) :
  (forall w', fst (apiCall w') <> Pending) ->
  (Z.to_nat (Z.max 1 (maxRetries - attempt)) <= fuel)%nat ->
  fst (fst (loop fuel attempt w)) <> Pending.
Proof.
  intros Hcall. revert attempt w. induction fuel as [|fuel IH]; intros attempt w Hf; [lia|].
  simpl. specialize (Hcall w). destruct (apiCall w) as [[v|e|] w1]; simpl in *;
    try discriminate; try congruence.
  destruct (isRateLimitError e) as [[|]|]; simpl; try discriminate.
  destruct (attempt + 1 <? maxRetries) eqn:L; [|discriminate].
  apply Z.ltb_lt in L. specialize (IH (attempt + 1) w1 ltac:(lia)).
  destruct (withRetries_loop _ _ _ fuel _ w1) as [[r w2] tr]. exact IH.
Qed.

End RetryMore.

Lemma sum_doubling (d from : Z) (m : nat) :
  0 <= from ->
  fold_right Z.add 0 (map (fun k => d * 2 ^ (k - 1)) (attemptNumbers from m))
  = d * 2 ^ from * (2 ^ Z.of_nat m - 1).
Proof.
  revert from. induction m as [|m IH]; intros from Hfrom.
  - simpl. lia.
  - cbn [attemptNumbers map fold_right]. rewrite IH by lia.
    replace (from + 1 - 1) with from by lia.
    rewrite Nat2Z.inj_succ, Z.pow_succ_r by lia.
    rewrite Z.pow_add_r by lia. lia.
Qed.

(** X1. If the first [k] attempts end in rate-limit failures, [k] is below
    the cap and attempt [k+1] returns a value, then the wrapper returns that
    value after exactly [k+1] executions of the work, having waited
    [initialDelay * 2^(i-1)] after each failed attempt [i]; nothing is
    logged as an error. *)
Theorem retry_recovers {W T : Type} (apiCall : W -> Outcome T * W)
    (maxRetries initialDelay : Z) (k : nat) (w : W) (v : T) :
  Z.of_nat k < maxRetries ->
  (forall j, (1 <= j <= k)%nat ->
             exists e, outcomeOfAttempt apiCall j w = Thrown e /\ RateLimited e) ->
  outcomeOfAttempt apiCall (S k) w = Returned v ->
  exists tr,
    withRetries apiCall maxRetries initialDelay w
      = (Returned v, worldAfter apiCall (S k) w, tr)
    /\ attempts tr = S k
    /\ delays tr = map (fun i => initialDelay * 2 ^ (i - 1)) (attemptNumbers 0 k)
    /\ (forall e, ~ In (LogError e) tr).
Proof.
  intros Hk Hall Hret. eexists. split; [|split; [|split]].
  - unfold withRetries.
    apply (loop_eventually_returns apiCall maxRetries initialDelay k 0); try assumption; lia.
  - rewrite attempts_app, attempts_blocks, attemptNumbers_length. unfold attempts. simpl. lia.
  - rewrite delays_app, delays_blocks. simpl. apply app_nil_r.
  - intros e Hin. apply in_app_or in Hin as [Hin | [Hin | []]]; [|discriminate Hin].
    apply in_flat_map in Hin as (x & _ & Hx).
    simpl in Hx. destruct Hx as [Hx | [Hx | [Hx | []]]]; discriminate Hx.
Qed.

(** Two rate-limit failures, then the answer 42, with the default
    parameters. *)
Lemma retry_recovers_witness :
  exists tr,
    withRetries MoreExamples.thirdTimeLucky 3 2000 0%nat = (Returned 42, 3%nat, tr)
    /\ attempts tr = 3%nat
    /\ delays tr = [2000; 4000]
    /\ (forall e, ~ In (LogError e) tr).
Proof.
  apply (retry_recovers MoreExamples.thirdTimeLucky 3 2000 2 0%nat 42).
  - lia.
  - intros j Hj. destruct j as [|[|[|j]]]; try lia; eexists; split; reflexivity.
  - reflexivity.
Defined.

(** X2. Whatever the work does, the wrapper executes it at most
    [max 1 maxRetries] times and sleeps at most [max 0 (maxRetries - 1)]
    times; with a cap of 1 or less (0 and negative caps included) it
    executes the work once and never sleeps. *)
Theorem retry_attempts_bounded {W T : Type} (apiCall : W -> Outcome T * W)
    (maxRetries initialDelay : Z) (fuel : nat) (w : W) :
  let tr := snd (withRetries_loop apiCall maxRetries initialDelay fuel 0 w) in
  let tr' := snd (withRetries apiCall maxRetries initialDelay w) in
  (attempts tr <= Z.to_nat (Z.max 1 maxRetries))%nat
  /\ (List.length (delays tr) <= Z.to_nat (Z.max 0 (maxRetries - 1)))%nat
  /\ (attempts tr' <= Z.to_nat (Z.max 1 maxRetries))%nat
  /\ (maxRetries <= 1 -> attempts tr' = 1%nat /\ delays tr' = []).
Proof.
  intros tr tr'. subst tr tr'. unfold withRetries.
  pose proof (loop_attempts_bound apiCall maxRetries initialDelay fuel 0 w) as [H1 H2].
  pose proof (loop_attempts_bound apiCall maxRetries initialDelay
                (Z.to_nat (Z.max 1 maxRetries)) 0 w) as [H3 H4].
  rewrite Z.sub_0_r in *.
  split; [exact H1|]. split; [exact H2|]. split; [exact H3|].
  intros Hcap. replace (Z.to_nat (Z.max 1 maxRetries)) with 1%nat in * by lia.
  replace (Z.to_nat (Z.max 0 (maxRetries - 1))) with 0%nat in H4 by lia.
  split.
  - destruct (loop_first_attempt apiCall maxRetries initialDelay 0 0 w) as [rest Hrest].
    rewrite Hrest in *. unfold attempts in *. simpl in *. lia.
  - apply length_zero_iff_nil. lia.
Qed.

Lemma retry_attempts_bounded_witness :
  attempts (snd (withRetries Examples.alwaysLimited 1 2000 0%nat)) = 1%nat
  /\ delays (snd (withRetries Examples.alwaysLimited 1 2000 0%nat)) = [].
Proof.
  apply (retry_attempts_bounded Examples.alwaysLimited 1 2000 0 0%nat). lia.
Defined.

(** X3. The wrapper as called always settles when the work does: if no
    execution of the work stays pending, the wrapper returns or throws. *)
Theorem retry_settles {W T : Type} (apiCall : W -> Outcome T * W)
    (maxRetries initialDelay : Z) (w : W) :
  (forall w', fst (apiCall w') <> Pending) ->
  fst (fst (withRetries apiCall maxRetries initialDelay w)) <> Pending.
Proof.
  intros Hcall. unfold withRetries. apply loop_settles; [exact Hcall | lia].
Qed.

Lemma retry_settles_witness :
  fst (fst (withRetries Examples.alwaysLimited 3 2000 0%nat)) <> Pending.
Proof.
  apply (retry_settles Examples.alwaysLimited 3 2000 0%nat).
  intros w'. simpl. discriminate.
Defined.

(** X4. The time slept in one run is [initialDelay * (2^m - 1)] for [m]
    sleeps; for a delay that is not negative it is at most
    [initialDelay * (2^(maxRetries - 1) - 1)], which is 6000 for the
    default parameters. *)
Theorem retry_total_delay {W T : Type} (apiCall : W -> Outcome T * W)
    (maxRetries initialDelay : Z) (fuel : nat) (w : W) :
  let tr := snd (withRetries_loop apiCall maxRetries initialDelay fuel 0 w) in
  totalDelay tr = initialDelay * (2 ^ Z.of_nat (List.length (delays tr)) - 1)
  /\ (0 <= initialDelay ->
      totalDelay tr <= initialDelay * (2 ^ Z.max 0 (maxRetries - 1) - 1)).
Proof.
  intros tr. subst tr.
  destruct (loop_trace_shape apiCall maxRetries initialDelay fuel 0 w)
    as (m & final & Htr & Hd & _).
  pose proof (loop_attempts_bound apiCall maxRetries initialDelay fuel 0 w) as [_ Hlen].
  assert (Hdel : delays (snd (withRetries_loop apiCall maxRetries initialDelay fuel 0 w))
                 = map (fun k => initialDelay * 2 ^ (k - 1)) (attemptNumbers 0 m)).
  { rewrite Htr, delays_app, delays_blocks, Hd. apply app_nil_r. }
  assert (Hsum : totalDelay (snd (withRetries_loop apiCall maxRetries initialDelay fuel 0 w))
                 = initialDelay * (2 ^ Z.of_nat m - 1)).
  { unfold totalDelay. rewrite Hdel, sum_doubling by lia. simpl. lia. }
  rewrite Hdel, length_map, attemptNumbers_length in *.
  split; [exact Hsum|]. intros Hpos. rewrite Hsum.
  apply Z.mul_le_mono_nonneg_l; [exact Hpos|].
  apply Z.sub_le_mono_r. apply Z.pow_le_mono_r; lia.
Qed.

Lemma retry_total_delay_witness :
  totalDelay (snd (withRetries_loop Examples.alwaysLimited 3 2000 3 0 0%nat)) <= 6000.
Proof.
  apply (retry_total_delay Examples.alwaysLimited 3 2000 3 0%nat). lia.
Defined.

(** ** Script generation: outcomes *)

Lemma trimStart_blank (s : string) : blank s = true -> Trim.trimStart s = "".
Proof.
  induction s as [|c s IH]; [reflexivity|]. simpl.
  destruct (Trim.isWhiteSpace c); [exact IH | discriminate].
Qed.

Lemma trimEnd_head (c : ascii) (s : string) :
  Trim.isWhiteSpace c = false -> Trim.trimEnd (String c s) <> "".
Proof.
  intros Hc. simpl. destruct (Trim.trimEnd s); [rewrite Hc|]; discriminate.
Qed.

(** [trim] gives the empty string exactly for strings of white space. *)
Lemma trim_truthy (s : string) : Str.truthy (Trim.trim s) = negb (blank s).
Proof.
  unfold Trim.trim. induction s as [|c s IH]; [reflexivity|].
  cbn [Trim.trimStart blank]. destruct (Trim.isWhiteSpace c) eqn:Hc; [exact IH|].
  pose proof (trimEnd_head c s Hc) as H.
  destruct (Trim.trimEnd (String c s)); [congruence | reflexivity].
Qed.

Lemma generateScript_blank (s : Store) :
  blank (topic (ui s)) = true ->
  generateScript s = set (SetError "Please enter a topic.") s.
Proof.
  intros H. unfold generateScript. now rewrite trim_truthy, H.
Qed.

Lemma generateScript_unfold (s : Store) :
  blank (topic (ui s)) = false ->
  generateScript s
  = tryCatchFinally (scriptTry (topic (ui s))) scriptCatch
      (set (SetIsLoadingKey Loading.Script false)) (after scriptPrelude s).
Proof.
  intros H. unfold generateScript. rewrite trim_truthy, H. reflexivity.
Qed.

Lemma sdkContent_ui_log (s : Store) :
  (ui (snd (sdkContent s)), log (snd (sdkContent s))) = (ui s, log s).
Proof. unfold sdkContent. destruct (contentReplies (env s)); reflexivity. Qed.

Lemma retrying_content_ui (req : Request) : Preserves ui (retrying req sdkContent).
Proof.
  apply Preserves_retrying; [|reflexivity].
  intros s. pose proof (sdkContent_ui_log s) as H. now injection H.
Qed.

(** The three ways a run of [generateScript] on a topic that is not blank
    can end. *)
Lemma generateScript_cases (s : Store) :
  blank (topic (ui s)) = false ->
  let started := ui (after scriptPrelude s) in
  match retrying (GenerateContent (scriptPrompt (topic (ui s)))) sdkContent
          (after scriptPrelude s) with
  | (Returned text, _) =>
      fst (generateScript s) = Returned tt
      /\ ui (after generateScript s)
         = applyUpdate (SetIsLoadingKey Loading.Script false)
             (applyUpdate (SetCurrentStep 2) (applyUpdate (SetScript text) started))
  | (Thrown e, _) =>
      fst (generateScript s) = Returned tt
      /\ ui (after generateScript s)
         = applyUpdate (SetIsLoadingKey Loading.Script false)
             (applyUpdate (SetError (scriptErrorCopy (classifyScriptFailure e))) started)
  | (Pending, _) =>
      fst (generateScript s) = Pending /\ ui (after generateScript s) = started
  end.
Proof.
  intros Hb started. unfold after at 2 3 4. rewrite (generateScript_unfold s Hb).
  pose proof (retrying_content_ui (GenerateContent (scriptPrompt (topic (ui s))))
                (after scriptPrelude s)) as Hui.
  unfold after at 1 in Hui.
  destruct (retrying _ sdkContent (after scriptPrelude s)) as [[text|e|] s1] eqn:E;
    simpl in Hui; unfold tryCatchFinally, scriptTry, bind; rewrite E;
    (split; [reflexivity|]); simpl; now rewrite Hui.
Qed.

Lemma sdkContent_log (s : Store) : log (snd (sdkContent s)) = log s.
Proof. pose proof (sdkContent_ui_log s) as H. now injection H. Qed.

Lemma content_first_request (req : Request) (s : Store) :
  exists rest, log (after (retrying req sdkContent) s) = (log s ++ EvRequest req :: rest)%list.
Proof.
  unfold after, retrying, withRetriesDefault, withRetries.
  pose proof (loop_world_invariant sdkContent 3 2000 log sdkContent_log
                (Z.to_nat (Z.max 1 3)) 0 s) as H.
  destruct (loop_first_attempt sdkContent 3 2000 2 0 s) as [rest Hrest].
  change (Z.to_nat (Z.max 1 3)) with 3%nat in *.
  destruct (withRetries_loop sdkContent 3 2000 3 0 s) as [[r s1] tr]. simpl in *.
  subst tr. rewrite H. now eexists.
Qed.

(** Up to two rate-limit rejections before an answer are absorbed by the
    default retry policy. *)
Lemma content_recovers (req : Request) (s : Store) (es : list JsValue) (text : string)
    (rest : list (Outcome string)) :
  contentReplies (env s) = (map Thrown es ++ Returned text :: rest)%list ->
  Forall RateLimited es ->
  (List.length es <= 2)%nat ->
  exists s1, retrying req sdkContent s = (Returned text, s1)
             /\ contentReplies (env s1) = rest.
Proof.
  intros Hreplies Hall Hlen. unfold retrying, withRetriesDefault, withRetries.
  change (Z.to_nat (Z.max 1 3)) with 3%nat.
  destruct es as [|e1 [|e2 [|e3 es]]]; simpl in Hlen; try lia; simpl in Hreplies.
  - cbn [withRetries_loop]. unfold sdkContent at 1. rewrite Hreplies.
    eexists. split; reflexivity.
  - inversion Hall as [|? ? H1 _]; subst.
    cbn [withRetries_loop]. unfold sdkContent at 1. rewrite Hreplies. rewrite H1.
    cbn. eexists. split; reflexivity.
  - inversion Hall as [|? ? H1 Hall']; subst. inversion Hall' as [|? ? H2 _]; subst.
    cbn [withRetries_loop]. unfold sdkContent at 1. rewrite Hreplies. rewrite H1.
    cbn. rewrite H2. cbn. eexists. split; reflexivity.
Qed.

(** Three rate-limit rejections exhaust the default policy; the third is
    thrown. *)
Lemma content_exhausts (req : Request) (s : Store) (e1 e2 e3 : JsValue)
    (rest : list (Outcome string)) :
  contentReplies (env s) = Thrown e1 :: Thrown e2 :: Thrown e3 :: rest ->
  RateLimited e1 -> RateLimited e2 -> RateLimited e3 ->
  exists s1, retrying req sdkContent s = (Thrown e3, s1)
             /\ contentReplies (env s1) = rest
             /\ log s1 = (log s ++ [EvRequest req; EvRetryWarn 2000 1 3; EvTimeout 2000;
                                    EvRequest req; EvRetryWarn 4000 2 3; EvTimeout 4000;
                                    EvRequest req;
                                    retryEventOf req (LogError e3)])%list.
Proof.
  intros Hreplies H1 H2 H3. unfold retrying, withRetriesDefault, withRetries.
  change (Z.to_nat (Z.max 1 3)) with 3%nat.
  cbn [withRetries_loop]. unfold sdkContent at 1. rewrite Hreplies. rewrite H1.
  cbn. rewrite H2. cbn. rewrite H3. cbn.
  eexists. split; [reflexivity|]. split; reflexivity.
Qed.

Lemma Occurs_app_r (needle s t : string) : Str.Occurs needle t -> Str.Occurs needle (s ++ t).
Proof.
  intros (b & a & ->). exists (s ++ b), a. now rewrite StrFacts.app_assoc_s.
Qed.

(** What the retry wrapper treats as a rate-limit failure, the script
    stage reports as an exceeded quota. *)
Lemma RateLimited_script_quota (e : JsValue) :
  RateLimited e -> classifyScriptFailure e = QuotaExceeded.
Proof.
  intros H. apply isRateLimitError_Occurs in H as (json & Hjson & Hocc).
  unfold classifyScriptFailure, scriptCategoryOf, combinedErrorMessage. rewrite Hjson.
  assert (Hin : Str.includes
                  (Str.join " " [match e with JsError m _ => m | _ => "" end; json])
                  RESOURCE_EXHAUSTED = true).
  { apply StrFacts.includes_Occurs. cbn [Str.join].
    apply Occurs_app_r. now apply (Occurs_app_r _ " "). }
  rewrite Hin, orb_true_r. reflexivity.
Qed.

Lemma scriptPrelude_log (s : Store) :
  log (after scriptPrelude s) = (log s ++ scriptPreludeEvents)%list.
Proof. unfold after, scriptPrelude. run_act. now rewrite <- !app_assoc. Qed.

(** Everything a run of [generateScript] on a topic that is not blank
    logs: the prelude, the events of the retried request, none of them a
    setter call, and then one of two ends. *)
Lemma generateScript_events (s : Store) :
  blank (topic (ui s)) = false ->
  exists pre,
    writes pre = []
    /\ eventsOf generateScript s
       = (scriptPreludeEvents ++ pre
            ++ match fst (retrying (GenerateContent (scriptPrompt (topic (ui s))))
                            sdkContent (after scriptPrelude s)) with
               | Returned text => scriptSuccessEnd text
               | Thrown e => scriptFailureEnd e
               | Pending => []
               end)%list.
Proof.
  intros Hb.
  destruct (Silent_retrying (GenerateContent (scriptPrompt (topic (ui s)))) sdkContent
              sdkContent_log (after scriptPrelude s)) as (pre & Hp & W).
  exists pre. split; [exact W|]. apply eventsOf_extends.
  unfold after at 1. rewrite (generateScript_unfold s Hb).
  unfold after at 1 in Hp.
  unfold tryCatchFinally, scriptTry, scriptCatch, bind.
  destruct (retrying _ sdkContent (after scriptPrelude s)) as [[text|e|] s1];
    cbn [fst snd] in *; run_act; rewrite Hp, scriptPrelude_log, <- ?app_assoc;
    rewrite ?app_nil_r; reflexivity.
Qed.

(** A run of [generateScript] that settles ends in one of two ways; the
    state at its end is the state that the run and the others have made
    until its last wait is over, with the setter calls of that end
    applied. *)
Lemma generateScript_overlapped (s : Store) (others : nat -> State -> State) :
  blank (topic (ui s)) = false ->
  fst (generateScript s) = Returned tt ->
  (exists pre text t,
      eventsOf generateScript s = (pre ++ scriptSuccessEnd text)%list
      /\ overlapped others generateScript s
         = applyUpdate (SetIsLoadingKey Loading.Script false)
             (applyUpdate (SetCurrentStep 2) (applyUpdate (SetScript text) t))
      /\ ui (after generateScript s)
         = applyUpdate (SetIsLoadingKey Loading.Script false)
             (applyUpdate (SetCurrentStep 2)
                (applyUpdate (SetScript text) (ui (after scriptPrelude s)))))
  \/ (exists pre e t,
         eventsOf generateScript s = (pre ++ scriptFailureEnd e)%list
         /\ overlapped others generateScript s
            = applyUpdate (SetIsLoadingKey Loading.Script false)
                (applyUpdate (SetError (scriptErrorCopy (classifyScriptFailure e))) t)
         /\ ui (after generateScript s)
            = applyUpdate (SetIsLoadingKey Loading.Script false)
                (applyUpdate (SetError (scriptErrorCopy (classifyScriptFailure e)))
                   (ui (after scriptPrelude s)))).
Proof.
  intros Hb Hret.
  destruct (generateScript_events s Hb) as (pre & W & Hev).
  pose proof (generateScript_cases s Hb) as Hc. simpl in Hc.
  destruct (retrying _ sdkContent (after scriptPrelude s)) as [[text|e|] s1];
    cbn [fst] in Hev; rewrite app_assoc in Hev.
  - left. destruct Hc as [_ Hui].
    destruct (overlapped_end others _ s _ _ Hev) as (k & t & Ht).
    exists (scriptPreludeEvents ++ pre)%list, text, t.
    split; [exact Hev|]. split; [rewrite Ht; reflexivity | exact Hui].
  - right. destruct Hc as [_ Hui].
    destruct (overlapped_end others _ s _ _ Hev) as (k & t & Ht).
    exists (scriptPreludeEvents ++ pre)%list, e, t.
    split; [exact Hev|]. split; [rewrite Ht; reflexivity | exact Hui].
  - destruct Hc as [Hc _]. congruence.
Qed.

(** With nothing else running, replaying the log gives the state the
    handler leaves. *)
Lemma generateScript_undisturbed (s : Store) :
  blank (topic (ui s)) = false ->
  overlapped undisturbed generateScript s = ui (after generateScript s).
Proof.
  intros Hb.
  destruct (generateScript_events s Hb) as (pre & W & Hev).
  pose proof (generateScript_cases s Hb) as Hc. simpl in Hc.
  unfold overlapped. rewrite replay_undisturbed, Hev, !writes_app, W.
  destruct (retrying _ sdkContent (after scriptPrelude s)) as [[text|e|] s1];
    destruct Hc as [_ ->]; destruct s as [[] env0 l]; reflexivity.
Qed.

(** X5. A topic of white space only (or empty) is refused: the handler
    sets the inline error, sends no request and changes nothing else.  Any
    other topic leads to a request carrying the prompt built from it, after
    the error is cleared and the busy flag set. *)
Theorem blank_topic_is_refused (s : Store) :
  (blank (topic (ui s)) = true ->
   generateScript s
   = (Returned tt,
      {| ui := applyUpdate (SetError "Please enter a topic.") (ui s);
         env := env s;
         log := log s ++ [EvSet (SetError "Please enter a topic.")] |}))
  /\ (blank (topic (ui s)) = false ->
      exists rest,
        log (after generateScript s)
        = (log s ++ [ EvSet (SetError "");
                      EvSet (SetIsLoadingKey Loading.Script true);
                      EvRequest (GenerateContent (scriptPrompt (topic (ui s)))) ]
                 ++ rest)%list).
Proof.
  split; intros Hb.
  - now rewrite generateScript_blank.
  - unfold after at 1. rewrite (generateScript_unfold s Hb).
    destruct (content_first_request (GenerateContent (scriptPrompt (topic (ui s))))
                (after scriptPrelude s)) as [r1 H1].
    assert (E1 : extends (log (after (retrying (GenerateContent (scriptPrompt (topic (ui s))))
                                        sdkContent) (after scriptPrelude s)))
                         (log (after (scriptTry (topic (ui s))) (after scriptPrelude s)))).
    { apply bind_prefix. intros text.
      apply Grows_bind; [apply Grows_set | intros _; apply Grows_set]. }
    assert (E2 : extends (log (after (scriptTry (topic (ui s))) (after scriptPrelude s)))
                         (log (after (tryCatchFinally (scriptTry (topic (ui s))) scriptCatch
                                        (set (SetIsLoadingKey Loading.Script false)))
                                 (after scriptPrelude s)))).
    { apply tryCatchFinally_prefix; [|apply Grows_set].
      intros e. apply Grows_bind; [apply Grows_emit | intros _; apply Grows_set]. }
    destruct (extends_trans _ _ _ E1 E2) as [r2 H2]. unfold after at 1 in H2.
    rewrite H2, H1. exists (r1 ++ r2)%list. unfold after, scriptPrelude. simpl.
    repeat rewrite <- app_assoc. reflexivity.
Qed.

(** A topic of two spaces is refused; the topic of the example run is sent. *)
Lemma blank_topic_is_refused_witness :
  fst (generateScript
         {| ui := applyUpdate (SetTopic "  ") initialState; env := Examples.world; log := [] |})
  = Returned tt
  /\ exists rest,
       log (after generateScript Examples.start)
       = ([ EvSet (SetError "");
            EvSet (SetIsLoadingKey Loading.Script true);
            EvRequest (GenerateContent (scriptPrompt "The history of coffee")) ]
           ++ rest)%list.
Proof.
  split.
  - pose proof (proj1 (blank_topic_is_refused
                         {| ui := applyUpdate (SetTopic "  ") initialState;
                            env := Examples.world; log := [] |}) eq_refl) as H.
    rewrite H. reflexivity.
  - exact (proj2 (blank_topic_is_refused Examples.start) eq_refl).
Defined.

(** X6. When the script service answers after at most two rate-limit
    rejections, script generation succeeds: the handler returns, the
    answers used are gone from the queue, and after the last wait it calls
    [setScript] with the answer, [setCurrentStep(2)] and releases the busy
    flag, in this order, and nothing else.  So at the end of the run the
    script is the answer, the stage is 2 and the busy flag is released,
    whatever other handlers did to the state during the waits.  When nothing
    else ran, moreover no error is shown and no other cell has changed. *)
Theorem script_survives_two_rate_limits (s : Store) (es : list JsValue) (text : string)
    (rest : list (Outcome string)) (others : nat -> State -> State) :
  blank (topic (ui s)) = false ->
  contentReplies (env s) = (map Thrown es ++ Returned text :: rest)%list ->
  Forall RateLimited es ->
  (List.length es <= 2)%nat ->
  let st := overlapped others generateScript s in
  let alone := ui (after generateScript s) in
  fst (generateScript s) = Returned tt
  /\ contentReplies (env (after generateScript s)) = rest
  /\ (exists pre,
         eventsOf generateScript s = (pre ++ scriptSuccessEnd text)%list)
  /\ script st = text
  /\ currentStep st = 2
  /\ Loading.script (isLoading st) = false
  /\ overlapped undisturbed generateScript s = alone
  /\ script alone = text
  /\ currentStep alone = 2
  /\ error alone = ""
  /\ Loading.script (isLoading alone) = false
  /\ besideScript alone = besideScript (ui s).
Proof.
  intros Hb Hreplies Hall Hlen st alone.
  destruct (content_recovers (GenerateContent (scriptPrompt (topic (ui s))))
              (after scriptPrelude s) es text rest Hreplies Hall Hlen) as (s1 & Hrun & Hrest).
  pose proof (generateScript_cases s Hb) as H. simpl in H. rewrite Hrun in H.
  destruct H as [Hret Hui].
  assert (Henv : env (after generateScript s) = env s1).
  { unfold after. rewrite (generateScript_unfold s Hb).
    unfold tryCatchFinally, scriptTry, bind. rewrite Hrun. reflexivity. }
  destruct (generateScript_events s Hb) as (pre & W & Hev).
  rewrite Hrun in Hev. cbn [fst] in Hev. rewrite app_assoc in Hev.
  destruct (overlapped_end others _ s _ _ Hev) as (k & t & Ht).
  split; [exact Hret|]. split; [now rewrite Henv|]. split; [eexists; exact Hev|].
  subst st alone. rewrite Ht, (generateScript_undisturbed s Hb), Hui.
  destruct t as [t0 sc0 im0 vu0 au0 sv0 cs0 [ls0 lv0 la0] vm0 er0 ae0 vf0].
  destruct s as [[t sc im vu au sv cs [ls lv la] vm er ae vf] e l]. repeat split.
Qed.

(** Two rejections for the rate limit, then the script; during the first
    wait of the backoff an earlier video run, left behind by Restart, ends
    without a video.  The script is there, at stage 2, beside the error of
    that video run. *)
Lemma script_survives_two_rate_limits_witness :
  let s := Overlaps.afterTwoLimits in
  let st := overlapped (Overlaps.orphanFails 1) generateScript s in
  let alone := ui (after generateScript s) in
  (fst (generateScript s) = Returned tt
   /\ contentReplies (env (after generateScript s)) = []
   /\ (exists pre,
          eventsOf generateScript s = (pre ++ scriptSuccessEnd "A short script.")%list)
   /\ script st = "A short script."
   /\ currentStep st = 2
   /\ Loading.script (isLoading st) = false
   /\ overlapped undisturbed generateScript s = alone
   /\ script alone = "A short script."
   /\ currentStep alone = 2
   /\ error alone = ""
   /\ Loading.script (isLoading alone) = false
   /\ besideScript alone = besideScript (ui s))
  /\ error st = videoErrorCopy MissingResult "VIDEO_URI_MISSING"
  /\ videoGenerationFailed st = true.
Proof.
  split; [|split; vm_compute; reflexivity].
  apply (script_survives_two_rate_limits Overlaps.afterTwoLimits
           [Overlaps.limited; Overlaps.limited] "A short script." []
           (Overlaps.orphanFails 1)).
  - reflexivity.
  - reflexivity.
  - repeat constructor.
  - simpl. lia.
Defined.

(** X7. Three rate-limit rejections in a row exhaust the retries of script
    generation, and the failure is reported as an exceeded quota: the error
    is the quota text, three answers were used, stage and script are as
    before and the busy flag is released. *)
Theorem script_rate_limit_exhaustion_is_quota (s : Store) (e1 e2 e3 : JsValue)
    (rest : list (Outcome string)) :
  blank (topic (ui s)) = false ->
  contentReplies (env s) = Thrown e1 :: Thrown e2 :: Thrown e3 :: rest ->
  RateLimited e1 -> RateLimited e2 -> RateLimited e3 ->
  fst (generateScript s) = Returned tt
  /\ error (ui (after generateScript s)) = scriptErrorCopy QuotaExceeded
  /\ currentStep (ui (after generateScript s)) = currentStep (ui s)
  /\ script (ui (after generateScript s)) = script (ui s)
  /\ Loading.script (isLoading (ui (after generateScript s))) = false
  /\ contentReplies (env (after generateScript s)) = rest.
Proof.
  intros Hb Hreplies H1 H2 H3.
  destruct (content_exhausts (GenerateContent (scriptPrompt (topic (ui s))))
              (after scriptPrelude s) e1 e2 e3 rest Hreplies H1 H2 H3)
    as (s1 & Hrun & Hrest & _).
  pose proof (generateScript_cases s Hb) as H. simpl in H. rewrite Hrun in H.
  destruct H as [Hret Hui].
  assert (Henv : env (after generateScript s) = env s1).
  { unfold after. rewrite (generateScript_unfold s Hb).
    unfold tryCatchFinally, scriptTry, bind. rewrite Hrun. reflexivity. }
  split; [exact Hret|]. rewrite Hui, Henv, (RateLimited_script_quota e3 H3).
  destruct s as [[t sc im vu au sv cs [ls lv la] vm er ae vf] e l]. repeat split.
  exact Hrest.
Qed.

Lemma script_rate_limit_exhaustion_is_quota_witness :
  let limited := JsObject [("status", JsString "RESOURCE_EXHAUSTED")] in
  let s := {| ui := applyUpdate (SetTopic "The history of coffee") initialState;
              env := withContentReplies Examples.world
                       [Thrown limited; Thrown limited; Thrown limited];
              log := [] |} in
  fst (generateScript s) = Returned tt
  /\ error (ui (after generateScript s)) = scriptErrorCopy QuotaExceeded
  /\ currentStep (ui (after generateScript s)) = currentStep (ui s)
  /\ script (ui (after generateScript s)) = script (ui s)
  /\ Loading.script (isLoading (ui (after generateScript s))) = false
  /\ contentReplies (env (after generateScript s)) = [].
Proof.
  apply (script_rate_limit_exhaustion_is_quota
           {| ui := applyUpdate (SetTopic "The history of coffee") initialState;
              env := withContentReplies Examples.world
                       [Thrown (JsObject [("status", JsString "RESOURCE_EXHAUSTED")]);
                        Thrown (JsObject [("status", JsString "RESOURCE_EXHAUSTED")]);
                        Thrown (JsObject [("status", JsString "RESOURCE_EXHAUSTED")])];
              log := [] |}
           (JsObject [("status", JsString "RESOURCE_EXHAUSTED")])
           (JsObject [("status", JsString "RESOURCE_EXHAUSTED")])
           (JsObject [("status", JsString "RESOURCE_EXHAUSTED")]) []);
    reflexivity.
Defined.

Lemma script_copy_two (e : JsValue) :
  scriptErrorCopy (classifyScriptFailure e) = scriptErrorCopy QuotaExceeded
  \/ scriptErrorCopy (classifyScriptFailure e) = scriptErrorCopy Unexpected.
Proof.
  unfold classifyScriptFailure, scriptCategoryOf.
  destruct (Str.includes _ "quota" || Str.includes _ RESOURCE_EXHAUSTED); auto.
Qed.

(** X8. Whenever script generation on a topic that is not blank settles,
    its last setter calls, made after its last wait, are one of two
    sequences.  Success: [setScript] with the answer, [setCurrentStep(2)],
    release of the busy flag.  Failure: [setError] with one of the two texts
    of the script stage, release of the busy flag.  So at the end of the
    run, whatever other handlers did to the state during its waits, the busy
    flag is released and either the script is the answer and the stage is 2,
    or the error is that text.  When nothing else ran, moreover nothing but
    script, stage, error and the flag has changed, and the state is one of
    two: success (stage 2, no error) or failure (stage and script as
    before). *)
Theorem script_settles_in_one_of_two_states (s : Store)
    (others : nat -> State -> State) :
  blank (topic (ui s)) = false ->
  fst (generateScript s) = Returned tt ->
  let st := overlapped others generateScript s in
  let alone := ui (after generateScript s) in
  Loading.script (isLoading st) = false
  /\ ((exists pre text,
          eventsOf generateScript s = (pre ++ scriptSuccessEnd text)%list
          /\ script st = text /\ currentStep st = 2)
      \/ (exists pre e,
             eventsOf generateScript s = (pre ++ scriptFailureEnd e)%list
             /\ error st = scriptErrorCopy (classifyScriptFailure e)
             /\ (error st = scriptErrorCopy QuotaExceeded
                 \/ error st = scriptErrorCopy Unexpected)))
  /\ overlapped undisturbed generateScript s = alone
  /\ Loading.script (isLoading alone) = false
  /\ besideScript alone = besideScript (ui s)
  /\ ((currentStep alone = 2 /\ error alone = "")
      \/ (currentStep alone = currentStep (ui s) /\ script alone = script (ui s)
          /\ (error alone = scriptErrorCopy QuotaExceeded
              \/ error alone = scriptErrorCopy Unexpected))).
Proof.
  intros Hb Hret st alone. subst st alone.
  rewrite (generateScript_undisturbed s Hb).
  destruct (generateScript_overlapped s others Hb Hret)
    as [(pre & text & t & Hev & -> & ->) | (pre & e & t & Hev & -> & ->)].
  - destruct t as [t0 sc0 im0 vu0 au0 sv0 cs0 [ls0 lv0 la0] vm0 er0 ae0 vf0].
    destruct s as [[t sc im vu au sv cs [ls lv la] vm er ae vf] env0 l].
    split; [reflexivity|]. split; [left; exists pre, text; now repeat split|].
    repeat split. left. split; reflexivity.
  - destruct t as [t0 sc0 im0 vu0 au0 sv0 cs0 [ls0 lv0 la0] vm0 er0 ae0 vf0].
    destruct s as [[t sc im vu au sv cs [ls lv la] vm er ae vf] env0 l].
    split; [reflexivity|]. split.
    + right. exists pre, e. split; [exact Hev|]. split; [reflexivity|].
      apply (script_copy_two e).
    + repeat split. right. split; [reflexivity|]. split; [reflexivity|].
      apply (script_copy_two e).
Qed.

(** A run of three rejections for the rate limit, during whose first
    wait an earlier video run, left behind by Restart, ends without a video:
    the error at the end is the quota text of the script stage, beside the
    failure latched by the video run. *)
Lemma script_settles_in_one_of_two_states_witness :
  let s := {| ui := applyUpdate (SetTopic "The history of coffee") initialState;
              env := withContentReplies Examples.world
                       [Thrown Overlaps.limited; Thrown Overlaps.limited;
                        Thrown Overlaps.limited];
              log := [] |} in
  let st := overlapped (Overlaps.orphanFails 1) generateScript s in
  Loading.script (isLoading st) = false
  /\ error st = scriptErrorCopy QuotaExceeded
  /\ videoGenerationFailed st = true
  /\ videoGenerationFailed (ui (after generateScript s)) = false.
Proof.
  pose proof (script_settles_in_one_of_two_states
                {| ui := applyUpdate (SetTopic "The history of coffee") initialState;
                   env := withContentReplies Examples.world
                            [Thrown Overlaps.limited; Thrown Overlaps.limited;
                             Thrown Overlaps.limited];
                   log := [] |}
                (Overlaps.orphanFails 1) eq_refl eq_refl) as (H & _).
  split; [exact H|]. repeat split; vm_compute; reflexivity.
Defined.

(** ** Video generation: how a run ends *)

(** X9. Whenever video generation past its guard settles, its last
    setter calls, made after its last wait, are one of two sequences.
    Success: [setVideoUrl] with the object URL just created, release of the
    video busy flag.  Failure: [setVideoGenerationFailed(true)], [setError]
    with a non-empty text, release of the flag.  So at the end of the run,
    whatever other handlers (Restart and Back included) did to the state
    during its waits, the video busy flag is released and either [videoUrl]
    is the new URL, or the failure is latched with that error.  When nothing
    else ran, moreover the stage is 5, the cells beside are as before, and
    the state is one of two: success (no failure, no error) or failure
    ([videoUrl] as before). *)
Theorem video_settles_in_one_of_two_states (API_KEY : string) (fuel : nat) (s : Store)
    (img : Image) (others : nat -> State -> State) :
  Str.truthy (script (ui s)) = true ->
  image (ui s) = Some img ->
  fst (generateVideo API_KEY fuel s) = Returned tt ->
  let st := overlapped others (generateVideo API_KEY fuel) s in
  let alone := ui (after (generateVideo API_KEY fuel) s) in
  let url := objectUrl (env s) (blobs (env s)) in
  Loading.video (isLoading st) = false
  /\ ((exists pre,
          eventsOf (generateVideo API_KEY fuel) s = (pre ++ videoSuccessEnd url)%list
          /\ videoUrl st = url)
      \/ (exists pre e,
             eventsOf (generateVideo API_KEY fuel) s = (pre ++ videoFailureEnd e)%list
             /\ videoGenerationFailed st = true
             /\ error st = videoErrorCopy (classifyVideoFailure e) (errorInstMessage e)
             /\ Str.truthy (error st) = true))
  /\ overlapped undisturbed (generateVideo API_KEY fuel) s = alone
  /\ currentStep alone = 5
  /\ Loading.video (isLoading alone) = false
  /\ besideVideo alone = besideVideo (ui s)
  /\ ((videoGenerationFailed alone = false /\ error alone = "" /\ videoUrl alone = url)
      \/ (videoGenerationFailed alone = true /\ Str.truthy (error alone) = true
          /\ videoUrl alone = videoUrl (ui s))).
Proof.
  intros Hs Hi Hret st alone url. subst st alone url.
  rewrite (generateVideo_undisturbed API_KEY fuel s img Hs Hi).
  destruct (generateVideo_overlapped API_KEY fuel s img others Hs Hi Hret)
    as [(pre & t & Hev & -> & ->) | (pre & e & t & Hev & -> & ->)].
  - destruct t as [t0 sc0 im0 vu0 au0 sv0 cs0 [ls0 lv0 la0] vm0 er0 ae0 vf0].
    destruct s as [[t sc im vu au sv cs [ls lv la] vm er ae vf] env0 l].
    split; [reflexivity|]. split; [left; exists pre; now split|].
    repeat split. left. repeat split.
  - pose proof (videoErrorCopy_truthy (classifyVideoFailure e) (errorInstMessage e)) as Ht.
    destruct t as [t0 sc0 im0 vu0 au0 sv0 cs0 [ls0 lv0 la0] vm0 er0 ae0 vf0].
    destruct s as [[t sc im vu au sv cs [ls lv la] vm er ae vf] env0 l].
    split; [reflexivity|]. split.
    + right. exists pre, e. split; [exact Hev|]. repeat split. exact Ht.
    + repeat split. right. split; [reflexivity|]. split; [exact Ht | reflexivity].
Qed.

(** One poll, then a finished operation without a video; the user clicks
    Restart during the wait of 30000.  The run ends at stage 1 with the
    failure latched. *)
Lemma video_settles_in_one_of_two_states_witness :
  let s := Overlaps.polledOnce in
  let others := Overlaps.meanwhile [None; Some (ClickRestart (Some []))] in
  let st := overlapped others (generateVideo "k" 3) s in
  Loading.video (isLoading st) = false
  /\ videoGenerationFailed st = true
  /\ error st = videoErrorCopy MissingResult "VIDEO_URI_MISSING"
  /\ currentStep st = 1
  /\ image st = None
  /\ currentStep (ui (after (generateVideo "k" 3) s)) = 5.
Proof.
  pose proof (video_settles_in_one_of_two_states "k" 3 Overlaps.polledOnce
                Examples.picture
                (Overlaps.meanwhile [None; Some (ClickRestart (Some []))])
                eq_refl eq_refl eq_refl) as (H1 & _ & _ & H5 & _).
  split; [exact H1|]. split; [vm_compute; reflexivity|]. split; [vm_compute; reflexivity|].
  split; [vm_compute; reflexivity|]. split; [vm_compute; reflexivity | exact H5].
Defined.



(** X11. An error in the finished operation takes precedence over any
    result: the [try] block throws an [Error] whose message is the
    payload's message, or the fixed fallback when that is absent or empty,
    whether or not the operation also carries a URI; nothing is fetched. *)
Theorem operation_error_takes_precedence (API_KEY : string) (fuel : nat)
    (script : string) (image : Image) (s s1 : Store) (operation : Op.t) (err : Op.Error) :
  awaitOperation fuel script image s = (Returned operation, s1) ->
  Op.error operation = Some err ->
  let text := match Op.message err with
              | Some (String c m) => String c m
              | _ => "The video generation service returned an error."
              end in
  videoTry API_KEY fuel script image s
  = (Thrown (newError text),
     {| ui := ui s; env := env s1;
        log := log s1 ++ [EvClearInterval; EvOperationError err] |})
  /\ fetches (log s1 ++ [EvClearInterval; EvOperationError err]) = fetches (log s)
  /\ httpReplies (env s1) = httpReplies (env s)
  /\ errorInstMessage (newError text) = text.
Proof.
  intros Hrun Herr text. subst text.
  pose proof (pollView_awaitOperation fuel script image s) as Hview.
  unfold after in Hview. rewrite Hrun in Hview. unfold pollView in Hview. simpl in Hview.
  injection Hview as Hui Hhttp Hfetch.
  split; [|split; [|split; [exact Hhttp | reflexivity]]].
  - unfold videoTry, bind at 1. rewrite Hrun. unfold collectVideo. rewrite Herr.
    run_act. rewrite Hui, <- app_assoc.
    destruct (Op.message err) as [[|c m]|]; reflexivity.
  - rewrite fetches_app, Hfetch. simpl. apply app_nil_r.
Qed.

(** A finished operation with a policy error, and a URI besides. *)
Lemma operation_error_takes_precedence_witness :
  let operation := {| Op.done := true;
                      Op.error := Op.error MoreExamples.failedOp;
                      Op.response := Op.response (MoreExamples.videoAt "u") |} in
  let s := MoreExamples.readyFor (MoreExamples.worldWith [Returned operation] []) in
  let s1 := after (awaitOperation 3 "A short script." Examples.picture) s in
  let text := "The prompt violates the usage policy." in
  videoTry "k" 3 "A short script." Examples.picture s
  = (Thrown (newError text),
     {| ui := ui s; env := env s1;
        log := log s1 ++ [EvClearInterval;
                          EvOperationError {| Op.message := Some text |}] |})
  /\ fetches (log s1 ++ [EvClearInterval; EvOperationError {| Op.message := Some text |}])
     = fetches (log s)
  /\ httpReplies (env s1) = httpReplies (env s)
  /\ errorInstMessage (newError text) = text.
Proof.
  exact (operation_error_takes_precedence "k" 3 "A short script." Examples.picture
           (MoreExamples.readyFor
              (MoreExamples.worldWith
                 [Returned {| Op.done := true;
                              Op.error := Op.error MoreExamples.failedOp;
                              Op.response := Op.response (MoreExamples.videoAt "u") |}] []))
           (after (awaitOperation 3 "A short script." Examples.picture)
              (MoreExamples.readyFor
                 (MoreExamples.worldWith
                    [Returned {| Op.done := true;
                                 Op.error := Op.error MoreExamples.failedOp;
                                 Op.response := Op.response (MoreExamples.videoAt "u") |}]
                    [])))
           {| Op.done := true;
              Op.error := Op.error MoreExamples.failedOp;
              Op.response := Op.response (MoreExamples.videoAt "u") |}
           {| Op.message := Some "The prompt violates the usage policy." |}
           eq_refl eq_refl).
Defined.

(** X12. When the fetch of the video answers with a status that is not a
    success, [collectVideo] throws [Error("Failed to fetch video: " + d)]
    with [d] the server-supplied message if the body parses as JSON with a
    non-empty [error.message], and the status text otherwise; when the fetch
    itself is rejected, that rejection is thrown.  Either way one fetch was
    made, no object URL was created and the React state is untouched. *)
Theorem fetch_failure_is_reported (API_KEY : string) (operation : Op.t) (s : Store)
    (c : ascii) (u : string) (reply : HttpReply) (rest : list HttpReply) :
  Op.error operation = None ->
  Op.firstVideoUri operation = Some (String c u) ->
  httpReplies (env s) = reply :: rest ->
  match reply with FetchResponds r => ok r = false | FetchRejects _ => True end ->
  let thrown :=
    match reply with
    | FetchRejects x => x
    | FetchResponds r =>
        newError ("Failed to fetch video: "
                  ++ match json r with
                     | Some (Some (String c' m)) => String c' m
                     | _ => statusText r
                     end)
    end in
  fst (collectVideo API_KEY operation s) = Thrown thrown
  /\ ui (after (collectVideo API_KEY operation) s) = ui s
  /\ fetches (log (after (collectVideo API_KEY operation) s))
     = (fetches (log s) ++ [(String c u ++ "&key=" ++ API_KEY)%string])%list
  /\ httpReplies (env (after (collectVideo API_KEY operation) s)) = rest
  /\ blobs (env (after (collectVideo API_KEY operation) s)) = blobs (env s).
Proof.
  intros Herr Huri Hhttp Hbad thrown. subst thrown.
  assert (Hstart : collectVideo API_KEY operation s
                   = (videoResponse <- fetch (String c u ++ "&key=" ++ API_KEY) ;;
                      if negb (ok videoResponse) then
                        errorDetail <-
                          match json videoResponse with
                          | None => emit EvParseWarn ;; ret (statusText videoResponse)
                          | Some (Some m) =>
                              ret (if Str.truthy m then m else statusText videoResponse)
                          | Some None => ret (statusText videoResponse)
                          end ;;
                        throw (newError ("Failed to fetch video: " ++ errorDetail))
                      else
                        url <- createObjectURL ;;
                        set (SetVideoUrl url)) (after (emit EvClearInterval) s)).
  { unfold collectVideo. rewrite Herr, Huri. reflexivity. }
  unfold after. rewrite Hstart. unfold fetch. run_act. rewrite Hhttp.
  destruct reply as [x|r]; cbn [withEnv ui env log fst snd].
  - repeat split. rewrite !fetches_app. simpl. now rewrite app_nil_r.
  - rewrite Hbad. cbn [negb].
    destruct (json r) as [[[|c' m]|]|]; run_act; repeat split;
      rewrite !fetches_app; simpl; rewrite ?app_nil_r; reflexivity.
Qed.

(** A 403 whose body carries a message. *)
Lemma fetch_failure_is_reported_witness :
  let s := MoreExamples.readyFor
             (MoreExamples.worldWith []
                [FetchResponds {| ok := false; statusText := "Forbidden";
                                  json := Some (Some "API key not valid.") |}]) in
  fst (collectVideo "k" (MoreExamples.videoAt "https://videos.example/v1?alt=media") s)
  = Thrown (newError "Failed to fetch video: API key not valid.").
Proof.
  apply (fetch_failure_is_reported "k"
           (MoreExamples.videoAt "https://videos.example/v1?alt=media")
           (MoreExamples.readyFor
              (MoreExamples.worldWith []
                 [FetchResponds {| ok := false; statusText := "Forbidden";
                                   json := Some (Some "API key not valid.") |}]))
           "h"%char "ttps://videos.example/v1?alt=media" _ [] eq_refl eq_refl eq_refl
           eq_refl).
Defined.

(** X13. Without an image or without a script nothing is submitted.
    After Clear Image, and likewise after the script has been emptied, both
    Generate Video and Resubmit only set the error about the missing input:
    they send no request, and leave stage, failure latch, busy flags and
    [videoUrl] as they are. *)
Theorem nothing_submitted_without_inputs (API_KEY : string) (fuel : nat) (s : Store) :
  let cleared := after handleClearImage s in
  let emptied := after (perform API_KEY (EditScript "")) s in
  generateVideo API_KEY fuel cleared
  = set (SetError "Script and image are required to generate a video.") cleared
  /\ handleResubmitVideo API_KEY fuel cleared
     = set (SetError "Script and image are required to generate a video.") cleared
  /\ generateVideo API_KEY fuel emptied
     = set (SetError "Script and image are required to generate a video.") emptied
  /\ currentStep (ui (after (generateVideo API_KEY fuel) cleared)) = 3
  /\ videoGenerationFailed (ui (after (generateVideo API_KEY fuel) cleared))
     = videoGenerationFailed (ui s)
  /\ isLoading (ui (after (generateVideo API_KEY fuel) cleared)) = isLoading (ui s)
  /\ videoUrl (ui (after (generateVideo API_KEY fuel) cleared)) = videoUrl (ui s)
  /\ env (after (generateVideo API_KEY fuel) cleared) = env s.
Proof.
  intros cleared emptied.
  assert (H1 : generateVideo API_KEY fuel cleared
               = set (SetError "Script and image are required to generate a video.") cleared).
  { apply generateVideo_guard. right. subst cleared. destruct s as [[] e l]. reflexivity. }
  assert (H2 : generateVideo API_KEY fuel emptied
               = set (SetError "Script and image are required to generate a video.") emptied).
  { apply generateVideo_guard. left. subst emptied. destruct s as [[] e l]. reflexivity. }
  split; [exact H1|]. split; [exact H1|]. split; [exact H2|].
  unfold after. rewrite H1. subst cleared.
  destruct s as [[] e l]. repeat split.
Qed.

(** ** Which handlers throw; the stage pointer and the image *)


(** What an action can do to the stage pointer and the image. *)
Lemma perform_stage_image (API_KEY : string) (a : Action) (s : Store) :
  let st := ui s in
  let st' := ui (after (perform API_KEY a) s) in
  (currentStep st' = currentStep st /\ image st' = image st)
  \/ ((currentStep st' = 2 \/ currentStep st' = 3) /\ image st' = image st)
  \/ (currentStep st' = 5 /\ image st' = image st /\ image st <> None)
  \/ (currentStep st' = 4 /\ image st' <> None)
  \/ ((currentStep st' = 3 \/ currentStep st' = 1) /\ image st' = None)
  \/ (a = ClickBack /\ currentStep st' = currentStep st - 1 /\ image st' = image st).
Proof.
  intros st st'. subst st st'.
  destruct a; cbn [perform].
  - left. destruct s as [[] e l]. split; reflexivity.
  - left. destruct s as [[] e l]. split; reflexivity.
  - left. destruct s as [[] e l]. split; reflexivity.
  - destruct (blank (topic (ui s))) eqn:Hb.
    + left. unfold after. rewrite (generateScript_blank s Hb).
      destruct s as [[] e l]. split; reflexivity.
    + pose proof (generateScript_cases s Hb) as H. simpl in H.
      destruct (retrying _ sdkContent (after scriptPrelude s)) as [[text|x|] s1];
        [destruct H as [_ ->] | destruct H as [_ ->] | destruct H as [_ ->]];
        destruct s as [[] e l]; [right; left | left | left]; simpl; auto.
  - left. unfold after, handleTextToSpeech, bind.
    destruct s as [[t sc im vu au sv cs il vm er ae vf] e l]. cbn [ui script selectedVoice].
    destruct (Str.truthy sc); [destruct synthesis as [[|v voices]|]|]; split; reflexivity.
  - unfold after, handleGenerateAudio.
    destruct s as [[t sc im vu au sv cs il vm er ae vf] e l]. cbn [ui script].
    destruct (Str.truthy sc); [|left; split; reflexivity]. run_act.
    destruct (Qle_bool (random e (draws e)) (1 # 2)); simpl; [right; left | left]; auto.
  - right. left. destruct s as [[] e l]. simpl. auto.
  - destruct file as [img|]; [|left; split; reflexivity].
    right. right. right. left. destruct s as [[] e l]. simpl. split; [reflexivity | discriminate].
  - do 4 right. left. destruct s as [[] e l]. simpl. auto.
  - destruct (Str.truthy (script (ui s))) eqn:Hs;
      [destruct (image (ui s)) as [img|] eqn:Hi|].
    + pose proof (generateVideo_cases API_KEY fuel s img Hs Hi) as H. simpl in H.
      right. right. left.
      destruct (videoTry API_KEY fuel (script (ui s)) img (after videoPrelude s))
        as [[[]|x|] s7]; destruct H as [_ ->];
        destruct s as [[t sc im vu au sv cs il vm er ae vf] e l]; simpl in *;
        subst im; repeat split; discriminate.
    + left. unfold after. rewrite generateVideo_guard by now right.
      destruct s as [[] e l]. simpl in *. split; congruence.
    + left. unfold after. rewrite generateVideo_guard by now left.
      destruct s as [[] e l]. simpl in *. split; congruence.
  - unfold handleResubmitVideo.
    destruct (Str.truthy (script (ui s))) eqn:Hs;
      [destruct (image (ui s)) as [img|] eqn:Hi|].
    + pose proof (generateVideo_cases API_KEY fuel s img Hs Hi) as H. simpl in H.
      right. right. left.
      destruct (videoTry API_KEY fuel (script (ui s)) img (after videoPrelude s))
        as [[[]|x|] s7]; destruct H as [_ ->];
        destruct s as [[t sc im vu au sv cs il vm er ae vf] e l]; simpl in *;
        subst im; repeat split; discriminate.
    + left. unfold after. rewrite generateVideo_guard by now right.
      destruct s as [[] e l]. simpl in *. split; congruence.
    + left. unfold after. rewrite generateVideo_guard by now left.
      destruct s as [[] e l]. simpl in *. split; congruence.
  - do 5 right. destruct s as [[] e l]. simpl. auto.
  - do 4 right. left. destruct synthesis as [voices|]; destruct s as [[] e l]; simpl; auto.
Qed.

(** X15. The stage pointer stays within the five stages: from a state at
    one of the stages 1 to 5, every sequence of user actions in which Back
    is used only above stage 1 leads to a state at one of the stages 1 to
    5, whatever the outside world answers and whether or not the runs
    settle. *)
Theorem stage_stays_in_range (API_KEY : string) (s s' : Store) :
  staged (ui s) ->
  Reaches API_KEY s s' ->
  staged (ui s').
Proof.
  intros Hstart Hreach. induction Hreach as [|s1 a _ IH Hback]; [exact Hstart|].
  unfold staged in *.
  destruct (perform_stage_image API_KEY a s1)
    as [[H _] | [[H _] | [[H _] | [[H _] | [[H _] | [Ha [H _]]]]]]]; try lia.
  specialize (Hback Ha). lia.
Qed.

(** The example run, followed by Back and a resubmission. *)
Lemma stage_stays_in_range_witness :
  staged (ui (after (perform "k" (ClickResubmit 5))
                (after (perform "k" ClickBack) Examples.afterFailedVideo))).
Proof.
  apply (stage_stays_in_range "k" Examples.afterFailedVideo).
  - unfold staged. vm_compute. split; discriminate.
  - apply Reaches_step; [apply Reaches_step; [apply Reaches_here|] |].
    + intros _. vm_compute. reflexivity.
    + discriminate.
Defined.

(** X16. From stage 4 on there is an image: if this holds of a state, it
    holds of every state reached from it by any sequence of user actions
    (uploads, Clear Image, Back, Restart and failed or pending runs
    included). *)
Theorem image_present_from_stage_4 (API_KEY : string) (s s' : Store) :
  pictured (ui s) ->
  Reaches API_KEY s s' ->
  pictured (ui s').
Proof.
  intros Hstart Hreach. induction Hreach as [|s1 a _ IH _]; [exact Hstart|].
  unfold pictured in *.
  destruct (perform_stage_image API_KEY a s1)
    as [[H1 H2] | [[H1 H2] | [[H1 [H2 H3]] | [[H1 H2] | [[H1 H2] | [_ [H1 H2]]]]]]];
    intros Hge; try lia; try (rewrite H2; apply IH; lia); try congruence.
Qed.

Lemma image_present_from_stage_4_witness :
  pictured (ui (after (perform "k" ClickBack) Examples.afterFailedVideo)).
Proof.
  apply (image_present_from_stage_4 "k" Examples.afterFailedVideo).
  - intros _. vm_compute. discriminate.
  - apply Reaches_step; [apply Reaches_here|]. intros _. vm_compute. reflexivity.
Defined.

(** ** What is shown *)


(** X18. When video generation past its guard has settled, the loader is
    hidden, whatever other handlers did to the state during its waits.
    After a failure, also whatever the others did, its result is shown in
    one place: the resubmit panel with the error text of the run, the top
    banner and the player being hidden (a video generated earlier is
    hidden).  After a success the new object URL is in [videoUrl]; when
    nothing else ran it is shown in one place, the player, without banner
    and without resubmit panel.  (When others did run, the banner can be
    shown beside the player: lemma [banner_beside_player].) *)
Theorem video_result_is_shown_in_one_place (API_KEY : string) (fuel : nat) (s : Store)
    (img : Image) (others : nat -> State -> State) :
  Str.truthy (script (ui s)) = true ->
  image (ui s) = Some img ->
  fst (generateVideo API_KEY fuel s) = Returned tt ->
  let st := overlapped others (generateVideo API_KEY fuel) s in
  let shown := View.render st in
  let alone := View.render (ui (after (generateVideo API_KEY fuel) s)) in
  let url := objectUrl (env s) (blobs (env s)) in
  View.loader shown = None
  /\ View.videoBusy shown = false
  /\ ((exists pre,
          eventsOf (generateVideo API_KEY fuel) s = (pre ++ videoSuccessEnd url)%list
          /\ videoUrl st = url
          /\ View.loader alone = None
          /\ View.banner alone = None
          /\ View.resubmit alone = None
          /\ View.player alone
             = View.shown (Str.truthy url)
                 (url, View.shown (Str.truthy (audioUrl (ui s))) (audioUrl (ui s))))
      \/ (exists pre e,
             eventsOf (generateVideo API_KEY fuel) s = (pre ++ videoFailureEnd e)%list
             /\ View.resubmit shown
                = Some (videoErrorCopy (classifyVideoFailure e) (errorInstMessage e))
             /\ View.banner shown = None
             /\ View.player shown = None
             /\ View.resubmit alone
                = Some (videoErrorCopy (classifyVideoFailure e) (errorInstMessage e))
             /\ View.banner alone = None
             /\ View.player alone = None
             /\ View.loader alone = None)).
Proof.
  intros Hs Hi Hret st shown alone url. subst shown alone st url.
  destruct (generateVideo_overlapped API_KEY fuel s img others Hs Hi Hret)
    as [(pre & t & Hev & -> & ->) | (pre & e & t & Hev & -> & ->)].
  - destruct t as [t0 sc0 im0 vu0 au0 sv0 cs0 [ls0 lv0 la0] vm0 er0 ae0 vf0].
    destruct s as [[t sc im vu au sv cs [ls lv la] vm er ae vf] env0 l].
    split; [reflexivity|]. split; [reflexivity|]. left. exists pre.
    split; [exact Hev|]. split; [reflexivity|]. split; [reflexivity|].
    split; [reflexivity|]. split; [reflexivity|]. cbn.
    destruct (Str.truthy (objectUrl env0 (blobs env0))); reflexivity.
  - pose proof (videoErrorCopy_truthy (classifyVideoFailure e) (errorInstMessage e)) as Ht.
    destruct t as [t0 sc0 im0 vu0 au0 sv0 cs0 [ls0 lv0 la0] vm0 er0 ae0 vf0].
    destruct s as [[t sc im vu au sv cs [ls lv la] vm er ae vf] env0 l].
    split; [reflexivity|]. split; [reflexivity|]. right. exists pre, e.
    split; [exact Hev|].
    cbn [View.render View.loader View.banner View.videoBusy View.resubmit View.player
         applyUpdate ui after videoPrelude error videoGenerationFailed isLoading
         Loading.video Loading.with_ videoLoadingMessage videoUrl audioUrl View.shown].
    unfold after, videoPrelude. run_act. rewrite Ht. cbn.
    rewrite !andb_false_r. repeat split.
Qed.

(** One poll, then a finished operation without a video, the user clicking
    Restart during the wait of 30000: the resubmit panel with the text
    about the missing video, and nothing else. *)
Lemma video_result_is_shown_in_one_place_witness :
  let others := Overlaps.meanwhile [None; Some (ClickRestart (Some []))] in
  let shown := View.render (overlapped others (generateVideo "k" 3) Overlaps.polledOnce) in
  View.loader shown = None
  /\ View.videoBusy shown = false
  /\ View.banner shown = None
  /\ View.player shown = None
  /\ View.resubmit shown = Some (videoErrorCopy MissingResult "VIDEO_URI_MISSING").
Proof.
  pose proof (video_result_is_shown_in_one_place "k" 3 Overlaps.polledOnce
                Examples.picture
                (Overlaps.meanwhile [None; Some (ClickRestart (Some []))])
                eq_refl eq_refl eq_refl) as (H1 & H2 & _).
  split; [exact H1|]. split; [exact H2|]. repeat split; vm_compute; reflexivity.
Defined.

(** A run that ends with a video, during which the user clicks Restart,
    types a blank and clicks Generate Script: the refusal of that click and
    the player are shown together. *)
Lemma banner_beside_player :
  let others := Overlaps.meanwhile
                  [Some (ClickRestart (Some [])); Some (TypeTopic " ");
                   Some ClickGenerateScript] in
  let shown :=
    View.render (overlapped others (generateVideo "k" 3) Overlaps.polledOnceWithVideo) in
  View.banner shown = Some "Please enter a topic."
  /\ View.player shown = Some ("blob:0", None)
  /\ View.resubmit shown = None.
Proof. repeat split; vm_compute; reflexivity. Qed.

(** X19. The Generate Script button and its handler disagree on white
    space: the button is disabled exactly when the busy flag is set or the
    topic is the empty string, so for a topic of white space that is not
    empty the button is enabled, and the click is refused by the handler
    with the inline error, leaving the stage where it is. *)
Theorem whitespace_topic_passes_the_button (s : Store) :
  (View.generateScriptDisabled (View.render (ui s)) = true
   <-> Loading.script (isLoading (ui s)) = true \/ topic (ui s) = "")
  /\ (topic (ui s) <> "" ->
      blank (topic (ui s)) = true ->
      Loading.script (isLoading (ui s)) = false ->
      View.generateScriptDisabled (View.render (ui s)) = false
      /\ fst (generateScript s) = Returned tt
      /\ error (ui (after generateScript s)) = "Please enter a topic."
      /\ currentStep (ui (after generateScript s)) = currentStep (ui s)
      /\ log (after generateScript s)
         = (log s ++ [EvSet (SetError "Please enter a topic.")])%list).
Proof.
  split.
  - cbn. destruct (Loading.script (isLoading (ui s))); destruct (topic (ui s));
      cbn; intuition (discriminate || congruence).
  - intros Hne Hb Hl. unfold after. rewrite (generateScript_blank s Hb).
    destruct s as [[t sc im vu au sv cs [ls lv la] vm er ae vf] e l]. simpl in *.
    subst ls. destruct t; [congruence|]. repeat split.
Qed.

Lemma whitespace_topic_passes_the_button_witness :
  let s := {| ui := applyUpdate (SetTopic "  ") initialState;
              env := Examples.world; log := [] |} in
  View.generateScriptDisabled (View.render (ui s)) = false
  /\ fst (generateScript s) = Returned tt
  /\ error (ui (after generateScript s)) = "Please enter a topic."
  /\ currentStep (ui (after generateScript s)) = currentStep (ui s)
  /\ log (after generateScript s)
         = (log s ++ [EvSet (SetError "Please enter a topic.")])%list.
Proof.
  apply (whitespace_topic_passes_the_button
           {| ui := applyUpdate (SetTopic "  ") initialState;
              env := Examples.world; log := [] |}).
  - discriminate.
  - reflexivity.
  - reflexivity.
Defined.

(** ** Voice preview *)

Lemma first_of_filter {A} (f : A -> bool) (l : list A) :
  match hd_error (filter f l) with
  | Some v => exists before rest,
                l = (before ++ v :: rest)%list /\ f v = true
                /\ Forall (fun x => f x = false) before
  | None => Forall (fun x => f x = false) l
  end.
Proof.
  induction l as [|x l IH]; [constructor|]. simpl. destruct (f x) eqn:Hx.
  - exists [], l. repeat split; [exact Hx | constructor].
  - destruct (hd_error (filter f l)) as [v|].
    + destruct IH as (before & rest & -> & Hv & Hall).
      exists (x :: before), rest. repeat split; [exact Hv | now constructor].
    + now constructor.
Qed.

(** X20. With a script, speech synthesis and a list of voices that is not
    empty, the preview cancels any speech and speaks the script with the
    first voice of the list that is English (its language tag starts with
    [en]) and has the selected voice name in its lower-cased name; with no
    such voice it speaks with the default voice.  The React state is not
    touched. *)
Theorem preview_uses_first_matching_voice (voices : list Speech.Voice) (s : Store) :
  Str.truthy (script (ui s)) = true ->
  voices <> [] ->
  exists choice,
    handleTextToSpeech (Some voices) s
    = (Returned (Speech.Speak (script (ui s)) choice),
       {| ui := ui s; env := env s; log := log s ++ [EvSpeechCancel] |})
    /\ match choice with
       | Some v =>
           exists before rest,
             voices = (before ++ v :: rest)%list
             /\ Speech.matches (selectedVoice (ui s)) v = true
             /\ Forall (fun x => Speech.matches (selectedVoice (ui s)) x = false) before
       | None =>
           Forall (fun x => Speech.matches (selectedVoice (ui s)) x = false) voices
       end.
Proof.
  intros Hs Hv. exists (hd_error (filter (Speech.matches (selectedVoice (ui s))) voices)).
  split.
  - unfold handleTextToSpeech. rewrite Hs. destruct voices; [congruence | reflexivity].
  - apply first_of_filter.
Qed.

Lemma preview_uses_first_matching_voice_witness :
  exists choice,
    handleTextToSpeech
      (Some [MoreExamples.english "Google UK English Male";
             MoreExamples.english "Google UK English Female"])
      Examples.atStage3
    = (Returned (Speech.Speak (script (ui Examples.atStage3)) choice),
       {| ui := ui Examples.atStage3; env := env Examples.atStage3;
          log := log Examples.atStage3 ++ [EvSpeechCancel] |})
    /\ match choice with
       | Some v =>
           exists before rest,
             [MoreExamples.english "Google UK English Male";
              MoreExamples.english "Google UK English Female"]
             = (before ++ v :: rest)%list
             /\ Speech.matches (selectedVoice (ui Examples.atStage3)) v = true
             /\ Forall (fun x => Speech.matches (selectedVoice (ui Examples.atStage3)) x
                                 = false) before
       | None =>
           Forall (fun x => Speech.matches (selectedVoice (ui Examples.atStage3)) x = false)
             [MoreExamples.english "Google UK English Male";
              MoreExamples.english "Google UK English Female"]
       end.
Proof.
  apply (preview_uses_first_matching_voice
           [MoreExamples.english "Google UK English Male";
            MoreExamples.english "Google UK English Female"] Examples.atStage3).
  - reflexivity.
  - discriminate.
Defined.

Lemma Occurs_female_male (t : string) : Str.Occurs "female" t -> Str.Occurs "male" t.
Proof.
  intros (b & a & ->). exists (b ++ "fe"), a.
  rewrite StrFacts.app_assoc_s. reflexivity.
Qed.

(** X21. Every voice accepted for the selection [female] is accepted for
    the selection [male] too, since [male] occurs in [female].  So with
    [male] selected, a list that starts with an English voice named as
    female makes the preview speak with that voice. *)
Theorem male_selection_accepts_female_voices (v : Speech.Voice)
    (rest : list Speech.Voice) (s : Store) :
  Speech.matches "female" v = true ->
  Speech.matches "male" v = true
  /\ (Str.truthy (script (ui s)) = true ->
      selectedVoice (ui s) = "male" ->
      fst (handleTextToSpeech (Some (v :: rest)) s)
      = Returned (Speech.Speak (script (ui s)) (Some v))).
Proof.
  intros Hf.
  assert (Hm : Speech.matches "male" v = true).
  { unfold Speech.matches in *. apply andb_true_iff in Hf as [Hen Hname].
    rewrite Hen. cbn [andb].
    apply StrFacts.includes_Occurs. apply Occurs_female_male.
    now apply StrFacts.includes_Occurs. }
  split; [exact Hm|]. intros Hs Hsel.
  unfold handleTextToSpeech. rewrite Hs, Hsel. cbn [filter]. rewrite Hm. reflexivity.
Qed.

Lemma male_selection_accepts_female_voices_witness :
  let s := after (perform "k" (ChooseVoice false)) Examples.atStage3 in
  Speech.matches "male" (MoreExamples.english "Google UK English Female") = true
  /\ fst (handleTextToSpeech
            (Some [MoreExamples.english "Google UK English Female";
                   MoreExamples.english "Google UK English Male"]) s)
     = Returned (Speech.Speak (script (ui s))
                   (Some (MoreExamples.english "Google UK English Female"))).
Proof.
  destruct (male_selection_accepts_female_voices
              (MoreExamples.english "Google UK English Female")
              [MoreExamples.english "Google UK English Male"]
              (after (perform "k" (ChooseVoice false)) Examples.atStage3) eq_refl)
    as [H1 H2].
  split; [exact H1|]. apply H2; reflexivity.
Defined.

(** ** The data URL of an upload *)

Lemma split_free (sep : ascii) (s : string) :
  DataUrl.free sep s = true -> DataUrl.split sep s = [s].
Proof.
  induction s as [|c s IH]; [reflexivity|]. simpl.
  destruct (Ascii.eqb c sep); [discriminate|]. simpl. intros H. now rewrite IH.
Qed.

Lemma split_at_first (sep : ascii) (header body : string) :
  DataUrl.free sep header = true ->
  DataUrl.split sep (header ++ String sep body) = header :: DataUrl.split sep body.
Proof.
  induction header as [|c header IH]; simpl.
  - intros _. now rewrite Ascii.eqb_refl.
  - destruct (Ascii.eqb c sep); [discriminate|]. simpl. intros H. now rewrite IH.
Qed.

(** X22. From a data URL - a header without a comma, a comma, the
    payload - line 192 takes the payload up to its first comma, hence all
    of it when it has none (base64 text never has one); from a result
    without any comma it takes nothing ([undefined]). *)
Theorem payload_of_data_url (header body : string) :
  DataUrl.free "," header = true ->
  DataUrl.payload (header ++ "," ++ body) = hd_error (DataUrl.split "," body)
  /\ (DataUrl.free "," body = true ->
      DataUrl.payload (header ++ "," ++ body) = Some body)
  /\ DataUrl.payload header = None.
Proof.
  intros Hh. unfold DataUrl.payload. change ("," ++ body) with (String "," body).
  rewrite (split_at_first _ _ _ Hh), (split_free _ _ Hh). cbn [nth_error].
  split; [|split; [|reflexivity]].
  - destruct (DataUrl.split "," body); reflexivity.
  - intros Hb. now rewrite (split_free _ _ Hb).
Qed.

Lemma payload_of_data_url_witness :
  DataUrl.payload ("data:image/png;base64" ++ "," ++ "iVBORw0KGgo=") = Some "iVBORw0KGgo=".
Proof.
  apply (payload_of_data_url "data:image/png;base64" "iVBORw0KGgo="); reflexivity.
Defined.
